(** * gemini-images: session store and upstream adapter

    A shallow embedding of the JavaScript sources and the properties of
    the specification checked against it.  The modules embedded are the
    utilities ([src/utils.js]), the configuration (the version that
    declares [SESSION_MAX_HISTORY] and the session directories), the API
    client ([src/api-client.js]), the session management with
    persistence (the module that follows the image handler in
    [src/image-handler.js]) and the MCP server, version 0.3.0 (the last
    module of [src/config.js]).

    Conventions of the embedding.
    - A JavaScript string is a [string]; its characters stand for code
      units below 256.
    - A JavaScript number that holds an integer is a [Z]; the one place
      where the code computes with fractions ([sizeToAspectRatio]) uses
      binary64 [float]s, as the runtime does.
    - [null] and [undefined] are [None].
    - An [async] function is a computation in the monad [M] below: it
      threads the state of the process (the session [Map], the session
      and image directories, the clock, the log of upstream calls) and
      either returns a value or throws. *)

From Stdlib Require Import ZArith Floats Ascii String List Lia Bool.

From stdpp Require Import gmap strings list pretty.

Open Scope string_scope.

Open Scope list_scope.

Open Scope Z_scope.

(* ================================================================== *)
(** * The JavaScript runtime: strings and numbers                      *)
(* ================================================================== *)

Module Js.

(** White space removed by [String.prototype.trim] (and skipped by
    [parseInt]) among the code units below 256: TAB, LF, VT, FF, CR,
    SPACE and NBSP. *)
Definition isWhiteSpace (c : ascii) : bool :=
  let n := N_of_ascii c in
  ((9 <=? n) && (n <=? 13) || (n =? 32) || (n =? 160))%N.

Fixpoint trimStart (s : string) : string :=
  match s with
  | String c r => if isWhiteSpace c then trimStart r else s
  | EmptyString => EmptyString
  end.

Fixpoint rev_onto (s acc : string) : string :=
  match s with
  | EmptyString => acc
  | String c r => rev_onto r (String c acc)
  end.

Definition reverse (s : string) : string := rev_onto s EmptyString.

Definition trimEnd (s : string) : string := reverse (trimStart (reverse s)).

Definition trim (s : string) : string := trimEnd (trimStart s).

(** Truthiness of a string: [Boolean(s)]. *)
Definition truthy (s : string) : bool :=
  match s with EmptyString => false | _ => true end.

(** [s.startsWith(p)]. *)
Fixpoint startsWith (p s : string) : bool :=
  match p, s with
  | EmptyString, _ => true
  | String a p', String b s' => if Ascii.eqb a b then startsWith p' s' else false
  | String _ _, EmptyString => false
  end.

(** [s.slice(String.length p)] when [s] starts with [p]. *)
Fixpoint stripPrefix (p s : string) : option string :=
  match p, s with
  | EmptyString, _ => Some s
  | String a p', String b s' => if Ascii.eqb a b then stripPrefix p' s' else None
  | String _ _, EmptyString => None
  end.

Definition toLowerChar (c : ascii) : ascii :=
  let n := N_of_ascii c in
  if ((65 <=? n) && (n <=? 90))%N then ascii_of_N (n + 32) else c.

(** [s.toLowerCase()] on the letters A to Z. *)
Fixpoint toLowerCase (s : string) : string :=
  match s with
  | EmptyString => EmptyString
  | String c r => String (toLowerChar c) (toLowerCase r)
  end.

(** [s.replace(/\s/g, "")]. *)
Fixpoint removeWhiteSpace (s : string) : string :=
  match s with
  | EmptyString => EmptyString
  | String c r =>
      if isWhiteSpace c then removeWhiteSpace r else String c (removeWhiteSpace r)
  end.

Definition isDigit (c : ascii) : bool :=
  let n := N_of_ascii c in ((48 <=? n) && (n <=? 57))%N.

Definition digitVal (c : ascii) : Z := Z.of_N (N_of_ascii c) - 48.

(** [/^\d+$/.test(s)]. *)
Fixpoint allDigitsFrom (s : string) : bool :=
  match s with
  | EmptyString => true
  | String c r => isDigit c && allDigitsFrom r
  end.

Definition allDigits (s : string) : bool := truthy s && allDigitsFrom s.

(** The longest prefix of decimal digits, read as a number, together
    with how many digits were read and the rest of the string. *)
Fixpoint readDigits (s : string) (acc : Z) (k : nat) : Z * nat * string :=
  match s with
  | String c r =>
      if isDigit c then readDigits r (10 * acc + digitVal c) (S k) else (acc, k, s)
  | EmptyString => (acc, k, s)
  end.

(** The largest finite binary64 value is [2^1024 - 2^971]; an integer
    from [2^1024 - 2^970] on rounds to [Infinity]. *)
Definition overflowsDouble (z : Z) : bool := 2 ^ 1024 - 2 ^ 970 <=? Z.abs z.

(** [parseInt(s, 10)]: [None] is [NaN] or an infinity, i.e. a value
    that [Number.isFinite] rejects.  Leading white space is skipped,
    one sign is accepted, and the digits are read up to the first
    character that is not one. *)
Definition parseInt (s : string) : option Z :=
  let t := trimStart s in
  let '(neg, body) :=
    match t with
    | String "-" r => (true, r)
    | String "+" r => (false, r)
    | _ => (false, t)
    end in
  let '(v, k, _) := readDigits body 0 O in
  match k with
  | O => None
  | S _ => if overflowsDouble v then None else Some (if neg then - v else v)
  end.

(** [String(n)] for an integer number [n] (decimal digits; exact below
    [10^21] in absolute value, the range of every count in use). *)
Definition stringOfInt (n : Z) : string := pretty n.

(** Array [slice(-n)]: the last [n] elements, all of them when the
    array is shorter. *)
Definition sliceLast {A} (n : nat) (l : list A) : list A :=
  drop (length l - n)%nat l.

(** Array [slice(0, n)]. *)
Definition sliceFirst {A} (n : nat) (l : list A) : list A := take n l.

End Js.

(* ================================================================== *)
(** * [Buffer]: the base64 codec of the runtime                        *)
(* ================================================================== *)

Module Buffer.

(** Value of a base64 character; both the standard and the URL-safe
    alphabet are accepted when decoding. *)
Definition unbase64 (c : ascii) : option N :=
  let n := N_of_ascii c in
  if ((65 <=? n) && (n <=? 90))%N then Some (n - 65)%N
  else if ((97 <=? n) && (n <=? 122))%N then Some (n - 71)%N
  else if ((48 <=? n) && (n <=? 57))%N then Some (n + 4)%N
  else if ((n =? 43) || (n =? 45))%N then Some 62%N
  else if ((n =? 47) || (n =? 95))%N then Some 63%N
  else None.

(** The sextets of the input: characters outside the alphabet are
    skipped and the first ['='] stops the decoding. *)
Fixpoint sextets (s : string) : list N :=
  match s with
  | EmptyString => []
  | String c r =>
      if Ascii.eqb c "=" then []
      else match unbase64 c with
           | Some v => v :: sextets r
           | None => sextets r
           end
  end.

Definition byteOfN (n : N) : Byte.byte := byte_of_ascii (ascii_of_N (n mod 256)).

Definition NOfByte (b : Byte.byte) : N := N_of_ascii (ascii_of_byte b).

Fixpoint pack (l : list N) : list Byte.byte :=
  match l with
  | a :: b :: c :: d :: r =>
      byteOfN (a * 4 + b / 16) :: byteOfN ((b mod 16) * 16 + c / 4)
        :: byteOfN ((c mod 4) * 64 + d) :: pack r
  | [a; b; c] => [byteOfN (a * 4 + b / 16); byteOfN ((b mod 16) * 16 + c / 4)]
  | [a; b] => [byteOfN (a * 4 + b / 16)]
  | _ => []
  end%N.

(** [Buffer.from(s, "base64")]. *)
Definition fromBase64 (s : string) : list Byte.byte := pack (sextets s).

Definition base64Char (v : N) : ascii :=
  if (v <? 26)%N then ascii_of_N (v + 65)
  else if (v <? 52)%N then ascii_of_N (v + 71)
  else if (v <? 62)%N then ascii_of_N (v - 4)
  else if (v =? 62)%N then "+"%char else "/"%char.

(** [buf.toString("base64")]. *)
Fixpoint toBase64 (l : list Byte.byte) : string :=
  match l with
  | x :: y :: z :: r =>
      let a := NOfByte x in let b := NOfByte y in let c := NOfByte z in
      String (base64Char (a / 4))
        (String (base64Char ((a mod 4) * 16 + b / 16))
           (String (base64Char ((b mod 16) * 4 + c / 64))
              (String (base64Char (c mod 64)) (toBase64 r))))
  | [x; y] =>
      let a := NOfByte x in let b := NOfByte y in
      String (base64Char (a / 4))
        (String (base64Char ((a mod 4) * 16 + b / 16))
           (String (base64Char ((b mod 16) * 4)) "="))
  | [x] =>
      let a := NOfByte x in
      String (base64Char (a / 4)) (String (base64Char ((a mod 4) * 16)) "==")
  | [] => ""
  end%N.

End Buffer.

(* ================================================================== *)
(** * Utilities: [src/utils.js]                                        *)
(* ================================================================== *)

(** An image as the adapter produces it: [{ base64, mimeType }]. *)
Record ImageResult := mkImage { base64 : string; mimeType : string }.

(** [parseIntOr(value, fallback)]: [value] is the text [String(value)]
    of the argument, [None] when the argument is absent
    ([String(value ?? "")] is then the empty string). *)
Definition parseIntOr (value : option string) (fallback : Z) : Z :=
  match Js.parseInt (default "" value) with
  | Some n => n
  | None => fallback
  end.

(** [clampInt(value, min, max)]; every [Z] is a finite number. *)
Definition clampInt (value lo hi : Z) : Z := Z.max lo (Z.min hi value).

(** [s] cut at its first [';']: what precedes it, and the rest from the
    [';'] on. *)
Fixpoint splitAtSemicolon (s : string) : option (string * string) :=
  match s with
  | EmptyString => None
  | String c r =>
      if Ascii.eqb c ";" then Some (EmptyString, s)
      else match splitAtSemicolon r with
           | Some (a, b) => Some (String c a, b)
           | None => None
           end
  end.

Definition isLineTerminator (c : ascii) : bool :=
  let n := N_of_ascii c in ((n =? 10) || (n =? 13))%N.

Fixpoint hasLineTerminator (s : string) : bool :=
  match s with
  | EmptyString => false
  | String c r => isLineTerminator c || hasLineTerminator r
  end.

(** The match of [/^data:([^;]+);base64,(.+)$/] on [s], as its two
    groups: the text between ["data:"] and the first [';'] must be
    non-empty, [";base64,"] must follow it, and at least one character
    must follow that.  With the [s] flag ([dotAll = true]) the last group
    takes any character; without it the group may hold no line
    terminator. *)
Definition matchDataUrl (dotAll : bool) (s : string) : option (string * string) :=
  match Js.stripPrefix "data:" s with
  | None => None
  | Some rest =>
      match splitAtSemicolon rest with
      | None => None
      | Some (mime, tail) =>
          match mime, Js.stripPrefix ";base64," tail with
          | String _ _, Some (String c p) =>
              if dotAll || negb (hasLineTerminator (String c p))
              then Some (mime, String c p) else None
          | _, _ => None
          end
      end
  end.

(** [parseDataUrl(maybeDataUrl)]. *)
Definition parseDataUrl (maybeDataUrl : option string) : option ImageResult :=
  match matchDataUrl true (default "" maybeDataUrl) with
  | None => None
  | Some (m, b) =>
      Some {| mimeType := if Js.truthy (Js.trim m) then Js.trim m
                          else "application/octet-stream";
              base64 := b |}
  end.

(** [stripDataUrlPrefix(maybeDataUrl)]. *)
Definition stripDataUrlPrefix (maybeDataUrl : string) : string :=
  match parseDataUrl (Some maybeDataUrl) with
  | Some p => base64 p
  | None => maybeDataUrl
  end.

(** [isValidBase64(str)] on a string argument. *)
Definition isValidBase64 (str : string) : bool :=
  if negb (Js.truthy (Js.trim str)) then false
  else
    let decoded := Buffer.fromBase64 str in
    (0 <? length decoded)%nat
    && String.eqb (Buffer.toBase64 decoded) (Js.removeWhiteSpace str).

(** [new HttpError(message, { status, url, body })] against a plain
    [Error]: the only two kinds of exception the adapter throws. *)
Inductive Exn :=
| HttpError (status : Z) (message : string)
| Error (message : string).

(* ================================================================== *)
(** * Data model                                                       *)
(* ================================================================== *)

(** A part of a message content array: [{ type: "text", text }] or
    [{ type: "image_url", image_url: { url } }]; a persisted image part
    also carries [_imageRefKey]. *)
Inductive ContentPart :=
| TextPart (text : string)
| ImageUrlPart (imageRefKey : option string) (url : string).

(** [content: string | Array]. *)
Inductive Content :=
| ContentText (text : string)
| ContentParts (parts : list ContentPart).

Record Message := mkMessage { role : string; content : Content }.

Record Session := mkSession {
  id : string;
  messages : list Message;
  lastImage : option ImageResult;
  createdAt : Z;
  lastUsedAt : Z;
}.

(** [{ path, mimeType }]: a reference to an image file. *)
Record SessionImageRef := mkRef { path : string; refMimeType : option string }.

(** The JSON record of a session file, [sessionToSave]; this is also
    what [JSON.parse] gives back on load. *)
Record SessionFile := mkSessionFile {
  fileId : string;
  fileMessages : list Message;
  messageImageRefs : option (list (string * SessionImageRef));
  lastImageRef : option SessionImageRef;
  fileLastImage : option ImageResult;
  fileCreatedAt : Z;
  fileLastUsedAt : Z;
}.

(** ** Configuration *)

Module DEFAULTS.

Definition SESSION_TTL_MS : Z := 7 * 24 * 60 * 60 * 1000.

Definition SESSION_MAX_HISTORY : nat := 10.

End DEFAULTS.

(** The values read from the environment ([config.imageMode] is already
    trimmed and lower-cased by its getter). *)
Record Config := mkConfig {
  model : string;
  timeoutMs : Z;
  imageMode : string;
  sessionTtlMs : Z;
  sessionPersistEnabled : bool;
  sessionStorageDir : string;
  sessionImagesDir : string;
  defaultSize : string;
  defaultOutput : string;
  defaultOutDir : string;
}.

(** ** Upstream requests and responses *)

Inductive GeminiReqPart :=
| GText (text : string)
| GInlineData (data mime_type : string).

Record GeminiContent := mkGeminiContent { g_role : string; g_parts : list GeminiReqPart }.

Inductive Request :=
| PostImagesGenerations (model prompt size : string) (n : Z)
| PostGenerateContent (model : string) (contents : list GeminiContent) (aspectRatio : string)
| PostChatCompletions (model : string) (msgs : list Message) (image_size : string)
| GetUrl (url : string).

(** The fields of a JSON response that the parsers read.  A field that
    is absent, or that does not have the type the parser tests for, is
    [None]. *)
Record InlineData := mkInline { inl_data : option string; inl_mime : option string }.

Record GeminiPart := mkPart {
  inlineData : option InlineData;      (* part.inlineData, camelCase *)
  inline_data : option InlineData;     (* part.inline_data, snake_case *)
}.

(** [candidate.content.parts] when it is an array, [[]] otherwise. *)
Record Candidate := mkCandidate { parts : list GeminiPart }.

Record ImagesItem := mkItem { b64_json : option string; item_url : option string }.

(** An [image_url] field: absent, a string, or an object with a [url]. *)
Inductive ImageUrlField :=
| IUAbsent
| IUString (s : string)
| IUObject (url : option string).

Record ContentItem := mkContentItem {
  ci_inline_data : option InlineData;
  ci_type : option string;
  ci_image_url : ImageUrlField;
}.

Record MessageImage := mkMessageImage {
  mi_image_url : ImageUrlField;
  mi_url : option string;
  mi_imageUrl : option string;
}.

Record ChoiceMessage := mkChoiceMessage {
  cm_content : option (list ContentItem);   (* [Some] when [content] is an array *)
  cm_images : option (list MessageImage);   (* [Some] when [images] is an array *)
}.

Record Choice := mkChoice { message : option ChoiceMessage }.

Record JsonBody := mkBody {
  data : list ImagesItem;          (* json.data when an array, else [[]] *)
  candidates : list Candidate;     (* json.candidates when an array, else [[]] *)
  choices : list Choice;           (* json.choices when an array, else [[]] *)
}.

Record Response := mkResponse {
  status : Z;
  text : string;                    (* res.text() *)
  json : option JsonBody;           (* res.json(); [None] when it rejects *)
  contentType : option string;      (* res.headers.get("content-type") *)
  bytes : list Byte.byte;           (* res.arrayBuffer() *)
}.

(** [res.ok]. *)
Definition ok (r : Response) : bool := (200 <=? status r) && (status r <=? 299).

(** What [fetch] under [fetchWithTimeout] does: it is aborted by the
    timer, it fails at network level, or it resolves to a response. *)
Inductive FetchResult :=
| Aborted
| NetworkFailure (message : string)
| Responded (r : Response).

(* ================================================================== *)
(** * The process state and the monad of [async] functions             *)
(* ================================================================== *)

Record State := mkState {
  sessions : gmap string Session;            (* the module-level [Map] *)
  sessionFiles : gmap string SessionFile;    (* path of a session file to its record *)
  imageFiles : gmap string (list Byte.byte); (* path of an image file to its bytes *)
  clock : Z;                                 (* [Date.now()] *)
  calls : list Request;                      (* upstream calls so far, oldest first *)
  issued : nat;                              (* draws of [crypto.randomBytes] so far *)
}.

(** The world outside the process: the endpoint (its answer may depend
    on the calls made before), the time each call takes, the random
    source (the k-th draw as [crypto.randomBytes(8).toString("hex")]),
    the paths that can be written, the directories that [fs.mkdir] with
    [recursive] makes or finds, the message of the error that a failed
    operation on a path throws, and the batch id that the local date at
    a given time and the k-th draw give. *)
Record Env := mkEnv {
  config : Config;
  upstream : list Request -> Request -> FetchResult;
  latency : list Request -> Request -> N;
  randomHex : nat -> string;
  writable : string -> bool;
  picturesDir : string;                      (* [getDefaultPicturesDir()] *)
  tmpDir : string;                           (* [os.tmpdir()] *)
  mkdirOk : string -> bool;
  fsError : string -> string;
  batchId : Z -> nat -> string;              (* [generateBatchId()] *)
}.

Inductive Outcome (A : Type) :=
| Returns (a : A)
| Throws (e : Exn).

Arguments Returns {A} a.

Arguments Throws {A} e.

Definition M (A : Type) : Type := State -> Outcome A * State.

Definition ret {A} (a : A) : M A := fun s => (Returns a, s).

Definition throw {A} (e : Exn) : M A := fun s => (Throws e, s).

Definition bind {A B} (c : M A) (k : A -> M B) : M B :=
  fun s => match c s with
           | (Returns a, s') => k a s'
           | (Throws e, s') => (Throws e, s')
           end.

(** [try { c } catch (err) { h(err) }]. *)
Definition tryCatch {A} (c : M A) (h : Exn -> M A) : M A :=
  fun s => match c s with
           | (Returns a, s') => (Returns a, s')
           | (Throws e, s') => h e s'
           end.

Definition get : M State := fun s => (Returns s, s).

Definition modify (f : State -> State) : M unit := fun s => (Returns tt, f s).

Declare Scope js_scope.

Delimit Scope js_scope with js.

Notation "x <- c ;; k" := (bind c (fun x => k))
  (at level 100, c at next level, right associativity) : js_scope.

Notation "c ;;; k" := (bind c (fun _ => k))
  (at level 100, right associativity) : js_scope.

Open Scope js_scope.

(** [for (const x of l) { ...push... }] with an effectful body: the
    images pushed by each element, in order. *)
Fixpoint forEachPush {A B} (f : A -> M (list B)) (l : list A) : M (list B) :=
  match l with
  | [] => ret []
  | x :: r => ys <- f x ;; zs <- forEachPush f r ;; ret (ys ++ zs)
  end.

Definition set_calls (c : list Request) (s : State) : State :=
  mkState (sessions s) (sessionFiles s) (imageFiles s) (clock s) c (issued s).

Definition set_clock (t : Z) (s : State) : State :=
  mkState (sessions s) (sessionFiles s) (imageFiles s) t (calls s) (issued s).

Definition set_sessions (m : gmap string Session) (s : State) : State :=
  mkState m (sessionFiles s) (imageFiles s) (clock s) (calls s) (issued s).

Definition set_sessionFiles (m : gmap string SessionFile) (s : State) : State :=
  mkState (sessions s) m (imageFiles s) (clock s) (calls s) (issued s).

Definition set_imageFiles (m : gmap string (list Byte.byte)) (s : State) : State :=
  mkState (sessions s) (sessionFiles s) m (clock s) (calls s) (issued s).

Definition set_issued (k : nat) (s : State) : State :=
  mkState (sessions s) (sessionFiles s) (imageFiles s) (clock s) (calls s) k.

(* ================================================================== *)
(** * API client: [src/api-client.js]                                  *)
(* ================================================================== *)

Record GenerateParams := mkParams {
  p_model : string;
  p_prompt : string;
  p_size : string;
  p_n : Z;
  p_timeoutMs : Z;
  p_historyMessages : list Message;
  p_inputImage : option ImageResult;
}.

(** ** [sizeToAspectRatio] *)

(** [parseInt(digits, 10)] as a binary64 number (round to nearest). *)
Definition toNumber (z : Z) : float := SF2Prim (binary_normalize prec emax z 0 false).

(** The match of [/^(\d+)x(\d+)$/i]: the two groups, parsed. *)
Definition matchSize (size : string) : option (Z * Z) :=
  let '(w, kw, rest) := Js.readDigits size 0 O in
  match kw, rest with
  | S _, String c rest' =>
      if Ascii.eqb c "x" || Ascii.eqb c "X" then
        let '(h, kh, rest'') := Js.readDigits rest' 0 O in
        match kh, rest'' with
        | S _, EmptyString => Some (w, h)
        | _, _ => None
        end
      else None
  | _, _ => None
  end.

Definition ratioMap : list (float * string) :=
  [ (1%float, "1:1");
    ((16 / 9)%float, "16:9");
    ((9 / 16)%float, "9:16");
    ((4 / 3)%float, "4:3");
    ((3 / 4)%float, "3:4");
    ((3 / 2)%float, "3:2");
    ((2 / 3)%float, "2:3") ].

(** The binary64 number written [0.1]. *)
Definition tolerance : float := 0x1.999999999999ap-4%float.

(** [Math.abs(ratio - r) < 0.1]. *)
Definition withinTolerance (ratio r : float) : bool :=
  PrimFloat.ltb (PrimFloat.abs (PrimFloat.sub ratio r)) tolerance.

(** The [for ... of ratioMap] loop with its early [return]. *)
Fixpoint firstWithin (ratio : float) (table : list (float * string)) : string :=
  match table with
  | [] => "1:1"
  | (r, value) :: rest =>
      if withinTolerance ratio r then value else firstWithin ratio rest
  end.

Definition sizeToAspectRatio (size : string) : string :=
  if negb (Js.truthy size) then "1:1"
  else match matchSize size with
       | None => "1:1"
       | Some (w, h) => firstWithin (PrimFloat.div (toNumber w) (toNumber h)) ratioMap
       end.

Section Adapter.

Variable env : Env.

(** ** Transport (from the utilities) *)

Definition fetchWithTimeout (req : Request) (timeoutMs : Z) : M Response :=
  fun s =>
    let s' := set_clock (clock s + Z.of_N (latency env (calls s) req))
                (set_calls (calls s ++ [req]) s) in
    match upstream env (calls s) req with
    | Aborted =>
        (Throws (Error ("请求超时（" +:+ pretty ((timeoutMs + 500) / 1000)
                         +:+ "秒），请检查网络或增加 OPENAI_TIMEOUT_MS")), s')
    | NetworkFailure m => (Throws (Error ("网络请求失败: " +:+ m)), s')
    | Responded r => (Returns r, s')
    end.

(** [await res.json()]. *)
Definition resJson (r : Response) : M JsonBody :=
  match json r with
  | Some j => ret j
  | None => throw (Error "SyntaxError: Unexpected token in JSON")
  end.

(** [header.split(";")[0]]. *)
Fixpoint beforeSemicolon (s : string) : string :=
  match s with
  | EmptyString => EmptyString
  | String c r => if Ascii.eqb c ";" then EmptyString else String c (beforeSemicolon r)
  end.

Definition orDefault (s dflt : string) : string := if Js.truthy s then s else dflt.

Definition fetchUrlAsBase64 (url : string) (timeoutMs : Z) : M ImageResult :=
  res <- fetchWithTimeout (GetUrl url) timeoutMs ;;
  if negb (ok res) then
    throw (Error ("拉取图片失败: HTTP " +:+ pretty (status res) +:+ " " +:+ text res))
  else
    let mimeTypeHeader := default "image/png" (contentType res) in
    ret {| base64 := Buffer.toBase64 (bytes res);
           mimeType := orDefault (Js.trim (beforeSemicolon mimeTypeHeader)) "image/png" |}.

(** [typeof v === "string" && v.trim()]. *)
Definition nonBlank (v : option string) : option string :=
  match v with
  | Some s => if Js.truthy (Js.trim s) then Some s else None
  | None => None
  end.

Definition httpError (r : Response) (hint : string) : Exn :=
  HttpError (status r)
    ("图片生成失败: HTTP " +:+ pretty (status r) +:+ hint +:+ " " +:+ text r).

(** ** Images-generation strategy *)

Definition imagesItem (timeoutMs : Z) (item : ImagesItem) : M (list ImageResult) :=
  match nonBlank (b64_json item) with
  | Some b =>
      ret [ {| base64 := stripDataUrlPrefix b;
               mimeType := match parseDataUrl (Some b) with
                           | Some p => mimeType p
                           | None => "image/png"
                           end |} ]
  | None =>
      match nonBlank (item_url item) with
      | Some u => img <- fetchUrlAsBase64 u timeoutMs ;; ret [img]
      | None => ret []
      end
  end.

Definition generateImagesViaImagesApi (params : GenerateParams) : M (list ImageResult) :=
  res <- fetchWithTimeout
           (PostImagesGenerations (p_model params) (p_prompt params) (p_size params)
              (p_n params))
           (p_timeoutMs params) ;;
  if negb (ok res) then
    throw (httpError res (if status res =? 401
                          then "（看起来需要 API Key，请设置 OPENAI_API_KEY）" else ""))
  else
    j <- resJson res ;;
    images <- forEachPush (imagesItem (p_timeoutMs params)) (data j) ;;
    match images with
    | [] => throw (Error "接口未返回可用的图片数据")
    | _ => ret images
    end.

(** ** Response parsers *)

(** [x?.data] truthy gives [{ base64: x.data, mimeType: x.mimeType || "image/png" }]. *)
Definition inlineImage (x : option InlineData) : option ImageResult :=
  match x with
  | Some d =>
      match inl_data d with
      | Some b =>
          if Js.truthy b
          then Some {| base64 := b; mimeType := orDefault (default "" (inl_mime d)) "image/png" |}
          else None
      | None => None
      end
  | None => None
  end.

Definition geminiPart (part : GeminiPart) : list ImageResult :=
  match inlineImage (inlineData part) with
  | Some img => [img]
  | None =>
      match inlineImage (inline_data part) with
      | Some img => [img]
      | None => []
      end
  end.

Definition parseGeminiResponse (j : JsonBody) : list ImageResult :=
  flat_map (fun c => flat_map geminiPart (parts c)) (candidates j).

(** [x?.url] of an [image_url] field. *)
Definition urlOf (f : ImageUrlField) : option string :=
  match f with
  | IUObject u => u
  | _ => None
  end.

(** A data URL is parsed, an [http] URL is fetched, anything else is
    dropped. *)
Definition imageFromUrl (timeoutMs : Z) (u : string) : M (list ImageResult) :=
  match parseDataUrl (Some u) with
  | Some p => ret [ {| base64 := base64 p; mimeType := mimeType p |} ]
  | None =>
      if Js.startsWith "http" u
      then img <- fetchUrlAsBase64 u timeoutMs ;; ret [img]
      else ret []
  end.

Definition contentItem (timeoutMs : Z) (item : ContentItem) : M (list ImageResult) :=
  match inlineImage (ci_inline_data item) with
  | Some img => ret [img]
  | None =>
      match ci_type item, urlOf (ci_image_url item) with
      | Some ty, Some u =>
          if String.eqb ty "image_url" && Js.truthy u
          then imageFromUrl timeoutMs u
          else ret []
      | _, _ => ret []
      end
  end.

(** [img?.image_url?.url ?? img?.url ?? img?.imageUrl ?? img?.image_url ?? ""]
    when the result is a string; [None] when it is an object. *)
Definition messageImageUrl (img : MessageImage) : option string :=
  match urlOf (mi_image_url img), mi_url img, mi_imageUrl img, mi_image_url img with
  | Some u, _, _, _ => Some u
  | None, Some u, _, _ => Some u
  | None, None, Some u, _ => Some u
  | None, None, None, IUString u => Some u
  | None, None, None, IUObject _ => None
  | None, None, None, IUAbsent => Some ""
  end.

Definition messageImage (timeoutMs : Z) (img : MessageImage) : M (list ImageResult) :=
  match nonBlank (messageImageUrl img) with
  | Some u => imageFromUrl timeoutMs u
  | None => ret []
  end.

Definition choiceImages (timeoutMs : Z) (c : Choice) : M (list ImageResult) :=
  match message c with
  | None => ret []
  | Some m =>
      fromContent <- forEachPush (contentItem timeoutMs) (default [] (cm_content m)) ;;
      fromImages <- forEachPush (messageImage timeoutMs) (default [] (cm_images m)) ;;
      ret (fromContent ++ fromImages)
  end.

Definition parseOpenAICompatibleResponse (j : JsonBody) (timeoutMs : Z)
  : M (list ImageResult) :=
  rest <- forEachPush (choiceImages timeoutMs) (choices j) ;;
  ret (parseGeminiResponse j ++ rest).

(** ** Native-generation strategy *)

Definition historyPart (item : ContentPart) : GeminiReqPart :=
  match item with
  | TextPart t => GText t
  | ImageUrlPart _ u =>
      match (if Js.truthy u then parseDataUrl (Some u) else None) with
      | Some p => GInlineData (base64 p) (mimeType p)
      | None => GText ""
      end
  end.

Definition historyContent (msg : Message) : GeminiContent :=
  {| g_role := if String.eqb (role msg) "assistant" then "model" else "user";
     g_parts := match content msg with
                | ContentParts l => map historyPart l
                | ContentText t => [GText t]
                end |}.

(** [inputImage?.base64] truthy. *)
Definition usableInput (inputImage : option ImageResult) : option ImageResult :=
  match inputImage with
  | Some img => if Js.truthy (base64 img) then Some img else None
  | None => None
  end.

Definition geminiContents (params : GenerateParams) : list GeminiContent :=
  map historyContent (p_historyMessages params)
  ++ [ {| g_role := "user";
          g_parts := GText (p_prompt params)
                     :: match usableInput (p_inputImage params) with
                        | Some img => [GInlineData (base64 img) (orDefault (mimeType img) "image/png")]
                        | None => []
                        end |} ].

Definition generateImagesViaGeminiNative (params : GenerateParams) : M (list ImageResult) :=
  res <- fetchWithTimeout
           (PostGenerateContent (p_model params) (geminiContents params)
              (sizeToAspectRatio (p_size params)))
           (p_timeoutMs params) ;;
  if negb (ok res) then
    throw (httpError res (if (status res =? 401) || (status res =? 403)
                          then "（API Key 无效或无权限，请检查 GEMINI_API_KEY）" else ""))
  else
    j <- resJson res ;;
    match parseGeminiResponse j with
    | [] => throw (Error "Gemini 原生 API 未返回图片数据。请确保使用支持图片生成的模型（如 gemini-2.5-flash-image 或 gemini-3-pro-image-preview）")
    | images => ret images
    end.

(** ** Chat-completions strategy *)

Definition dataUrl (mime b64 : string) : string :=
  "data:" +:+ mime +:+ ";base64," +:+ b64.

Definition currentUserContent (params : GenerateParams) : Content :=
  match usableInput (p_inputImage params) with
  | Some img =>
      ContentParts
        [ TextPart (p_prompt params);
          ImageUrlPart None (dataUrl (orDefault (mimeType img) "image/png") (base64 img)) ]
  | None => ContentText (p_prompt params)
  end.

Definition generateImagesViaChatCompletions (params : GenerateParams) : M (list ImageResult) :=
  res <- fetchWithTimeout
           (PostChatCompletions (p_model params)
              (p_historyMessages params ++ [mkMessage "user" (currentUserContent params)])
              (p_size params))
           (p_timeoutMs params) ;;
  if negb (ok res) then
    throw (httpError res (if status res =? 401
                          then "（看起来需要 API Key，请设置 OPENAI_API_KEY）" else ""))
  else
    j <- resJson res ;;
    images <- parseOpenAICompatibleResponse j (p_timeoutMs params) ;;
    match images with
    | [] => throw (Error "接口未返回可用的图片数据。支持的格式：candidates[].content.parts[].inline_data, choices[].message.content[], choices[].message.images[]")
    | _ => ret images
    end.

(** ** The unified entry point *)

(** The [for (let i = 0; i < count; i += 1)] loop of [generateMultiple]:
    [iters] is the number of iterations left. *)
Fixpoint generateLoop (generator : M (list ImageResult)) (count : Z) (iters : nat)
    (out : list ImageResult) : M (list ImageResult) :=
  match iters with
  | O => ret out
  | S k =>
      batch <- generator ;;
      let out' := out ++ batch in
      if count <=? Z.of_nat (length out') then ret out'
      else generateLoop generator count k out'
  end.

Definition generateMultiple (generator : M (list ImageResult)) (count : Z)
  : M (list ImageResult) :=
  out <- generateLoop generator count (Z.to_nat count) [] ;;
  ret (Js.sliceFirst (Z.to_nat count) out).

(** [err instanceof HttpError && (err.status === 404 || err.status === 400)]. *)
Definition fallbackEligible (err : Exn) : bool :=
  match err with
  | HttpError st _ => (st =? 404) || (st =? 400)
  | Error _ => false
  end.

Definition generateWithFallback (params : GenerateParams) (count : Z)
  : M (list ImageResult) :=
  tryCatch (generateImagesViaImagesApi params)
    (fun err =>
       if fallbackEligible err then
         tryCatch (generateMultiple (generateImagesViaGeminiNative params) count)
           (fun _ => generateMultiple (generateImagesViaChatCompletions params) count)
       else throw err).

(** [clampInt(parseIntOr(params?.n, 1), 1, 4)]. *)
Definition effectiveCount (params : GenerateParams) : Z :=
  clampInt (parseIntOr (Some (Js.stringOfInt (p_n params))) 1) 1 4.

Definition generateImages (params : GenerateParams) : M (list ImageResult) :=
  let mode := imageMode (config env) in
  let count := effectiveCount params in
  if String.eqb mode "gemini" then
    generateMultiple (generateImagesViaGeminiNative params) count
  else if String.eqb mode "openai" || String.eqb mode "images" then
    generateImagesViaImagesApi params
  else if String.eqb mode "auto" then
    generateWithFallback params count
  else
    generateMultiple (generateImagesViaChatCompletions params) count.

End Adapter.

(* ================================================================== *)
(** * Session management, with persistence                            *)
(* ================================================================== *)

(** The cap on the history: [DEFAULTS.SESSION_MAX_HISTORY * 2]. *)
Definition historyCap : nat := (DEFAULTS.SESSION_MAX_HISTORY * 2)%nat.

(** [path.join(dir, name)] for a directory in normal form and a name
    that is one path segment (it holds no slash).  For other arguments
    [path.join] also normalises its result (it drops [.] segments and
    doubled slashes and resolves [..] segments), which is not
    modelled. *)
Definition pathJoin (dir name : string) : string := dir +:+ "/" +:+ name.

(** [isNewSession(sessionId, session)]. *)
Definition isNewSession (sessionId : option string) (session : Session) : bool :=
  match sessionId with
  | Some sid => negb (Js.truthy sid) || negb (String.eqb sid (id session))
  | None => true
  end.

(** [buildUserContent(prompt, inputImage)]. *)
Definition buildUserContent (prompt : string) (inputImage : option ImageResult) : Content :=
  match inputImage with
  | Some img =>
      ContentParts [ TextPart prompt;
                     ImageUrlPart None ("data:" +:+ mimeType img +:+ ";base64," +:+ base64 img) ]
  | None => ContentText prompt
  end.

(** The assistant message that records a generation. *)
Definition assistantMessage (images : list ImageResult) (firstImage : ImageResult) : Message :=
  mkMessage "assistant"
    (ContentParts
       [ TextPart ("[已生成 " +:+ pretty (length images) +:+ " 张图片]");
         ImageUrlPart None
           ("data:" +:+ mimeType firstImage +:+ ";base64," +:+ base64 firstImage) ]).

(** The messages that [updateSession] pushes. *)
Definition pushed (userContent : Content) (images : list ImageResult) : list Message :=
  mkMessage "user" userContent
  :: match images with
     | firstImage :: _ => [assistantMessage images firstImage]
     | [] => []
     end.

(** The in-memory part of [updateSession]: what the session object
    holds once the history is trimmed, at time [now]. *)
Definition updateSessionObject (now : Z) (session : Session) (userContent : Content)
    (images : list ImageResult) : Session :=
  let msgs := messages session ++ pushed userContent images in
  {| id := id session;
     messages := if (historyCap <? length msgs)%nat then Js.sliceLast historyCap msgs else msgs;
     lastImage := match images with
                  | firstImage :: _ => Some firstImage
                  | [] => lastImage session
                  end;
     createdAt := createdAt session;
     lastUsedAt := now |}.

Section Store.

Variable env : Env.

Definition getSessionFilePath (sessionId : string) : string :=
  pathJoin (sessionStorageDir (config env)) (sessionId +:+ ".json").

Definition getSessionImagePath (sessionId : string) : string :=
  pathJoin (sessionImagesDir (config env)) (sessionId +:+ "_last.png").

Definition getMessageImagePath (sessionId refKey : string) : string :=
  pathJoin (sessionImagesDir (config env)) (sessionId +:+ "_msg_" +:+ refKey +:+ ".png").

(** ** Image files *)

(** [saveImageToFile(sessionId, image)] on the image directory. *)
Definition saveImageToFile (sessionId : string) (image : option ImageResult)
    (files : gmap string (list Byte.byte))
  : option SessionImageRef * gmap string (list Byte.byte) :=
  match image with
  | Some img =>
      if negb (sessionPersistEnabled (config env)) then (None, files)
      else
        let imagePath := getSessionImagePath sessionId in
        if writable env imagePath
        then (Some (mkRef imagePath (Some (mimeType img))),
              <[imagePath := Buffer.fromBase64 (base64 img)]> files)
        else (None, files)
  | None => (None, files)
  end.

(** [loadImageFromFile(imageRef)]. *)
Definition loadImageFromFile (imageRef : SessionImageRef)
    (files : gmap string (list Byte.byte)) : option ImageResult :=
  if negb (Js.truthy (path imageRef)) then None
  else match files !! path imageRef with
       | Some buffer =>
           Some {| base64 := Buffer.toBase64 buffer;
                   mimeType := orDefault (default "" (refMimeType imageRef)) "image/png" |}
       | None => None
       end.

(** ** Message images *)

(** The state of the [map] callbacks of [extractMessageImages]:
    [imageIndex], [imageRefs] (in insertion order) and the image
    directory. *)
Record Extract := mkExtract {
  imageIndex : nat;
  imageRefs : list (string * SessionImageRef);
  written : gmap string (list Byte.byte);
}.

Definition extractPart (sessionId : string) (part : ContentPart) (st : Extract)
  : ContentPart * Extract :=
  match part with
  | ImageUrlPart _ u =>
      match (if Js.startsWith "data:" u then matchDataUrl false u else None) with
      | Some (mime, b64) =>
          let refKey := "img_" +:+ pretty (imageIndex st) in
          let imagePath := getMessageImagePath sessionId refKey in
          if writable env imagePath then
            (ImageUrlPart (Some refKey) "[image stored separately]",
             mkExtract (S (imageIndex st))
               (imageRefs st ++ [(refKey, mkRef imagePath (Some mime))])
               (<[imagePath := Buffer.fromBase64 b64]> (written st)))
          else (part, mkExtract (S (imageIndex st)) (imageRefs st) (written st))
      | None => (part, st)
      end
  | TextPart _ => (part, st)
  end.

Fixpoint extractParts (sessionId : string) (l : list ContentPart) (st : Extract)
  : list ContentPart * Extract :=
  match l with
  | [] => ([], st)
  | p :: r =>
      let '(p', st1) := extractPart sessionId p st in
      let '(r', st2) := extractParts sessionId r st1 in
      (p' :: r', st2)
  end.

Fixpoint extractMessages (sessionId : string) (l : list Message) (st : Extract)
  : list Message * Extract :=
  match l with
  | [] => ([], st)
  | msg :: r =>
      let '(msg', st1) :=
        match content msg with
        | ContentParts ps =>
            let '(ps', st1) := extractParts sessionId ps st in
            (mkMessage (role msg) (ContentParts ps'), st1)
        | ContentText _ => (msg, st)
        end in
      let '(r', st2) := extractMessages sessionId r st1 in
      (msg' :: r', st2)
  end.

(** [extractMessageImages(sessionId, messages)]. *)
Definition extractMessageImages (sessionId : string) (msgs : list Message)
    (files : gmap string (list Byte.byte)) : list Message * Extract :=
  extractMessages sessionId msgs (mkExtract O [] files).

(** [refs[key]]. *)
Fixpoint lookupRef (refs : list (string * SessionImageRef)) (key : string)
  : option SessionImageRef :=
  match refs with
  | [] => None
  | (k, r) :: rest => if String.eqb k key then Some r else lookupRef rest key
  end.

Definition restorePart (refs : list (string * SessionImageRef))
    (files : gmap string (list Byte.byte)) (part : ContentPart) : ContentPart :=
  match part with
  | ImageUrlPart (Some key) u =>
      if Js.truthy key then
        match lookupRef refs key with
        | Some r =>
            match loadImageFromFile r files with
            | Some image =>
                ImageUrlPart None
                  ("data:" +:+ mimeType image +:+ ";base64," +:+ base64 image)
            | None => ImageUrlPart None u
            end
        | None => ImageUrlPart None u
        end
      else part
  | _ => part
  end.

(** [restoreMessageImages(sessionData)], on the message list. *)
Definition restoreMessageImages (refs : list (string * SessionImageRef))
    (files : gmap string (list Byte.byte)) (msgs : list Message) : list Message :=
  map (fun msg =>
         match content msg with
         | ContentParts ps => mkMessage (role msg) (ContentParts (map (restorePart refs files) ps))
         | ContentText _ => msg
         end) msgs.

(** ** Session files *)

(** [loadSessionFromFile(sessionId)]: [None] also when the file does
    not parse ([JSON.parse] throws and the error is swallowed). *)
Definition loadSessionFromFile (sessionId : string) (s : State) : option Session :=
  if negb (sessionPersistEnabled (config env)) then None
  else match sessionFiles s !! getSessionFilePath sessionId with
       | Some sessionData =>
           Some {| id := fileId sessionData;
                   messages :=
                     match messageImageRefs sessionData with
                     | Some refs =>
                         restoreMessageImages refs (imageFiles s) (fileMessages sessionData)
                     | None => fileMessages sessionData
                     end;
                   lastImage :=
                     match lastImageRef sessionData with
                     | Some r => loadImageFromFile r (imageFiles s)
                     | None => fileLastImage sessionData
                     end;
                   createdAt := fileCreatedAt sessionData;
                   lastUsedAt := fileLastUsedAt sessionData |}
       | None => None
       end.

(** [saveSessionToFile(session)].  The image files are written before
    the record; a failure to write the record leaves them in place. *)
Definition saveSessionToFile (session : Session) (s : State) : State :=
  if negb (sessionPersistEnabled (config env)) then s
  else
    let filePath := getSessionFilePath (id session) in
    let msgs := Js.sliceLast historyCap (messages session) in
    let '(processedMessages, ex) := extractMessageImages (id session) msgs (imageFiles s) in
    let '(ref, files) := saveImageToFile (id session) (lastImage session) (written ex) in
    let sessionToSave :=
      {| fileId := id session;
         fileMessages := processedMessages;
         messageImageRefs := match imageRefs ex with [] => None | refs => Some refs end;
         lastImageRef := ref;
         fileLastImage := None;
         fileCreatedAt := createdAt session;
         fileLastUsedAt := lastUsedAt session |} in
    if writable env filePath
    then set_sessionFiles (<[filePath := sessionToSave]> (sessionFiles s))
           (set_imageFiles files s)
    else set_imageFiles files s.

(** [deleteSessionFile(sessionId)]: the record, the last image and
    every image file whose name starts with the session id. *)
Definition deleteSessionFile (sessionId : string) (s : State) : State :=
  if negb (sessionPersistEnabled (config env)) then s
  else
    set_sessionFiles (delete (getSessionFilePath sessionId) (sessionFiles s))
      (set_imageFiles
         (filter (fun kv => Js.startsWith
                              (pathJoin (sessionImagesDir (config env)) (sessionId +:+ "_"))
                              kv.1 = false)
            (imageFiles s))
         s).

(** ** The session API *)

(** [generateSessionId()]. *)
Definition generateSessionId : M string :=
  fun s => (Returns (randomHex env (issued s)), set_issued (S (issued s)) s).

Definition touch (now : Z) (session : Session) : Session :=
  {| id := id session; messages := messages session; lastImage := lastImage session;
     createdAt := createdAt session; lastUsedAt := now |}.

(** [getOrCreateSession(sessionId)].  The session object returned is
    the one the [Map] holds; the result pairs it with the key under
    which it is held, so that a later [updateSession] changes that very
    object. *)
Definition createSession : M (string * Session) :=
  newId <- generateSessionId ;;
  s <- get ;;
  let newSession := {| id := newId; messages := []; lastImage := None;
                       createdAt := clock s; lastUsedAt := clock s |} in
  modify (fun s => saveSessionToFile newSession
                     (set_sessions (<[newId := newSession]> (sessions s)) s)) ;;;
  ret (newId, newSession).

(** Store [session], refreshed, under [key] and return it. *)
Definition refresh (key : string) (session : Session) : M (string * Session) :=
  s <- get ;;
  let session' := touch (clock s) session in
  modify (set_sessions (<[key := session']> (sessions s))) ;;;
  ret (key, session').

Definition getOrCreateSession (sessionId : option string) : M (string * Session) :=
  s <- get ;;
  match sessionId with
  | Some sid =>
      if negb (Js.truthy sid) then createSession
      else
        match sessions s !! sid with
        | Some session => refresh sid session
        | None =>
            match loadSessionFromFile sid s with
            | Some fileSession =>
                if clock s - lastUsedAt fileSession <=? sessionTtlMs (config env)
                then refresh sid fileSession
                else modify (deleteSessionFile sid) ;;; createSession
            | None => createSession
            end
        end
  | None => createSession
  end.

(** The session object held under [key]. *)
Definition session_at (key : string) (s : State) : option Session := sessions s !! key.

(** [updateSession(session, userContent, images)] on the session
    object held under [key]. *)
Definition updateSession (key : string) (userContent : Content)
    (images : list ImageResult) : M unit :=
  modify (fun s =>
            match session_at key s with
            | Some session =>
                let session' := updateSessionObject (clock s) session userContent images in
                saveSessionToFile session'
                  (set_sessions (<[key := session']> (sessions s)) s)
            | None => s
            end).

End Store.

(* ================================================================== *)
(** * Session management, the earlier module: [src/session.js]         *)
(* ================================================================== *)

Module Legacy.

(** A data URL that keeps the first 100 characters of the payload:
    [base64.slice(0, 100)] followed by ["..."]. *)
Definition abridgedUrl (img : ImageResult) : string :=
  "data:" +:+ mimeType img +:+ ";base64," +:+ String.substring 0 100 (base64 img) +:+ "...".

(** [buildUserContent(prompt, inputImage)]. *)
Definition buildUserContent (prompt : string) (inputImage : option ImageResult) : Content :=
  match inputImage with
  | Some img => ContentParts [ TextPart prompt; ImageUrlPart None (abridgedUrl img) ]
  | None => ContentText prompt
  end.

(** The messages that [updateSession] pushes. *)
Definition pushed (userContent : Content) (images : list ImageResult) : list Message :=
  mkMessage "user" userContent
  :: match images with
     | firstImage :: _ =>
         [ mkMessage "assistant"
             (ContentParts
                [ TextPart ("[已生成 " +:+ pretty (length images) +:+ " 张图片]");
                  ImageUrlPart None (abridgedUrl firstImage) ]) ]
     | [] => []
     end.

(** [updateSession(session, userContent, images)] on the session
    object, at time [now]. *)
Definition updateSession (now : Z) (session : Session) (userContent : Content)
    (images : list ImageResult) : Session :=
  {| id := id session;
     messages := messages session ++ pushed userContent images;
     lastImage := match images with
                  | firstImage :: _ => Some firstImage
                  | [] => lastImage session
                  end;
     createdAt := createdAt session;
     lastUsedAt := now |}.

End Legacy.

(* ================================================================== *)
(** * Image files of the answer: [src/image-handler.js]                *)
(* ================================================================== *)

(** [extFromMime(mimeType)], from the utilities.  The table is an
    object literal, so besides
    its five keys it answers the two lower-case names that every
    object inherits, [constructor] and [__proto__]; their values,
    written into the file name, are the texts below. *)
Definition extFromMime (mimeType : string) : string :=
  let mime := Js.toLowerCase mimeType in
  if String.eqb mime "image/jpeg" then "jpg"
  else if String.eqb mime "image/jpg" then "jpg"
  else if String.eqb mime "image/webp" then "webp"
  else if String.eqb mime "image/gif" then "gif"
  else if String.eqb mime "image/png" then "png"
  else if String.eqb mime "constructor" then "function Object() { [native code] }"
  else if String.eqb mime "__proto__" then "[object Object]"
  else "png".

(** [toDisplayPath(filePath)]: every backslash becomes a slash. *)
Fixpoint toDisplayPath (filePath : string) : string :=
  match filePath with
  | EmptyString => EmptyString
  | String c r => String (if Ascii.eqb c "\" then "/"%char else c) (toDisplayPath r)
  end.

(** The double quote and the line feed, as strings. *)
Definition dquote : string := String (ascii_of_nat 34) EmptyString.

Definition lineFeed : string := String (ascii_of_nat 10) EmptyString.

(** [{ saved, errors, finalOutDir, warningMsg }]. *)
Record SaveResult := mkSaveResult {
  saved : list string;
  errors : list string;
  finalOutDir : string;
  warningMsg : string;
}.

Section Saving.

Variable env : Env.

(** [generateBatchId()]. *)
Definition generateBatchId : M string :=
  fun s => (Returns (batchId env (clock s) (issued s)), set_issued (S (issued s)) s).

(** [ensureWritableDir(outDir)]: the directory and the warning.  When
    [outDir] cannot be made or written the temporary directory is taken;
    its [mkdir] is outside the [try], so its failure is thrown. *)
Definition ensureWritableDir (outDir : string) : M (string * string) :=
  if mkdirOk env outDir && writable env outDir then ret (outDir, "")
  else
    let warning := "⚠️ 原定目录 " +:+ dquote +:+ toDisplayPath outDir +:+ dquote
                   +:+ " 无法写入，已自动保存到临时目录。" +:+ lineFeed in
    if mkdirOk env (tmpDir env) then ret (tmpDir env, warning)
    else throw (Error (fsError env (tmpDir env))).

(** One turn of the loop of [saveImages], on the image of index [i]:
    [acc] holds [saved] and [errors]. *)
Definition saveImage (dir batch : string) (i : nat) (img : ImageResult)
    (acc : list string * list string) : M (list string * list string) :=
  let ext := extFromMime (mimeType img) in
  let filePath := pathJoin dir ("image-" +:+ batch +:+ "-" +:+ pretty (S i) +:+ "." +:+ ext) in
  if negb (Js.truthy (base64 img))
  then ret (acc.1, acc.2 ++ ["图片 " +:+ pretty (S i) +:+ ": 无效的图片数据"])
  else
    let buffer := Buffer.fromBase64 (base64 img) in
    if (length buffer =? 0)%nat
    then ret (acc.1, acc.2 ++ ["图片 " +:+ pretty (S i) +:+ ": 图片数据为空"])
    else if writable env filePath
    then modify (fun s => set_imageFiles (<[filePath := buffer]> (imageFiles s)) s) ;;;
         ret (acc.1 ++ [filePath], acc.2)
    else ret (acc.1, acc.2 ++ ["图片 " +:+ pretty (S i) +:+ ": 保存失败 - "
                                 +:+ fsError env filePath]).

Fixpoint saveLoop (dir batch : string) (i : nat) (images : list ImageResult)
    (acc : list string * list string) : M (list string * list string) :=
  match images with
  | [] => ret acc
  | img :: rest =>
      acc' <- saveImage dir batch i img acc ;;
      saveLoop dir batch (S i) rest acc'
  end.

(** [saveImages(images, outDir)]. *)
Definition saveImages (images : list ImageResult) (outDir : string) : M SaveResult :=
  dw <- ensureWritableDir outDir ;;
  batch <- generateBatchId ;;
  acc <- saveLoop dw.1 batch O images ([], []) ;;
  ret {| saved := acc.1; errors := acc.2; finalOutDir := dw.1; warningMsg := dw.2 |}.

End Saving.

(* ================================================================== *)
(** * The MCP server                                                   *)
(* ================================================================== *)

(** [args.prompt]: absent, a string, or an array of strings (an element
    may be [null]). *)
Inductive PromptArg :=
| PromptAbsent
| PromptString (s : string)
| PromptArray (l : list (option string)).

(** The arguments of [generate_image].  Each field is the first alias
    of the argument that is not nullish, as the text [String(value)]. *)
Record Args := mkArgs {
  a_prompt : PromptArg;
  a_session_id : option string;
  a_image : option string;
  a_size : option string;
  a_n : option string;
  a_output : option string;
  a_outDir : option string;
}.

(** What the tool call resolves to: [{ isError: true, content: [text] }]
    or a content that carries the images and the session id. *)
Inductive ToolResult :=
| ErrorResult (text : string)
| ContentResult (images : list ImageResult) (sessionId : string).

(** [parsePrompt(raw)]. *)
Definition parsePrompt (raw : PromptArg) : string :=
  match raw with
  | PromptArray l => Js.trim (String.concat " " (map (default "") l))
  | PromptString s => Js.trim s
  | PromptAbsent => Js.trim ""
  end.

(** [parseInputImage(args, isNew, session)]. *)
Definition parseInputImage (args : Args) (isNew : bool) (session : Session)
  : option ImageResult :=
  match a_image args with
  | Some imageArg =>
      if Js.truthy imageArg then
        match parseDataUrl (Some imageArg) with
        | Some parsed => Some {| base64 := base64 parsed; mimeType := mimeType parsed |}
        | None =>
            if isValidBase64 imageArg
            then Some {| base64 := imageArg; mimeType := "image/png" |}
            else None
        end
      else if negb isNew then lastImage session else None
  | None => if negb isNew then lastImage session else None
  end.

Section Server.

Variable env : Env.

(** [parseSize(raw)]. *)
Definition parseSize (raw : option string) : string :=
  let size := Js.trim (default (defaultSize (config env)) raw) in
  if Js.allDigits size then size +:+ "x" +:+ size else size.

(** [parseOutput(raw)]. *)
Definition parseOutput (raw : option string) : string :=
  let outputRaw := Js.toLowerCase (Js.trim (default (defaultOutput (config env)) raw)) in
  if existsb (String.eqb outputRaw) ["image"; "base64"; "b64"; "data"; "inline"]
  then "image" else "path".

(** [resolveOutDir(rawOutDir)]: empty exactly when the trimmed argument
    is; the expansion of [~] and the resolution against the working
    directory are left out. *)
Definition resolveOutDir (rawOutDir : string) : string := Js.trim rawOutDir.

Definition outDirMissing : string :=
  "参数 outDir 不能为空。请指定图片保存目录".

(** [handleGenerateImage(args)].  With the output ["path"] the images
    are saved below [outDir] once the session is updated.  The text of
    the answer is left out: the result keeps the images and the session
    id that the answer is built from. *)
Definition handleGenerateImage (args : Args) : M ToolResult :=
  let prompt := parsePrompt (a_prompt args) in
  if negb (Js.truthy prompt) then ret (ErrorResult "参数 prompt 不能为空")
  else
    let sessionId := a_session_id args in
    ks <- getOrCreateSession env sessionId ;;
    let '(key, session) := ks in
    let isNew := isNewSession sessionId session in
    let inputImage := parseInputImage args isNew session in
    let size := parseSize (a_size args) in
    let n := clampInt (parseIntOr (a_n args) 1) 1 4 in
    let output := parseOutput (a_output args) in
    let outDir := resolveOutDir (default (defaultOutDir (config env)) (a_outDir args)) in
    let outDir := if String.eqb output "path" && negb (Js.truthy outDir)
                  then picturesDir env else outDir in
    if String.eqb output "path" && negb (Js.truthy outDir) then ret (ErrorResult outDirMissing)
    else
      images <- generateImages env
                  {| p_model := model (config env);
                     p_prompt := prompt;
                     p_size := size;
                     p_n := n;
                     p_timeoutMs := timeoutMs (config env);
                     p_historyMessages := messages session;
                     p_inputImage := inputImage |} ;;
      let userContent := buildUserContent prompt inputImage in
      updateSession env key userContent images ;;;
      if String.eqb output "image" then ret (ContentResult images (id session))
      else
        saveImages env images outDir ;;;
        ret (ContentResult images (id session)).

Definition message_of (e : Exn) : string :=
  match e with
  | HttpError _ m => m
  | Error m => m
  end.

(** [buildErrorResponse(err)], without the suggestion appended to the
    text. *)
Definition buildErrorResponse (err : Exn) : ToolResult :=
  ErrorResult ("❌ 生成失败: " +:+ message_of err).

(** The [CallToolRequestSchema] handler for [generate_image]. *)
Definition callTool (args : Args) : M ToolResult :=
  tryCatch (handleGenerateImage args) (fun err => ret (buildErrorResponse err)).

End Server.

(* ================================================================== *)
(** * Session management: the sweep of expired sessions                *)
(* ================================================================== *)

(** [s.endsWith(suffix)]. *)
Definition endsWith (suffix s : string) : bool :=
  Js.startsWith (Js.reverse suffix) (Js.reverse s).

(** [s.replace(pattern, replacement)] with a string pattern: the first
    occurrence is replaced. *)
Fixpoint replaceFirst (pattern replacement s : string) : string :=
  match Js.stripPrefix pattern s with
  | Some rest => replacement +:+ rest
  | None =>
      match s with
      | String c r => String c (replaceFirst pattern replacement r)
      | EmptyString => EmptyString
      end
  end.

Fixpoint hasSlash (s : string) : bool :=
  match s with
  | EmptyString => false
  | String c r => Ascii.eqb c "/" || hasSlash r
  end.

(** The name under which [path] is an entry of the directory [dir]. *)
Definition entryName (dir path : string) : option string :=
  match Js.stripPrefix (dir +:+ "/") path with
  | Some name => if hasSlash name then None else Some name
  | None => None
  end.

(** [fs.readdirSync(dir)] on the session directory, as the names of the
    records that lie directly in [dir].  (Sub-directories are left out:
    the loops below skip an entry that cannot be read as a record.)  The
    order of the listing is the order of the map. *)
Definition readdir (dir : string) (files : gmap string SessionFile) : list string :=
  omap (fun entry => entryName dir entry.1) (map_to_list files).

Section Sweep.

Variable env : Env.

(** [now - lastUsedAt > ttl]. *)
Definition expired (now lastUsed : Z) : bool :=
  sessionTtlMs (config env) <? now - lastUsed.

(** The body of the loop over the [Map]: an expired session is removed
    from the [Map] and its files are deleted. *)
Definition sweepSession (now : Z) (id : string) (session : Session) (s : State) : State :=
  if expired now (lastUsedAt session)
  then deleteSessionFile env id (set_sessions (delete id (sessions s)) s)
  else s.

(** The body of the loop over the session directory: the record is read
    again at each entry; an entry that is not a record any more is
    skipped. *)
Definition sweepFile (now : Z) (s : State) (file : string) : State :=
  if negb (endsWith ".json" file) then s
  else
    match sessionFiles s !! pathJoin (sessionStorageDir (config env)) file with
    | Some session =>
        if expired now (fileLastUsedAt session)
        then deleteSessionFile env (replaceFirst ".json" "" file) s
        else s
    | None => s
    end.

(** [cleanupExpiredSessions()]. *)
Definition cleanupExpiredSessions : M unit :=
  modify (fun s =>
            let now := clock s in
            let s1 := map_fold (sweepSession now) s (sessions s) in
            if sessionPersistEnabled (config env)
            then fold_left (sweepFile now)
                   (readdir (sessionStorageDir (config env)) (sessionFiles s1)) s1
            else s1).

End Sweep.

(* ================================================================== *)
(** * Session management: the listing of sessions                      *)
(* ================================================================== *)

(** An entry of [listAllSessions()]. *)
Record SessionInfo := mkInfo {
  info_id : string;
  messageCount : nat;
  hasImage : bool;
  info_createdAt : Z;
  info_lastUsedAt : Z;
  source : string;
}.

(** The entry of a session held in the [Map] under the key [entry.1]. *)
Definition memoryInfo (entry : string * Session) : SessionInfo :=
  {| info_id := entry.1;
     messageCount := length (messages entry.2);
     hasImage := match lastImage entry.2 with Some _ => true | None => false end;
     info_createdAt := createdAt entry.2;
     info_lastUsedAt := lastUsedAt entry.2;
     source := "memory" |}.

(** The entry of a session read from its record. *)
Definition fileInfo (record : SessionFile) : SessionInfo :=
  {| info_id := fileId record;
     messageCount := length (fileMessages record);
     hasImage := match fileLastImage record, lastImageRef record with
                 | None, None => false
                 | _, _ => true
                 end;
     info_createdAt := fileCreatedAt record;
     info_lastUsedAt := fileLastUsedAt record;
     source := "file" |}.

Section Listing.

Variable env : Env.

(** The body of the loop over the session directory: a record whose
    name gives an id already listed from memory is skipped. *)
Definition fileEntry (s : State) (file : string) : option SessionInfo :=
  if negb (endsWith ".json" file) then None
  else
    match sessions s !! replaceFirst ".json" "" file with
    | Some _ => None
    | None =>
        match sessionFiles s !! pathJoin (sessionStorageDir (config env)) file with
        | Some record => Some (fileInfo record)
        | None => None
        end
    end.

(** [listAllSessions()]: the sessions of the [Map] first (in the order
    of the map), then those found on disk only. *)
Definition listAllSessions (s : State) : list SessionInfo :=
  map memoryInfo (map_to_list (sessions s))
  ++ (if sessionPersistEnabled (config env)
      then omap (fileEntry s) (readdir (sessionStorageDir (config env)) (sessionFiles s))
      else []).

End Listing.

(* ================================================================== *)
(** * Utilities: base URLs                                             *)
(* ================================================================== *)

Fixpoint dropSlashes (s : string) : string :=
  match s with
  | String c r => if Ascii.eqb c "/" then dropSlashes r else s
  | EmptyString => EmptyString
  end.

(** [s.replace(/\/+$/, "")]. *)
Definition stripTrailingSlashes (s : string) : string :=
  Js.reverse (dropSlashes (Js.reverse s)).

(** [normalizeBaseUrl(raw)]. *)
Definition normalizeBaseUrl (raw : option string) : string :=
  let trimmed := Js.trim (default "" raw) in
  if negb (Js.truthy trimmed) then "http://127.0.0.1:8317"
  else stripTrailingSlashes trimmed.

(** [toV1BaseUrl(baseUrl)]. *)
Definition toV1BaseUrl (baseUrl : option string) : string :=
  let normalized := normalizeBaseUrl baseUrl in
  if endsWith "/v1" normalized then normalized else normalized +:+ "/v1".

(* ================================================================== *)
(** * Vocabulary of the statements                                     *)
(* ================================================================== *)

Definition isGet (r : Request) : Prop :=
  match r with GetUrl _ => True | _ => False end.

Definition isImagesPost (r : Request) : Prop :=
  match r with PostImagesGenerations _ _ _ _ => True | _ => False end.

Definition isNativePost (r : Request) : Prop :=
  match r with PostGenerateContent _ _ _ => True | _ => False end.

Definition isChatPost (r : Request) : Prop :=
  match r with PostChatCompletions _ _ _ => True | _ => False end.


(** The upstream calls made between two states. *)
Definition newCalls (before after : State) : list Request :=
  drop (length (calls before)) (calls after).

(** [s'] differs from [s] by the upstream calls [l] (and the time they
    took): sessions and files are as they were. *)
Definition talked (l : list Request) (s s' : State) : Prop :=
  calls s' = calls s ++ l
  /\ sessions s' = sessions s /\ sessionFiles s' = sessionFiles s
  /\ imageFiles s' = imageFiles s /\ issued s' = issued s.

(** A computation that does nothing but talk to the endpoint: its
    requests are in [P], what it throws is in [E], what it returns is in
    [Q]. *)
Definition Does {A} (P : Request -> Prop) (E : Exn -> Prop) (Q : A -> Prop) (c : M A)
  : Prop :=
  forall s, exists l,
    Forall P l /\ talked l s (c s).2
    /\ match (c s).1 with
       | Returns a => Q a
       | Throws e => E e
       end.

Definition anyExn : Exn -> Prop := fun _ => True.

Definition plainError : Exn -> Prop := fun e => exists m, e = Error m.

Definition anyValue {A} : A -> Prop := fun _ => True.

(** An image with a non-empty MIME type. *)
Definition typed (img : ImageResult) : Prop := Js.truthy (mimeType img) = true.

Section StrategyShape.

Variable env : Env.

(** The state once [req] is issued. *)
Definition afterCall (req : Request) (s : State) : State :=
  set_clock (clock s + Z.of_N (latency env (calls s) req)) (set_calls (calls s ++ [req]) s).

Definition imagesPost (params : GenerateParams) : Request :=
  PostImagesGenerations (p_model params) (p_prompt params) (p_size params) (p_n params).

Definition nativePost (params : GenerateParams) : Request :=
  PostGenerateContent (p_model params) (geminiContents params)
    (sizeToAspectRatio (p_size params)).

Definition chatPost (params : GenerateParams) : Request :=
  PostChatCompletions (p_model params)
    (p_historyMessages params ++ [mkMessage "user" (currentUserContent params)])
    (p_size params).

(** What one call of a strategy does: it issues its POST, then only
    GETs; it returns at least one image, each with a MIME type, and
    only from a 2xx answer; it throws [HttpError] exactly for an answer
    that is not 2xx, with the status of that answer, and a plain
    [Error] for everything else. *)
Definition strategyRun (post : Request) (s : State)
    (run : Outcome (list ImageResult) * State) : Prop :=
  exists gets,
    Forall isGet gets /\ talked (post :: gets) s run.2
    /\ match run.1 with
       | Returns images =>
           images <> [] /\ Forall typed images
           /\ exists r, upstream env (calls s) post = Responded r /\ ok r = true
       | Throws (HttpError st _) =>
           gets = []
           /\ exists r, upstream env (calls s) post = Responded r /\ ok r = false
                        /\ st = status r
       | Throws (Error _) =>
           forall r, upstream env (calls s) post = Responded r -> ok r = true
       end.

End StrategyShape.

(** In the words of the specification: the generator is invoked [k]
    times in a row, serially; the batches it returns, in order.  A
    failure ends the sequence and is not retried. *)
Fixpoint repeatCalls (g : M (list ImageResult)) (k : nat) : M (list (list ImageResult)) :=
  match k with
  | O => ret []
  | S k' => batch <- g ;; rest <- repeatCalls g k' ;; ret (batch :: rest)
  end.

(** Requests of one strategy: its POST, and the GETs that follow image
    URLs. *)
Definition postOrGet (post : Request) (r : Request) : Prop := r = post \/ isGet r.


(** A sequence of updates of one session object: each update is the
    time of the call, the user content and the produced images. *)
Definition applyUpdates (session : Session) (us : list (Z * Content * list ImageResult))
  : Session :=
  fold_left (fun ses u => updateSessionObject u.1.1 ses u.1.2 u.2) us session.

(** In a serial run of [g] for [count] images from [s], the calls made
    so far returned fewer than [count] images and the next call, one of
    the [count] the loop allows, throws [e] and leaves [s']. *)
Definition failsInRun (g : M (list ImageResult)) (count : Z) (s : State) (e : Exn)
    (s' : State) : Prop :=
  exists k batches s1,
    Z.of_nat k < count
    /\ repeatCalls g k s = (Returns batches, s1)
    /\ Z.of_nat (length (concat batches)) < count
    /\ g s1 = (Throws e, s').

(** The directory that a request saves to: the argument or the
    configured default, and the pictures directory when that is empty
    and the output is ["path"]. *)
Definition requestOutDir (env : Env) (args : Args) : string :=
  let outDir := resolveOutDir (default (defaultOutDir (config env)) (a_outDir args)) in
  if String.eqb (parseOutput env (a_output args)) "path" && negb (Js.truthy outDir)
  then picturesDir env else outDir.

(** The request passes the two checks that precede the generation: its
    prompt is not empty, and a directory is known when files are to be
    written. *)
Definition accepted (env : Env) (args : Args) : bool :=
  Js.truthy (parsePrompt (a_prompt args))
  && negb (String.eqb (parseOutput env (a_output args)) "path"
           && negb (Js.truthy (requestOutDir env args))).

(** What a request asks of the adapter, for the session it resolved
    to. *)
Definition requestParams (env : Env) (args : Args) (session : Session) : GenerateParams :=
  {| p_model := model (config env);
     p_prompt := parsePrompt (a_prompt args);
     p_size := parseSize env (a_size args);
     p_n := clampInt (parseIntOr (a_n args) 1) 1 4;
     p_timeoutMs := timeoutMs (config env);
     p_historyMessages := messages session;
     p_inputImage := parseInputImage args (isNewSession (a_session_id args) session) session |}.

(** A sequence of updates of one session object by the earlier
    module. *)
Definition applyLegacyUpdates (session : Session) (us : list (Z * Content * list ImageResult))
  : Session :=
  fold_left (fun ses u => Legacy.updateSession u.1.1 ses u.1.2 u.2) us session.

(** The size [w]x[h]. *)
Definition sizeOf (w h : nat) : string := pretty w +:+ "x" +:+ pretty h.

(** No size with sides from 1 to [n] is translated to ["2:3"]. *)
Definition neverTwoThirds (n : nat) : bool :=
  forallb (fun w =>
             forallb (fun h => negb (String.eqb (sizeToAspectRatio (sizeOf w h)) "2:3"))
               (seq 1 n))
    (seq 1 n).

Definition withCount (args : Args) (n : option string) : Args :=
  {| a_prompt := a_prompt args; a_session_id := a_session_id args; a_image := a_image args;
     a_size := a_size args; a_n := n; a_output := a_output args; a_outDir := a_outDir args |}.

(** [Math.abs(ratio - r)]. *)
Definition distance (ratio r : float) : float := PrimFloat.abs (PrimFloat.sub ratio r).

(** In the words of the specification: the entry of the table nearest
    to [ratio] (the first of them in table order when several are
    equally near) ... *)
Fixpoint nearestEntry (ratio : float) (best : float * string) (table : list (float * string))
  : float * string :=
  match table with
  | [] => best
  | e :: rest =>
      nearestEntry ratio
        (if PrimFloat.ltb (distance ratio e.1) (distance ratio best.1) then e else best) rest
  end.

(** ... taken when it is within the tolerance of 0.1, with ["1:1"] as
    the answer for anything else. *)
Definition nearestAspectRatio (size : string) : string :=
  match matchSize size with
  | None => "1:1"
  | Some (w, h) =>
      let ratio := PrimFloat.div (toNumber w) (toNumber h) in
      let best := nearestEntry ratio (1%float, "1:1") ratioMap in
      if withinTolerance ratio best.1 then best.2 else "1:1"
  end.

(* ================================================================== *)
(** * Concrete endpoints, requests and sessions                        *)
(* ================================================================== *)

Definition testConfig (mode : string) : Config :=
  {| model := "gemini-3-pro-image-preview";
     timeoutMs := 120000;
     imageMode := mode;
     sessionTtlMs := DEFAULTS.SESSION_TTL_MS;
     sessionPersistEnabled := true;
     sessionStorageDir := "/home/u/.gemini-images/sessions";
     sessionImagesDir := "/home/u/.gemini-images/images";
     defaultSize := "1024x1024";
     defaultOutput := "image";
     defaultOutDir := "" |}.

(** A process in mode [mode] in front of the endpoint [endpoint]: calls
    take no time, the k-th session id is ["id"] followed by [k], every
    path is writable. *)
Definition testEnv (mode : string) (endpoint : list Request -> Request -> FetchResult) : Env :=
  {| config := testConfig mode;
     upstream := endpoint;
     latency := fun _ _ => 0%N;
     randomHex := fun k => "id" +:+ pretty k;
     writable := fun _ => true;
     picturesDir := "/home/u/Pictures";
     tmpDir := "/tmp";
     mkdirOk := fun _ => true;
     fsError := fun p => "EACCES: permission denied, open '" +:+ p +:+ "'";
     batchId := fun t k => "19700101-000000-" +:+ pretty k |}.

Definition initialState : State :=
  {| sessions := ∅; sessionFiles := ∅; imageFiles := ∅; clock := 0; calls := []; issued := O |}.

Definition request (n : Z) : GenerateParams :=
  {| p_model := "gemini-3-pro-image-preview"; p_prompt := "a red circle";
     p_size := "1024x1024"; p_n := n; p_timeoutMs := 120000;
     p_historyMessages := []; p_inputImage := None |}.

Definition png (b64 : string) : ImageResult := {| base64 := b64; mimeType := "image/png" |}.

Definition answer (st : Z) (j : option JsonBody) : FetchResult :=
  Responded {| status := st; text := ""; json := j; contentType := Some "application/json";
               bytes := [] |}.

Definition inlinePart (b64 : string) : GeminiPart :=
  {| inlineData := Some (mkInline (Some b64) (Some "image/png")); inline_data := None |}.

Definition nativeBody (l : list string) : JsonBody :=
  {| data := []; candidates := [mkCandidate (map inlinePart l)]; choices := [] |}.

Definition imagesBody (l : list string) : JsonBody :=
  {| data := map (fun b => mkItem (Some b) None) l; candidates := []; choices := [] |}.

Definition chatBody (l : list string) : JsonBody :=
  {| data := []; candidates := [];
     choices := [mkChoice (Some (mkChoiceMessage None
                  (Some (map (fun b => mkMessageImage
                                          (IUObject (Some ("data:image/png;base64," +:+ b)))
                                          None None) l))))] |}.

(** An endpoint without [/images/generations] (404) whose native route
    answers with one image, and whose chat route is never needed. *)
Definition nativeOnly : list Request -> Request -> FetchResult :=
  fun _ req =>
    match req with
    | PostImagesGenerations _ _ _ _ => answer 404 None
    | PostGenerateContent _ _ _ => answer 200 (Some (nativeBody ["AAAA"]))
    | _ => NetworkFailure "ECONNREFUSED"
    end.

(** An endpoint whose chat route answers every call with one image. *)
Definition oneImagePerCall : list Request -> Request -> FetchResult :=
  fun _ req =>
    match req with
    | PostChatCompletions _ _ _ => answer 200 (Some (chatBody ["AAAA"]))
    | _ => answer 404 None
    end.

(** An endpoint whose [/images/generations] answers with two images
    whatever [n] is. *)
Definition twoImages : list Request -> Request -> FetchResult :=
  fun _ req =>
    match req with
    | PostImagesGenerations _ _ _ _ => answer 200 (Some (imagesBody ["AAAA"; "BBBB"]))
    | _ => answer 404 None
    end.

(** An endpoint without [/images/generations] whose native route answers
    200 with no image in it, and whose chat route answers with one. *)
Definition emptyNative : list Request -> Request -> FetchResult :=
  fun _ req =>
    match req with
    | PostImagesGenerations _ _ _ _ => answer 404 None
    | PostGenerateContent _ _ _ => answer 200 (Some (nativeBody []))
    | PostChatCompletions _ _ _ => answer 200 (Some (chatBody ["CCCC"]))
    | GetUrl _ => answer 404 None
    end.

(** A session whose history is already over the cap (as a file written
    by other means may hold). *)
Definition longSession : Session :=
  {| id := "abc";
     messages := map (fun k : nat => mkMessage "user" (ContentText (pretty k))) (seq 0 25);
     lastImage := None; createdAt := 0; lastUsedAt := 0 |}.

Definition longState : State :=
  {| sessions := {[ "abc" := longSession ]}; sessionFiles := ∅; imageFiles := ∅;
     clock := 1000; calls := []; issued := O |}.

(** An endpoint that is down. *)
Definition unreachable : list Request -> Request -> FetchResult :=
  fun _ _ => NetworkFailure "connect ECONNREFUSED 127.0.0.1:8317".

Definition editArgs (sessionId : option string) (image n : option string) : Args :=
  {| a_prompt := PromptString "make it blue"; a_session_id := sessionId; a_image := image;
     a_size := None; a_n := n; a_output := None; a_outDir := None |}.

(** Eleven turns, each answered with one image. *)
Definition elevenTurns : list (Z * Content * list ImageResult) :=
  map (fun k : nat => (Z.of_nat k, ContentText "make it blue", [png "AAAA"])) (seq 1 11).

Definition newSession : Session :=
  {| id := "abc"; messages := []; lastImage := None; createdAt := 0; lastUsedAt := 0 |}.

Definition eightDays : Z := 8 * 24 * 60 * 60 * 1000.

(** A session last used at time 0. *)
Definition staleSession : Session :=
  {| id := "abc"; messages := [mkMessage "user" (ContentText "a red circle")];
     lastImage := Some (png "AAAA"); createdAt := 0; lastUsedAt := 0 |}.

(** Eight days later, with the session still in memory (the sweep has
    not run yet) ... *)
Definition staleInMemory : State :=
  {| sessions := {[ "abc" := staleSession ]}; sessionFiles := ∅; imageFiles := ∅;
     clock := eightDays; calls := []; issued := O |}.

(** ... and with the session on disk only (after a restart). *)
Definition staleOnDisk : State :=
  {| sessions := ∅;
     sessionFiles :=
       {[ "/home/u/.gemini-images/sessions/abc.json" :=
            {| fileId := "abc";
               fileMessages := [mkMessage "user" (ContentText "a red circle")];
               messageImageRefs := None; lastImageRef := None; fileLastImage := None;
               fileCreatedAt := 0; fileLastUsedAt := 0 |} ]};
     imageFiles := ∅; clock := eightDays; calls := []; issued := O |}.

Definition emptyPromptArgs : Args :=
  {| a_prompt := PromptString "   "; a_session_id := None; a_image := None;
     a_size := None; a_n := Some "100"; a_output := None; a_outDir := None |}.

(* ================================================================== *)
(** * Vocabulary of the further properties                             *)
(* ================================================================== *)

(** [s] holds a [';']. *)
Fixpoint hasSemicolon (s : string) : bool :=
  match s with
  | EmptyString => false
  | String c r => Ascii.eqb c ";" || hasSemicolon r
  end.

(** A MIME type that the data URL pattern reads back whole: not empty
    and without [';']. *)
Definition plainMime (mime : string) : Prop :=
  Js.truthy mime = true /\ hasSemicolon mime = false.

(** [s] holds a character that is not white space. *)
Fixpoint hasInk (s : string) : bool :=
  match s with
  | EmptyString => false
  | String c r => negb (Js.isWhiteSpace c) || hasInk r
  end.

(** Every character of [s] satisfies [P]. *)
Fixpoint allChars (P : ascii -> bool) (s : string) : bool :=
  match s with
  | EmptyString => true
  | String c r => P c && allChars P r
  end.

(** A character that is neither white space nor [':']. *)
Definition solid (c : ascii) : bool := negb (Js.isWhiteSpace c) && negb (Ascii.eqb c ":").

(** A payload in canonical base64: encoding its decoding gives it back
    (as every payload that [Buffer] itself encoded does). *)
Definition canonical (b64 : string) : Prop :=
  Buffer.toBase64 (Buffer.fromBase64 b64) = b64.

(** A content part as the session module builds it in memory: it
    carries no reference key, and an image given as a data URL has a
    canonical payload. *)
Definition cleanPart (part : ContentPart) : Prop :=
  match part with
  | TextPart _ => True
  | ImageUrlPart key u =>
      key = None
      /\ forall mime b64, matchDataUrl false u = Some (mime, b64) -> canonical b64
  end.

Definition cleanMessage (msg : Message) : Prop :=
  match content msg with
  | ContentParts ps => Forall cleanPart ps
  | ContentText _ => True
  end.

(** The state of an extraction in progress for the session [sid]: every
    reference recorded so far has a key [img_k] with [k] below the
    index, points to the message image path of its key and carries a
    MIME type. *)
Definition recorded (env : Env) (sid : string) (st : Extract) : Prop :=
  forall key ref,
    lookupRef (imageRefs st) key = Some ref ->
    exists k, (k < imageIndex st)%nat /\ key = "img_" +:+ pretty k
              /\ path ref = getMessageImagePath env sid key
              /\ exists mime, refMimeType ref = Some mime /\ Js.truthy mime = true.

(** References and files that keep what the extraction state [st]
    recorded: each reference of [st] is found under its key, and the
    file it points to is the one written. *)
Definition keeps (st : Extract) (refs : list (string * SessionImageRef))
    (files : gmap string (list Byte.byte)) : Prop :=
  forall key ref,
    lookupRef (imageRefs st) key = Some ref ->
    lookupRef refs key = Some ref /\ files !! path ref = written st !! path ref.


(** The disk of [s'] holds nothing that the disk of [s] did not hold. *)
Definition shrunk (s s' : State) : Prop :=
  (forall p r, sessionFiles s' !! p = Some r -> sessionFiles s !! p = Some r)
  /\ (forall p b, imageFiles s' !! p = Some b -> imageFiles s !! p = Some b).

(** An image that survives being stored: its MIME type is plain and its
    payload is not empty and canonical base64. *)
Definition storable (img : ImageResult) : Prop :=
  plainMime (mimeType img) /\ Js.truthy (base64 img) = true /\ canonical (base64 img).

Definition cleanContent (c : Content) : Prop :=
  match c with
  | ContentParts ps => Forall cleanPart ps
  | ContentText _ => True
  end.

(** [s] does not start with white space. *)
Definition startsInk (s : string) : bool :=
  match s with
  | String c _ => negb (Js.isWhiteSpace c)
  | EmptyString => true
  end.

(** An image with a payload. *)
Definition filled (img : ImageResult) : Prop := Js.truthy (base64 img) = true.

(** A computation that only talks to the endpoint and whose result
    satisfies [Q] unless one of its requests fetched a URL. *)
Definition Yields {A} (Q : A -> Prop) (c : M A) : Prop :=
  forall s, exists l,
    talked l s (c s).2
    /\ match (c s).1 with
       | Returns a => Exists isGet l \/ Q a
       | Throws _ => True
       end.

(** The prompt argument holds a character that is not white space. *)
Definition promptInk (raw : PromptArg) : bool :=
  match raw with
  | PromptAbsent => false
  | PromptString s => hasInk s
  | PromptArray l => existsb (fun x => hasInk (default "" x)) l
  end.

(** Every session of the [Map] is held under its own id, and every
    record lies at the path of its own id. *)
Definition wellKeyed (env : Env) (s : State) : Prop :=
  (forall key session, sessions s !! key = Some session -> id session = key)
  /\ (forall p record,
        sessionFiles s !! p = Some record -> p = getSessionFilePath env (fileId record)).

(** The number of POST requests in a list of requests. *)
Definition posts (l : list Request) : nat :=
  length (List.filter (fun r => match r with GetUrl _ => false | _ => true end) l).

(** A computation that only talks to the endpoint, with at most [n]
    POST requests. *)
Definition Costs {A} (n : nat) (c : M A) : Prop :=
  forall s, exists l, talked l s (c s).2 /\ (posts l <= n)%nat.




(** The session ["abc"] after a first turn answered with one image. *)
Definition editedSession : Session :=
  {| id := "abc"; messages := pushed (ContentText "a red circle") [png "AAAA"];
     lastImage := Some (png "AAAA"); createdAt := 0; lastUsedAt := 1000 |}.

(* ================================================================== *)
(** * First checks on concrete inputs                                  *)
(* ================================================================== *)

Example parseDataUrl_png :
  parseDataUrl (Some "data:image/png;base64,AAAA")
  = Some {| base64 := "AAAA"; mimeType := "image/png" |}.
Proof. reflexivity. Qed.

Example parseDataUrl_not_a_uri : parseDataUrl (Some "not a uri") = None.
Proof. reflexivity. Qed.

Example isValidBase64_ok : isValidBase64 "aGVsbG8=" = true.
Proof. vm_compute. reflexivity. Qed.

Example isValidBase64_junk : isValidBase64 "!!!" = false.
Proof. vm_compute. reflexivity. Qed.

Example parseInt_examples :
  Js.parseInt " 12abc" = Some 12 /\ Js.parseInt "-5" = Some (-5)
  /\ Js.parseInt "abc" = None /\ Js.parseInt "" = None
  /\ Js.parseInt (Js.stringOfInt 3) = Some 3.
Proof. vm_compute. repeat split. Qed.

Example sizeToAspectRatio_examples :
  sizeToAspectRatio "1024x1024" = "1:1" /\ sizeToAspectRatio "1792x1024" = "16:9"
  /\ sizeToAspectRatio "1024x1792" = "9:16" /\ sizeToAspectRatio "900x1000" = "1:1"
  /\ sizeToAspectRatio "10x0" = "1:1" /\ sizeToAspectRatio "wide" = "1:1"
  /\ sizeToAspectRatio "1200X800" = "3:2".
Proof. vm_compute. repeat split. Qed.

(* ================================================================== *)
(** * Reasoning about computations                                     *)
(* ================================================================== *)

Lemma talked_refl s : talked [] s s.
Proof. unfold talked. rewrite app_nil_r. auto. Qed.

Lemma talked_trans l1 l2 s1 s2 s3 :
  talked l1 s1 s2 -> talked l2 s2 s3 -> talked (l1 ++ l2) s1 s3.
Proof.
  unfold talked. intros (Hc1 & Hs1 & Hf1 & Hi1 & Hn1) (Hc2 & Hs2 & Hf2 & Hi2 & Hn2).
  rewrite Hc2, Hc1, app_assoc. repeat split; congruence.
Qed.

Lemma talked_newCalls l s s' : talked l s s' -> newCalls s s' = l.
Proof.
  intros (Hc & _). unfold newCalls. rewrite Hc. apply drop_app_length.
Qed.

Lemma talked_unique l1 l2 s s' : talked l1 s s' -> talked l2 s s' -> l1 = l2.
Proof. intros H1 H2. apply talked_newCalls in H1, H2. congruence. Qed.

Section Footprint.

Context {A B : Type}.

Variables (P : Request -> Prop) (E : Exn -> Prop).

Lemma Does_ret (Q : A -> Prop) (a : A) : Q a -> Does P E Q (ret a).
Proof. intros HQ s. exists []. split; [constructor | split; [apply talked_refl | exact HQ]]. Qed.

Lemma Does_throw (Q : A -> Prop) e : E e -> Does P E Q (throw e).
Proof. intros HE s. exists []. split; [constructor | split; [apply talked_refl | exact HE]]. Qed.

Lemma Does_bind (Q1 : A -> Prop) (Q : B -> Prop) (c : M A) (k : A -> M B) :
  Does P E Q1 c -> (forall a, Q1 a -> Does P E Q (k a)) -> Does P E Q (bind c k).
Proof.
  intros Hc Hk s. unfold bind.
  destruct (Hc s) as (l1 & HP1 & H1 & HQ1).
  destruct (c s) as [[a | e] s1] eqn:Ec; cbn in H1, HQ1.
  - destruct (Hk a HQ1 s1) as (l2 & HP2 & H2 & HQ2).
    exists (l1 ++ l2). split; [apply Forall_app; auto |].
    split; [eapply talked_trans; eauto | exact HQ2].
  - exists l1. cbn. auto.
Qed.

Lemma Does_tryCatch (Q : A -> Prop) (E1 : Exn -> Prop) (c : M A) (h : Exn -> M A) :
  Does P E1 Q c -> (forall e, E1 e -> Does P E Q (h e)) -> Does P E Q (tryCatch c h).
Proof.
  intros Hc Hh s. unfold tryCatch.
  destruct (Hc s) as (l1 & HP1 & H1 & HQ1).
  destruct (c s) as [[a | e] s1] eqn:Ec; cbn in H1, HQ1.
  - exists l1. cbn. auto.
  - destruct (Hh e HQ1 s1) as (l2 & HP2 & H2 & HQ2).
    exists (l1 ++ l2). split; [apply Forall_app; auto |].
    split; [eapply talked_trans; eauto | exact HQ2].
Qed.

End Footprint.

Lemma Does_weaken {A} (P P' : Request -> Prop) (E E' : Exn -> Prop) (Q Q' : A -> Prop)
    (c : M A) :
  (forall r, P r -> P' r) -> (forall e, E e -> E' e) -> (forall a, Q a -> Q' a) ->
  Does P E Q c -> Does P' E' Q' c.
Proof.
  intros HP HE HQ Hc s. destruct (Hc s) as (l & Hl & Ht & Ho).
  exists l. split; [eapply Forall_impl; eauto |]. split; [exact Ht |].
  destruct ((c s).1); auto.
Qed.

Lemma Does_forEachPush {A B} P E (R : B -> Prop) (f : A -> M (list B)) (l : list A) :
  (forall x, Does P E (Forall R) (f x)) -> Does P E (Forall R) (forEachPush f l).
Proof.
  intros Hf. induction l as [| x r IH]; cbn.
  - apply Does_ret. constructor.
  - eapply Does_bind; [apply Hf |]. intros ys Hys.
    eapply Does_bind; [apply IH |]. intros zs Hzs.
    apply Does_ret. apply Forall_app; auto.
Qed.

(** What [Does] says about one run. *)
Lemma Does_run {A} P E (Q : A -> Prop) (c : M A) s o s' :
  Does P E Q c -> c s = (o, s') ->
  Forall P (newCalls s s') /\ talked (newCalls s s') s s'
  /\ match o with Returns a => Q a | Throws e => E e end.
Proof.
  intros Hc Hrun. destruct (Hc s) as (l & Hl & Ht & Ho). rewrite Hrun in Ht, Ho. cbn in Ht, Ho.
  rewrite (talked_newCalls _ _ _ Ht). auto.
Qed.

Create HintDb does.

#[local] Hint Resolve Does_ret Does_throw : does.

#[local] Hint Extern 1 (plainError (Error _)) => (eexists; reflexivity) : does.

#[local] Hint Extern 1 (anyExn _) => exact I : does.

#[local] Hint Extern 1 (anyValue _) => exact I : does.

#[local] Hint Extern 1 (Forall _ []) => constructor : does.

Lemma orDefault_truthy s d : Js.truthy d = true -> Js.truthy (orDefault s d) = true.
Proof. unfold orDefault. destruct (Js.truthy s) eqn:E; auto. Qed.

Lemma parseDataUrl_typed u p : parseDataUrl u = Some p -> typed p.
Proof.
  unfold parseDataUrl, typed. destruct (matchDataUrl true _) as [[m b] |]; [| discriminate].
  intros [= <-]. cbn. destruct (Js.truthy (Js.trim m)) eqn:E; auto.
Qed.

Section AdapterFootprint.

Variable env : Env.

Lemma fetch_talked req t s :
  talked [req] s (fetchWithTimeout env req t s).2.
Proof.
  unfold fetchWithTimeout.
  destruct (upstream env (calls s) req); cbn; repeat split.
Qed.

(** [fetchWithTimeout] issues its request and throws plain errors only. *)
Lemma Does_fetch (P : Request -> Prop) req t :
  P req -> Does P plainError anyValue (fetchWithTimeout env req t).
Proof.
  intros HP s. exists [req]. split; [repeat constructor; exact HP |].
  split; [apply fetch_talked |].
  unfold fetchWithTimeout. destruct (upstream env (calls s) req); cbn; auto with does.
Qed.

Lemma Does_resJson P r : Does P plainError anyValue (resJson r).
Proof. unfold resJson. destruct (json r); auto with does. Qed.

Lemma Does_fetchUrlAsBase64 url t :
  Does isGet plainError typed (fetchUrlAsBase64 env url t).
Proof.
  unfold fetchUrlAsBase64. eapply Does_bind; [apply Does_fetch; exact I |].
  intros res _. destruct (negb (ok res)); auto with does.
  apply Does_ret. apply orDefault_truthy. reflexivity.
Qed.

Lemma Does_fetchOne url t :
  Does isGet plainError (Forall typed)
    (img <- fetchUrlAsBase64 env url t ;; ret [img]).
Proof.
  eapply Does_bind; [apply Does_fetchUrlAsBase64 |].
  intros img Himg. apply Does_ret. repeat constructor. exact Himg.
Qed.

Lemma Does_imageFromUrl t u :
  Does isGet plainError (Forall typed) (imageFromUrl env t u).
Proof.
  unfold imageFromUrl. destruct (parseDataUrl (Some u)) as [p |] eqn:Ep.
  - apply Does_ret. repeat constructor. apply (parseDataUrl_typed _ _ Ep).
  - destruct (Js.startsWith "http" u); auto with does. apply Does_fetchOne.
Qed.

Lemma Does_imagesItem t item :
  Does isGet plainError (Forall typed) (imagesItem env t item).
Proof.
  unfold imagesItem. destruct (nonBlank (b64_json item)) as [b |].
  - apply Does_ret. repeat constructor. unfold typed. cbn.
    destruct (parseDataUrl (Some b)) as [p |] eqn:Ep; [| reflexivity].
    apply (parseDataUrl_typed _ _ Ep).
  - destruct (nonBlank (item_url item)); auto with does. apply Does_fetchOne.
Qed.

Lemma inlineImage_typed x img : inlineImage x = Some img -> typed img.
Proof.
  unfold inlineImage. destruct x as [d |]; [| discriminate].
  destruct (inl_data d) as [b |]; [| discriminate].
  destruct (Js.truthy b); [| discriminate].
  intros [= <-]. apply orDefault_truthy. reflexivity.
Qed.

Lemma parseGeminiResponse_typed j : Forall typed (parseGeminiResponse j).
Proof.
  unfold parseGeminiResponse. apply List.Forall_forall. intros img Hin.
  apply in_flat_map in Hin as (c & _ & Hin). apply in_flat_map in Hin as (part & _ & Hin).
  unfold geminiPart in Hin.
  destruct (inlineImage (inlineData part)) eqn:E1.
  - destruct Hin as [<- | []]. eapply inlineImage_typed; eauto.
  - destruct (inlineImage (inline_data part)) eqn:E2; [| destruct Hin].
    destruct Hin as [<- | []]. eapply inlineImage_typed; eauto.
Qed.

Lemma Does_contentItem t item :
  Does isGet plainError (Forall typed) (contentItem env t item).
Proof.
  unfold contentItem. destruct (inlineImage (ci_inline_data item)) eqn:Ei.
  - apply Does_ret. repeat constructor. eapply inlineImage_typed; eauto.
  - destruct (ci_type item); auto with does.
    destruct (urlOf (ci_image_url item)); auto with does.
    destruct (_ && _); auto with does. apply Does_imageFromUrl.
Qed.

Lemma Does_messageImage t img :
  Does isGet plainError (Forall typed) (messageImage env t img).
Proof.
  unfold messageImage. destruct (nonBlank _); auto with does. apply Does_imageFromUrl.
Qed.

Lemma Does_choiceImages t c :
  Does isGet plainError (Forall typed) (choiceImages env t c).
Proof.
  unfold choiceImages. destruct (message c); auto with does.
  eapply Does_bind; [apply Does_forEachPush, Does_contentItem |]. intros xs Hxs.
  eapply Does_bind; [apply Does_forEachPush, Does_messageImage |]. intros ys Hys.
  apply Does_ret. apply Forall_app; auto.
Qed.

Lemma Does_parseOpenAI j t :
  Does isGet plainError (Forall typed) (parseOpenAICompatibleResponse env j t).
Proof.
  unfold parseOpenAICompatibleResponse.
  eapply Does_bind; [apply Does_forEachPush, Does_choiceImages |]. intros xs Hxs.
  apply Does_ret. apply Forall_app. split; [apply parseGeminiResponse_typed | exact Hxs].
Qed.

End AdapterFootprint.

(** ** The three strategies *)

Section Strategies.

Variable env : Env.

Lemma afterCall_talked req s : talked [req] s (afterCall env req s).
Proof. unfold afterCall. repeat split. Qed.

(** The rest of a strategy once the answer is 2xx: parse, then reject
    an empty result. *)
Lemma parsed_run (k : M (list ImageResult)) msg post s r :
  Does isGet plainError (Forall typed) k ->
  upstream env (calls s) post = Responded r -> ok r = true ->
  strategyRun env post s
    ((images <- k ;; match images with
                     | [] => throw (Error msg)
                     | _ => ret images
                     end) (afterCall env post s)).
Proof.
  intros Hk Hup Hok. unfold bind.
  destruct (k (afterCall env post s)) as [o s1] eqn:Ek.
  destruct (Does_run _ _ _ _ _ _ _ Hk Ek) as (Hgets & Htalk & Ho).
  exists (newCalls (afterCall env post s) s1). split; [exact Hgets |].
  assert (Ht : talked (post :: newCalls (afterCall env post s) s1) s s1)
    by (apply (talked_trans [post] _ s (afterCall env post s) s1);
        [apply afterCall_talked | exact Htalk]).
  destruct o as [images | e].
  - destruct images as [| img rest]; cbn.
    + split; [exact Ht |]. intros r' Hr'. congruence.
    + split; [exact Ht |]. split; [discriminate |]. split; [exact Ho |]. eauto.
  - cbn. split; [exact Ht |]. destruct Ho as [m ->]. intros r' Hr'. congruence.
Qed.

Lemma failed_call post s (m : string) :
  (forall r, upstream env (calls s) post <> Responded r) ->
  strategyRun env post s (Throws (Error m), afterCall env post s).
Proof.
  intros Hup. exists []. split; [constructor |]. split; [apply afterCall_talked |].
  cbn. intros r Hr. destruct (Hup r Hr).
Qed.

Lemma rejected_call post s r hint :
  upstream env (calls s) post = Responded r -> ok r = false ->
  strategyRun env post s (Throws (httpError r hint), afterCall env post s).
Proof.
  intros Hup Hok. exists []. split; [constructor |]. split; [apply afterCall_talked |].
  cbn. split; [reflexivity |]. eauto.
Qed.

Lemma unparsed_call post s r (m : string) :
  upstream env (calls s) post = Responded r -> ok r = true ->
  strategyRun env post s (Throws (Error m), afterCall env post s).
Proof.
  intros Hup Hok. exists []. split; [constructor |]. split; [apply afterCall_talked |].
  cbn. intros r' Hr'. congruence.
Qed.

Lemma imagesApi_run params s :
  strategyRun env (imagesPost params) s (generateImagesViaImagesApi env params s).
Proof.
  unfold generateImagesViaImagesApi, bind at 1, fetchWithTimeout.
  fold (imagesPost params). fold (afterCall env (imagesPost params) s).
  destruct (upstream env (calls s) (imagesPost params)) as [| m | r] eqn:Hup;
    try (apply failed_call; intros r; rewrite Hup; discriminate).
  destruct (ok r) eqn:Hok; cbn [negb].
  - unfold resJson. destruct (json r) as [j |].
    + change (strategyRun env (imagesPost params) s
                ((images <- forEachPush (imagesItem env (p_timeoutMs params)) (data j) ;;
                  match images with
                  | [] => throw (Error "接口未返回可用的图片数据")
                  | _ => ret images
                  end) (afterCall env (imagesPost params) s))).
      eapply parsed_run; eauto. apply Does_forEachPush. apply Does_imagesItem.
    + eapply unparsed_call; eauto.
  - eapply rejected_call; eauto.
Qed.

Lemma returned_call post s r images :
  upstream env (calls s) post = Responded r -> ok r = true ->
  images <> [] -> Forall typed images ->
  strategyRun env post s (Returns images, afterCall env post s).
Proof.
  intros Hup Hok Hne Hty. exists []. split; [constructor |].
  split; [apply afterCall_talked |]. cbn. eauto.
Qed.

Lemma geminiNative_run params s :
  strategyRun env (nativePost params) s (generateImagesViaGeminiNative env params s).
Proof.
  unfold generateImagesViaGeminiNative, bind at 1, fetchWithTimeout.
  fold (nativePost params). fold (afterCall env (nativePost params) s).
  destruct (upstream env (calls s) (nativePost params)) as [| m | r] eqn:Hup;
    try (apply failed_call; intros r; rewrite Hup; discriminate).
  destruct (ok r) eqn:Hok; cbn [negb].
  - unfold resJson. destruct (json r) as [j |].
    + unfold bind, ret. pose proof (parseGeminiResponse_typed j) as Hty.
      destruct (parseGeminiResponse j) as [| img rest].
      * eapply unparsed_call; eauto.
      * eapply returned_call; eauto; discriminate.
    + eapply unparsed_call; eauto.
  - eapply rejected_call; eauto.
Qed.

Lemma chatCompletions_run params s :
  strategyRun env (chatPost params) s (generateImagesViaChatCompletions env params s).
Proof.
  unfold generateImagesViaChatCompletions, bind at 1, fetchWithTimeout.
  fold (chatPost params). fold (afterCall env (chatPost params) s).
  destruct (upstream env (calls s) (chatPost params)) as [| m | r] eqn:Hup;
    try (apply failed_call; intros r; rewrite Hup; discriminate).
  destruct (ok r) eqn:Hok; cbn [negb].
  - unfold resJson. destruct (json r) as [j |].
    + change (strategyRun env (chatPost params) s
                ((images <- parseOpenAICompatibleResponse env j (p_timeoutMs params) ;;
                  match images with
                  | [] => throw (Error "接口未返回可用的图片数据。支持的格式：candidates[].content.parts[].inline_data, choices[].message.content[], choices[].message.images[]")
                  | _ => ret images
                  end) (afterCall env (chatPost params) s))).
      eapply parsed_run; eauto. apply Does_parseOpenAI.
    + eapply unparsed_call; eauto.
  - eapply rejected_call; eauto.
Qed.

(** Consequences of [strategyRun] in the vocabulary of [Does]. *)
Lemma strategyRun_calls post s run :
  strategyRun env post s run ->
  exists gets, Forall isGet gets /\ newCalls s run.2 = post :: gets
               /\ talked (post :: gets) s run.2.
Proof.
  intros (gets & Hg & Ht & _). exists gets. split; [exact Hg |].
  split; [apply (talked_newCalls _ _ _ Ht) | exact Ht].
Qed.

Lemma strategyRun_returns post s images s' :
  strategyRun env post s (Returns images, s') -> images <> [] /\ Forall typed images.
Proof. intros (gets & _ & _ & Hne & Hty & _). auto. Qed.

End Strategies.

(** ** The loop of [generateMultiple] *)

Lemma repeatCalls_S g k s batch s1 batches s' :
  g s = (Returns batch, s1) -> repeatCalls g k s1 = (Returns batches, s') ->
  repeatCalls g (S k) s = (Returns (batch :: batches), s').
Proof. intros Hg Hr. cbn. unfold bind. rewrite Hg, Hr. reflexivity. Qed.

Lemma generateLoop_returns g count iters : forall out s res s',
  generateLoop g count iters out s = (Returns res, s') ->
  exists batches,
    (length batches <= iters)%nat
    /\ repeatCalls g (length batches) s = (Returns batches, s')
    /\ res = out ++ concat batches
    /\ (forall j, (0 < j < length batches)%nat ->
                  Z.of_nat (length (out ++ concat (take j batches))) < count)
    /\ (count <= Z.of_nat (length res) /\ batches <> [] \/ length batches = iters).
Proof.
  induction iters as [| k IH]; intros out s res s' Hrun; cbn in Hrun.
  - injection Hrun as <- <-. exists []. cbn. rewrite app_nil_r.
    repeat split; auto. intros j Hj. lia.
  - unfold bind in Hrun. destruct (g s) as [[batch | e] s1] eqn:Hg; [| discriminate].
    destruct (count <=? Z.of_nat (length (out ++ batch))) eqn:Hstop.
    + injection Hrun as <- <-. exists [batch]. cbn. rewrite app_nil_r.
      split; [lia |]. split; [unfold bind; rewrite Hg; reflexivity |].
      split; [reflexivity |]. split; [intros j Hj; lia |].
      left. split; [apply Z.leb_le, Hstop | discriminate].
    + apply IH in Hrun as (batches & Hlen & Hrep & -> & Hprefix & Hend).
      exists (batch :: batches). cbn [length concat].
      split; [lia |]. split; [eapply repeatCalls_S; eauto |].
      split; [rewrite app_assoc; reflexivity |]. split.
      * intros j Hj. destruct j as [| j]; [lia |]. cbn [take concat].
        destruct j as [| j].
        -- rewrite take_0. cbn. rewrite app_nil_r. apply Z.leb_gt, Hstop.
        -- rewrite app_assoc. apply Hprefix. lia.
      * destruct Hend as [[Hge Hne] | Hlast].
        -- left. split; [exact Hge | discriminate].
        -- right. lia.
Qed.

(** A failure of the generator ends the loop at once: the calls before
    it returned, and nothing is retried. *)
Lemma generateLoop_throws g count iters : forall out s e s',
  generateLoop g count iters out s = (Throws e, s') ->
  exists k batches s1,
    (k < iters)%nat /\ repeatCalls g k s = (Returns batches, s1) /\ g s1 = (Throws e, s').
Proof.
  induction iters as [| k IH]; intros out s e s' Hrun; cbn in Hrun; [discriminate |].
  unfold bind in Hrun. destruct (g s) as [[batch | e1] s1] eqn:Hg.
  - destruct (count <=? Z.of_nat (length (out ++ batch))); [discriminate |].
    apply IH in Hrun as (k' & batches & s2 & Hk & Hrep & Hthrow).
    exists (S k'), (batch :: batches), s2. split; [lia |].
    split; [eapply repeatCalls_S; eauto | exact Hthrow].
  - injection Hrun as <- <-. exists O, [], s. split; [lia |]. split; [reflexivity | exact Hg].
Qed.

Lemma generateMultiple_returns g count s images s' :
  generateMultiple g count s = (Returns images, s') ->
  exists batches,
    repeatCalls g (length batches) s = (Returns batches, s')
    /\ Z.of_nat (length batches) <= Z.max 0 count
    /\ images = take (Z.to_nat count) (concat batches)
    /\ (forall j, (j < length batches)%nat ->
                  Z.of_nat (length (concat (take j batches))) < Z.max 1 count)
    /\ (count <= Z.of_nat (length (concat batches)) \/ Z.of_nat (length batches) = count).
Proof.
  unfold generateMultiple, bind. intros Hrun.
  destruct (generateLoop g count (Z.to_nat count) [] s) as [[out | e] s1] eqn:Hloop;
    [| discriminate].
  injection Hrun as <- <-.
  apply generateLoop_returns in Hloop as (batches & Hlen & Hrep & -> & Hprefix & Hend).
  exists batches. cbn [app] in *. split; [exact Hrep |]. split; [lia |].
  split; [reflexivity |]. split.
  - intros j Hj. destruct j as [| j]; [rewrite take_0; cbn [concat length]; lia |].
    specialize (Hprefix (S j)). lia.
  - destruct Hend as [[Hge _] | Hlast]; [left; exact Hge |].
    destruct (Z.le_gt_cases count 0) as [Hle | Hgt]; [left; lia | right; lia].
Qed.

Lemma generateMultiple_throws g count s e s' :
  generateMultiple g count s = (Throws e, s') ->
  exists k batches s1,
    Z.of_nat k < count /\ repeatCalls g k s = (Returns batches, s1) /\ g s1 = (Throws e, s').
Proof.
  unfold generateMultiple, bind. intros Hrun.
  destruct (generateLoop g count (Z.to_nat count) [] s) as [[out | e1] s1] eqn:Hloop;
    [discriminate |].
  injection Hrun as <- <-.
  apply generateLoop_throws in Hloop as (k & batches & s2 & Hk & Hrep & Hthrow).
  exists k, batches, s2. split; [lia | auto].
Qed.

(** Properties of every call carry over to a sequence of calls. *)
Lemma repeatCalls_Forall (Q : list ImageResult -> Prop) g :
  (forall s batch s', g s = (Returns batch, s') -> Q batch) ->
  forall k s batches s', repeatCalls g k s = (Returns batches, s') -> Forall Q batches.
Proof.
  intros Hg. induction k as [| k IH]; intros s batches s' Hrun; cbn in Hrun.
  - injection Hrun as <- <-. constructor.
  - unfold bind in Hrun. destruct (g s) as [[batch | e] s1] eqn:Eg; [| discriminate].
    destruct (repeatCalls g k s1) as [[rest | e] s2] eqn:Er; [| discriminate].
    injection Hrun as <- <-. constructor; eauto.
Qed.


Lemma length_concat_ge (batches : list (list ImageResult)) :
  Forall (fun b => b <> []) batches -> (length batches <= length (concat batches))%nat.
Proof.
  induction 1 as [| b r Hb _ IH]; cbn; [lia |].
  rewrite length_app. destruct b; [congruence | cbn; lia].
Qed.


(** ** Footprint of the loop and of the strategies *)

Lemma Does_generateLoop P E (R : ImageResult -> Prop) g count iters :
  Does P E (Forall R) g ->
  forall out, Forall R out -> Does P E (Forall R) (generateLoop g count iters out).
Proof.
  intros Hg. induction iters as [| k IH]; intros out Hout; cbn.
  - apply Does_ret. exact Hout.
  - eapply Does_bind; [exact Hg |]. intros batch Hbatch.
    assert (Forall R (out ++ batch)) by (apply Forall_app; auto).
    destruct (count <=? _); [apply Does_ret | apply IH]; assumption.
Qed.

Lemma Does_generateMultiple P E (R : ImageResult -> Prop) g count :
  Does P E (Forall R) g -> Does P E (Forall R) (generateMultiple g count).
Proof.
  intros Hg. unfold generateMultiple.
  eapply Does_bind; [apply Does_generateLoop; [exact Hg | constructor] |].
  intros out Hout. apply Does_ret. unfold Js.sliceFirst. apply Forall_take. exact Hout.
Qed.

Lemma strategy_Does env post (g : M (list ImageResult)) :
  (forall s, strategyRun env post s (g s)) ->
  Does (postOrGet post) anyExn (Forall typed) g.
Proof.
  intros Hg s. destruct (Hg s) as (gets & Hgets & Ht & Ho).
  exists (post :: gets). split.
  - constructor; [left; reflexivity |]. eapply Forall_impl; [exact Hgets |].
    intros r Hr. right. exact Hr.
  - split; [exact Ht |]. destruct ((g s).1) as [images | e]; [| exact I].
    destruct Ho as (_ & Hty & _). exact Hty.
Qed.

Lemma strategy_nonempty env post (g : M (list ImageResult)) :
  (forall s, strategyRun env post s (g s)) ->
  forall s batch s', g s = (Returns batch, s') -> batch <> [].
Proof.
  intros Hg s batch s' Hrun. specialize (Hg s). rewrite Hrun in Hg.
  apply strategyRun_returns in Hg. tauto.
Qed.

(** With a generator that never returns an empty batch, a successful
    [generateMultiple] returns exactly [count] images. *)
Lemma generateMultiple_exact g count s images s' :
  (forall s batch s', g s = (Returns batch, s') -> batch <> []) ->
  0 <= count ->
  generateMultiple g count s = (Returns images, s') ->
  Z.of_nat (length images) = count.
Proof.
  intros Hne Hcount Hrun.
  apply generateMultiple_returns in Hrun as (batches & Hrep & Hk & -> & _ & Hend).
  pose proof (length_concat_ge batches (repeatCalls_Forall _ g Hne _ _ _ _ Hrep)) as Hlen.
  rewrite length_take. lia.
Qed.

(** The first request of [generateMultiple] is the POST of its strategy. *)
Lemma generateMultiple_starts env post g count s :
  0 < count ->
  (forall s, strategyRun env post s (g s)) ->
  exists rest, newCalls s (generateMultiple g count s).2 = post :: rest.
Proof.
  intros Hcount Hg. unfold generateMultiple.
  destruct (Z.to_nat count) as [| k] eqn:Hk; [lia |]. cbn [generateLoop].
  unfold bind at 1 2.
  destruct (Hg s) as (gets & _ & Ht & _).
  destruct (g s) as [[batch | e] s1] eqn:Eg; cbn [snd] in Ht.
  - pose proof (strategy_Does env post g Hg) as HD.
    set (rest := if count <=? Z.of_nat (length ([] ++ batch)) then ret ([] ++ batch)
                 else generateLoop g count k ([] ++ batch)).
    assert (Hrest : Does (postOrGet post) anyExn (Forall typed) rest).
    { destruct (Hg s) as (gets' & _ & _ & Ho). rewrite Eg in Ho. cbn in Ho.
      destruct Ho as (_ & Hty & _).
      unfold rest. destruct (count <=? _); [apply Does_ret | apply Does_generateLoop]; auto. }
    destruct (Hrest s1) as (l & _ & Hl & _).
    destruct (rest s1) as [[out | e] s2]; cbn [snd] in *.
    + exists (gets ++ l). apply talked_newCalls.
      apply (talked_trans (post :: gets) l s s1 s2); assumption.
    + exists (gets ++ l). apply talked_newCalls.
      apply (talked_trans (post :: gets) l s s1 s2); assumption.
  - exists gets. apply talked_newCalls. exact Ht.
Qed.

Lemma newCalls_trans s1 s2 s3 l1 l2 :
  talked l1 s1 s2 -> talked l2 s2 s3 -> newCalls s1 s3 = newCalls s1 s2 ++ newCalls s2 s3.
Proof.
  intros H1 H2. rewrite (talked_newCalls _ _ _ H1), (talked_newCalls _ _ _ H2).
  apply talked_newCalls. eapply talked_trans; eauto.
Qed.

Lemma generateImages_auto_mode env params :
  imageMode (config env) = "auto" ->
  generateImages env params = generateWithFallback env params (effectiveCount params).
Proof. intros Hmode. unfold generateImages. rewrite Hmode. reflexivity. Qed.

Lemma clampInt_range v lo hi : lo <= hi -> lo <= clampInt v lo hi <= hi.
Proof. unfold clampInt. lia. Qed.

Lemma effectiveCount_range params : 1 <= effectiveCount params <= 4.
Proof. unfold effectiveCount. apply clampInt_range. lia. Qed.

Lemma fallbackEligible_spec err :
  fallbackEligible err = true <->
  exists st m, err = HttpError st m /\ (st = 404 \/ st = 400).
Proof.
  destruct err as [st m | m]; cbn.
  - rewrite orb_true_iff, !Z.eqb_eq. split.
    + intros H. exists st, m. tauto.
    + intros (st' & m' & [= -> ->] & H). exact H.
  - split; [discriminate |]. intros (st & m' & [=] & _).
Qed.

Lemma isGet_not_post r : isGet r -> ~ isImagesPost r /\ ~ isNativePost r /\ ~ isChatPost r.
Proof. destruct r; cbn; tauto. Qed.

Lemma nativeCalls_no_chat env params count s :
  Forall (fun r => ~ isChatPost r)
    (newCalls s (generateMultiple (generateImagesViaGeminiNative env params) count s).2).
Proof.
  pose proof (Does_generateMultiple _ _ _ _ count
                (strategy_Does env (nativePost params) _ (geminiNative_run env params))) as HD.
  destruct (HD s) as (l & Hl & Ht & _). rewrite (talked_newCalls _ _ _ Ht).
  eapply Forall_impl; [exact Hl |]. intros r [-> | Hr]; [cbn; tauto |].
  apply isGet_not_post in Hr. tauto.
Qed.

Lemma talked_generateMultiple env post g count s :
  (forall s, strategyRun env post s (g s)) ->
  talked (newCalls s (generateMultiple g count s).2) s (generateMultiple g count s).2.
Proof.
  intros Hg.
  destruct (Does_generateMultiple _ _ _ _ count (strategy_Does env post g Hg) s)
    as (l & _ & Ht & _).
  rewrite (talked_newCalls _ _ _ Ht). exact Ht.
Qed.

(** C1. In mode [auto], [generateImages] tries the images-generation
    strategy first.  When that attempt returns, its images (at least
    one) are the result and no other strategy is invoked.  When it
    throws an [HttpError] with status 404 or 400, and in no other case,
    the native-generation strategy is tried; when that attempt returns,
    its images are the result and chat-completions is never invoked;
    when it throws, whatever the failure, the result is that of the
    chat-completions attempt.  Every other failure of the first attempt
    is thrown on as it is, with no other strategy invoked. *)
Theorem auto_fallback_order env params s :
  imageMode (config env) = "auto" ->
  let count := effectiveCount params in
  let first := generateImagesViaImagesApi env params s in
  let final := generateImages env params s in
  (exists rest, newCalls s final.2 = imagesPost params :: rest)
  /\ (forall err, fallbackEligible err = true <->
                  exists st m, err = HttpError st m /\ (st = 404 \/ st = 400))
  /\ match first.1 with
     | Returns images =>
         images <> [] /\ final = first
         /\ Forall (fun r => ~ isNativePost r /\ ~ isChatPost r) (newCalls s final.2)
     | Throws err =>
         if fallbackEligible err then
           let second :=
             generateMultiple (generateImagesViaGeminiNative env params) count first.2 in
           (exists rest, newCalls first.2 second.2 = nativePost params :: rest)
           /\ match second.1 with
              | Returns images =>
                  images <> [] /\ final = second
                  /\ Forall (fun r => ~ isChatPost r) (newCalls s final.2)
              | Throws _ =>
                  final = generateMultiple (generateImagesViaChatCompletions env params)
                            count second.2
                  /\ exists rest, newCalls second.2 final.2 = chatPost params :: rest
              end
         else
           final = first
           /\ Forall (fun r => ~ isNativePost r /\ ~ isChatPost r) (newCalls s final.2)
     end.
Proof.
  intros Hmode count first final.
  pose proof (effectiveCount_range params) as Hcount. fold count in Hcount.
  assert (Hfinal : final = generateWithFallback env params count s)
    by (unfold final; rewrite (generateImages_auto_mode env params Hmode); reflexivity).
  pose proof (imagesApi_run env params s) as Hfirst. fold first in Hfirst.
  destruct (strategyRun_calls _ _ _ _ Hfirst) as (gets & Hgets & Hnew1 & Ht1).
  assert (Hquiet : Forall (fun r => ~ isNativePost r /\ ~ isChatPost r)
                     (imagesPost params :: gets)).
  { constructor; [cbn; tauto |]. eapply Forall_impl; [exact Hgets |].
    intros r Hr. apply isGet_not_post in Hr. tauto. }
  unfold generateWithFallback, tryCatch in Hfinal. fold first in Hfinal.
  split; [| split; [apply fallbackEligible_spec |]].
  - (* the first request *)
    destruct first as [[images | err] s1] eqn:E1; cbn [fst snd] in *.
    + rewrite Hfinal. cbn. eauto.
    + destruct (fallbackEligible err).
      * unfold tryCatch in Hfinal.
        pose proof (talked_generateMultiple env (nativePost params) _ count s1
                      (geminiNative_run env params)) as Ht2.
        destruct (generateMultiple (generateImagesViaGeminiNative env params) count s1)
          as [[imgs | e2] s2] eqn:E2; cbn [snd] in Ht2.
        -- rewrite Hfinal. cbn [snd].
           rewrite (newCalls_trans _ _ _ _ _ Ht1 Ht2), Hnew1. cbn. eauto.
        -- pose proof (talked_generateMultiple env (chatPost params) _ count s2
                         (chatCompletions_run env params)) as Ht3.
           rewrite Hfinal.
           rewrite (newCalls_trans _ _ _ _ _ (talked_trans _ _ _ _ _ Ht1 Ht2) Ht3).
           rewrite (talked_newCalls _ _ _ (talked_trans _ _ _ _ _ Ht1 Ht2)). cbn. eauto.
      * rewrite Hfinal. cbn. eauto.
  - destruct first as [[images | err] s1] eqn:E1; cbn [fst snd] in *.
    + split; [apply (strategyRun_returns _ _ _ _ _ Hfirst) |].
      split; [exact Hfinal |]. rewrite Hfinal. cbn [snd]. rewrite Hnew1. exact Hquiet.
    + destruct (fallbackEligible err).
      * cbn zeta. split.
        { apply (generateMultiple_starts env); [lia | apply geminiNative_run]. }
        unfold tryCatch in Hfinal.
        pose proof (talked_generateMultiple env (nativePost params) _ count s1
                      (geminiNative_run env params)) as Ht2.
        pose proof (nativeCalls_no_chat env params count s1) as Hnochat.
        destruct (generateMultiple (generateImagesViaGeminiNative env params) count s1)
          as [[imgs | e2] s2] eqn:E2; cbn [fst snd] in *.
        -- split.
           { assert (Z.of_nat (length imgs) = count) as Hlen.
             { eapply generateMultiple_exact; [| lia | exact E2].
               apply (strategy_nonempty env (nativePost params)), geminiNative_run. }
             destruct imgs; [cbn in Hlen; lia | discriminate]. }
           split; [exact Hfinal |]. rewrite Hfinal. cbn [snd].
           rewrite (newCalls_trans _ _ _ _ _ Ht1 Ht2), Hnew1. apply Forall_app. split.
           ++ eapply Forall_impl; [exact Hquiet |]. cbn. tauto.
           ++ exact Hnochat.
        -- split; [exact Hfinal |]. rewrite Hfinal.
           apply (generateMultiple_starts env); [lia | apply chatCompletions_run].
      * split; [exact Hfinal |]. rewrite Hfinal. unfold throw. cbn [snd].
        rewrite Hnew1. exact Hquiet.
Qed.

(** C1, at the scenario of the specification: images-generation fails
    with 404, native-generation returns one image, [count = 1]. *)
Lemma auto_fallback_witness :
  imageMode (config (testEnv "auto" nativeOnly)) = "auto"
  /\ (generateImages (testEnv "auto" nativeOnly) (request 1) initialState).1
     = Returns [png "AAAA"]
  /\ Forall (fun r => ~ isChatPost r)
       (newCalls initialState
          (generateImages (testEnv "auto" nativeOnly) (request 1) initialState).2).
Proof.
  split; [reflexivity |].
  destruct (auto_fallback_order (testEnv "auto" nativeOnly) (request 1) initialState eq_refl)
    as (_ & _ & H).
  vm_compute in H. destruct H as (_ & _ & Hfinal & Hquiet).
  split; [vm_compute; reflexivity | exact Hquiet].
Defined.

(** ** Counting the calls of the chat strategy *)









(** ** The count policy *)

Lemma native_exact env params count s images s' :
  0 <= count ->
  generateMultiple (generateImagesViaGeminiNative env params) count s = (Returns images, s') ->
  Z.of_nat (length images) = count.
Proof.
  intros Hc. apply generateMultiple_exact; [| exact Hc].
  apply (strategy_nonempty env (nativePost params)), geminiNative_run.
Qed.

Lemma chat_exact env params count s images s' :
  0 <= count ->
  generateMultiple (generateImagesViaChatCompletions env params) count s = (Returns images, s') ->
  Z.of_nat (length images) = count.
Proof.
  intros Hc. apply generateMultiple_exact; [| exact Hc].
  apply (strategy_nonempty env (chatPost params)), chatCompletions_run.
Qed.

Lemma generateWithFallback_returns env params count s images s' :
  0 <= count ->
  generateWithFallback env params count s = (Returns images, s') ->
  generateImagesViaImagesApi env params s = (Returns images, s')
  \/ (exists err s1, generateImagesViaImagesApi env params s = (Throws err, s1))
     /\ Z.of_nat (length images) = count.
Proof.
  intros Hc. unfold generateWithFallback, tryCatch.
  destruct (generateImagesViaImagesApi env params s) as [[imgs | err] s1] eqn:E1.
  - intros [= <- <-]. left. reflexivity.
  - intros Hrun. right. split; [eauto |].
    destruct (fallbackEligible err); [| discriminate].
    destruct (generateMultiple (generateImagesViaGeminiNative env params) count s1)
      as [[imgs | e2] s2] eqn:E2.
    + injection Hrun as <- <-. eapply native_exact; eauto.
    + eapply chat_exact; eauto.
Qed.

Lemma generateMultiple_throws_last g count s e s' :
  generateMultiple g count s = (Throws e, s') -> exists s0, g s0 = (Throws e, s').
Proof.
  intros Hrun. apply generateMultiple_throws in Hrun as (k & batches & s1 & _ & _ & Hthrow).
  eauto.
Qed.

(** The loop fails exactly when a call fails that the loop reaches: the
    calls before it returned, and left fewer than [count] images. *)
Lemma generateLoop_fails g count iters : forall out s k batches s1 e s',
  (k < iters)%nat ->
  repeatCalls g k s = (Returns batches, s1) ->
  Z.of_nat (length (out ++ concat batches)) < count ->
  g s1 = (Throws e, s') ->
  generateLoop g count iters out s = (Throws e, s').
Proof.
  induction iters as [| i IH]; intros out s k batches s1 e s' Hk Hrep Hlen Hthrow; [lia |].
  cbn [generateLoop]. unfold bind at 1. destruct k as [| k]; cbn [repeatCalls] in Hrep.
  - injection Hrep as <- <-. rewrite Hthrow. reflexivity.
  - unfold bind in Hrep. destruct (g s) as [[batch | e1] sa]; [| discriminate].
    destruct (repeatCalls g k sa) as [[rest | e1] sb] eqn:Hrest; [| discriminate].
    injection Hrep as <- <-. cbn [concat] in Hlen. rewrite app_assoc in Hlen.
    destruct (Z.leb_spec count (Z.of_nat (length (out ++ batch)))) as [Hstop | _].
    + rewrite length_app in Hlen. lia.
    + eapply IH; eauto. lia.
Qed.

Lemma generateLoop_throws_run g count iters : forall out s e s',
  generateLoop g count iters out s = (Throws e, s') ->
  exists k batches s1,
    (k < iters)%nat /\ repeatCalls g k s = (Returns batches, s1)
    /\ ((0 < k)%nat -> Z.of_nat (length (out ++ concat batches)) < count)
    /\ g s1 = (Throws e, s').
Proof.
  induction iters as [| i IH]; intros out s e s' Hrun; cbn in Hrun; [discriminate |].
  unfold bind in Hrun. destruct (g s) as [[batch | e1] sa] eqn:Hg.
  - destruct (Z.leb_spec count (Z.of_nat (length (out ++ batch)))) as [| Hgo]; [discriminate |].
    apply IH in Hrun as (k & batches & s1 & Hk & Hrep & Hlen & Hthrow).
    exists (S k), (batch :: batches), s1. split; [lia |].
    split; [eapply repeatCalls_S; eauto |]. split; [| exact Hthrow].
    intros _. cbn [concat]. rewrite app_assoc. destruct k as [| k].
    + cbn in Hrep. injection Hrep as <- <-. cbn [concat]. rewrite app_nil_r. exact Hgo.
    + apply Hlen. lia.
  - injection Hrun as <- <-. exists O, [], s.
    split; [lia |]. split; [reflexivity |]. split; [lia | exact Hg].
Qed.

Lemma generateMultiple_fails_iff g count s e s' :
  generateMultiple g count s = (Throws e, s') <-> failsInRun g count s e s'.
Proof.
  unfold generateMultiple, bind, failsInRun. split.
  - intros Hrun.
    destruct (generateLoop g count (Z.to_nat count) [] s) as [[out | e1] s1] eqn:Hloop;
      [discriminate |].
    injection Hrun as <- <-.
    apply generateLoop_throws_run in Hloop as (k & batches & s2 & Hk & Hrep & Hlen & Hthrow).
    exists k, batches, s2. split; [lia |]. split; [exact Hrep |]. split; [| exact Hthrow].
    destruct k as [| k]; [| apply Hlen; lia].
    cbn in Hrep. injection Hrep as <- <-. cbn. lia.
  - intros (k & batches & s1 & Hk & Hrep & Hlen & Hthrow).
    rewrite (generateLoop_fails g count (Z.to_nat count) [] s k batches s1 e s');
      [reflexivity | lia | exact Hrep | exact Hlen | exact Hthrow].
Qed.

Lemma positive_length_nonempty {A} (l : list A) count :
  1 <= count -> Z.of_nat (length l) = count -> l <> [].
Proof. intros Hc Hl ->. cbn in Hl. lia. Qed.

(** The dispatch of [generateImages] on [config.imageMode]. *)
Lemma generateImages_dispatch env params :
  let mode := imageMode (config env) in
  let count := effectiveCount params in
  (mode = "gemini"
   /\ generateImages env params
      = generateMultiple (generateImagesViaGeminiNative env params) count)
  \/ ((mode = "openai" \/ mode = "images")
      /\ generateImages env params = generateImagesViaImagesApi env params)
  \/ (mode = "auto" /\ generateImages env params = generateWithFallback env params count)
  \/ ((mode <> "gemini" /\ mode <> "openai" /\ mode <> "images" /\ mode <> "auto")
      /\ generateImages env params
         = generateMultiple (generateImagesViaChatCompletions env params) count).
Proof.
  intros mode count. unfold generateImages. fold mode. fold count.
  destruct (String.eqb_spec mode "gemini") as [Hg | Hg]; [left; auto |].
  destruct (String.eqb_spec mode "openai") as [Ho | Ho]; [right; left; auto |].
  destruct (String.eqb_spec mode "images") as [Hi | Hi]; [right; left; auto |].
  destruct (String.eqb_spec mode "auto") as [Ha | Ha]; [right; right; left; auto |].
  right; right; right. auto.
Qed.

(** C2 (as amended). With [count] the requested number clamped into
    1..4: [generateImages] never returns an empty sequence; in the modes
    gemini and chat, and in mode auto once the images-generation attempt
    has failed, it returns exactly [count] images.  A call of a strategy
    returns at least one image or throws; it throws [HttpError] only for
    an answer that is not 2xx, so a 2xx answer without a recognizable
    image gives a plain [Error].  In every mode but auto the error of a
    strategy call is the error of [generateImages]: in mode images it
    fails exactly when its one call fails, in the modes gemini and chat
    exactly when a call fails that is made while fewer than [count]
    images are collected, with that error and in the state that the call
    left.  In mode auto an answer of the images-generation call is
    returned as it is, and its error is rethrown unless it is an
    [HttpError] 404 or 400; after such an error the images of the native
    run are returned, and an error of the native run, whatever it is, is
    caught: the result is then the result of the chat-completions
    run. *)
Theorem count_policy env params s :
  let mode := imageMode (config env) in
  let count := effectiveCount params in
  let final := generateImages env params s in
  let imagesApi := generateImagesViaImagesApi env params in
  let native := generateImagesViaGeminiNative env params in
  let chat := generateImagesViaChatCompletions env params in
  let outcome := fun (post : Request) (s0 : State) (run : Outcome (list ImageResult) * State) =>
    match run.1 with
    | Returns images => images <> []
    | Throws (HttpError st _) =>
        exists r, upstream env (calls s0) post = Responded r /\ ok r = false /\ st = status r
    | Throws (Error _) => True
    end in
  1 <= count <= 4
  /\ (forall images, final.1 = Returns images ->
        images <> []
        /\ (mode <> "openai" -> mode <> "images" ->
            (mode = "auto" -> exists err, (imagesApi s).1 = Throws err) ->
            Z.of_nat (length images) = count))
  /\ (forall s0,
        outcome (imagesPost params) s0 (imagesApi s0)
        /\ outcome (nativePost params) s0 (native s0)
        /\ outcome (chatPost params) s0 (chat s0))
  /\ (mode <> "auto" -> forall e, final.1 = Throws e ->
        exists s0,
          imagesApi s0 = (Throws e, final.2)
          \/ native s0 = (Throws e, final.2)
          \/ chat s0 = (Throws e, final.2))
  /\ (mode = "gemini" ->
      forall e s', final = (Throws e, s') <-> failsInRun native count s e s')
  /\ (mode = "openai" \/ mode = "images" ->
      forall e s', final = (Throws e, s') <-> imagesApi s = (Throws e, s'))
  /\ (mode <> "gemini" -> mode <> "openai" -> mode <> "images" -> mode <> "auto" ->
      forall e s', final = (Throws e, s') <-> failsInRun chat count s e s')
  /\ (mode = "auto" ->
      (forall images s', imagesApi s = (Returns images, s') -> final = (Returns images, s'))
      /\ forall err s1,
           imagesApi s = (Throws err, s1) ->
           (fallbackEligible err = false -> final = (Throws err, s1))
           /\ (fallbackEligible err = true ->
               (forall images s2,
                   generateMultiple native count s1 = (Returns images, s2) ->
                   final = (Returns images, s2))
               /\ (forall e2 s2,
                     failsInRun native count s1 e2 s2 ->
                     final = generateMultiple chat count s2))).
Proof.
  intros mode count final imagesApi native chat outcome.
  pose proof (effectiveCount_range params) as Hcount. fold count in Hcount.
  assert (Hpos : 0 <= count) by lia.
  assert (Hout : forall post s0 run, strategyRun env post s0 run -> outcome post s0 run).
  { intros post s0 run (gets & _ & _ & Ho). unfold outcome.
    destruct (run.1) as [images | [st m | m]]; [tauto | | exact I].
    destruct Ho as (_ & r & Hr). eauto. }
  pose proof (generateImages_dispatch env params) as Hdispatch.
  cbv zeta in Hdispatch. fold mode count imagesApi native chat in Hdispatch.
  assert (Hstr : forall a b : string, a = b -> a <> b -> False) by (intros a b -> H; apply H; reflexivity).
  split; [exact Hcount |].
  split; [| split; [| split; [| split; [| split; [| split]]]]].
  - (* what is returned *)
    intros images Himages.
    destruct final as [o s'] eqn:Efinal. cbn [fst] in Himages. subst o.
    unfold final in Efinal.
    destruct Hdispatch as [[Hm Heq] | [[Hm Heq] | [[Hm Heq] | [Hm Heq]]]];
      rewrite Heq in Efinal.
    + apply native_exact in Efinal; [| exact Hpos].
      split; [eapply positive_length_nonempty; eauto; lia | auto].
    + pose proof (imagesApi_run env params s) as Hrun. fold imagesApi in Hrun.
      rewrite Efinal in Hrun.
      split; [apply (strategyRun_returns _ _ _ _ _ Hrun) | intros; tauto].
    + apply generateWithFallback_returns in Efinal as [Hfirst | [_ Hlen]]; [| | exact Hpos].
      * pose proof (imagesApi_run env params s) as Hrun. rewrite Hfirst in Hrun.
        split; [apply (strategyRun_returns _ _ _ _ _ Hrun) |].
        intros _ _ Hfailed. destruct (Hfailed Hm) as [err Herr].
        unfold imagesApi in Herr. rewrite Hfirst in Herr. discriminate.
      * split; [eapply positive_length_nonempty; eauto; lia | auto].
    + apply chat_exact in Efinal; [| exact Hpos].
      split; [eapply positive_length_nonempty; eauto; lia | auto].
  - (* what a strategy call does *)
    intros s0. repeat split; apply Hout;
      [apply imagesApi_run | apply geminiNative_run | apply chatCompletions_run].
  - (* what is thrown *)
    intros Hnotauto e He.
    destruct final as [o s'] eqn:Efinal. cbn [fst snd] in *. subst o.
    unfold final in Efinal.
    destruct Hdispatch as [[Hm Heq] | [[Hm Heq] | [[Hm Heq] | [Hm Heq]]]];
      rewrite Heq in Efinal.
    + apply generateMultiple_throws_last in Efinal as (s0 & Hs0). eauto.
    + eauto.
    + contradiction.
    + apply generateMultiple_throws_last in Efinal as (s0 & Hs0). eauto 6.
  - (* mode gemini *)
    intros Hmode e s'. unfold final.
    destruct Hdispatch as [[Hm Heq] | [[[Hm | Hm] Heq] | [[Hm Heq] | [(Hm & _) Heq]]]];
      try (exfalso; rewrite Hmode in Hm; discriminate Hm); try (exfalso; apply Hm, Hmode).
    rewrite Heq. apply generateMultiple_fails_iff.
  - (* mode images *)
    intros Hmode e s'. unfold final.
    destruct Hdispatch as [[Hm Heq] | [[Hm Heq] | [[Hm Heq] | [(Hg & Ho & Hi & Ha) Heq]]]].
    + exfalso. destruct Hmode as [H | H]; rewrite H in Hm; discriminate Hm.
    + rewrite Heq. reflexivity.
    + exfalso. destruct Hmode as [H | H]; rewrite H in Hm; discriminate Hm.
    + exfalso. destruct Hmode as [H | H]; [apply Ho, H | apply Hi, H].
  - (* the other modes: chat *)
    intros Hg Ho Hi Ha e s'. unfold final.
    destruct Hdispatch as [[Hm Heq] | [[[Hm | Hm] Heq] | [[Hm Heq] | [_ Heq]]]];
      try contradiction.
    rewrite Heq. apply generateMultiple_fails_iff.
  - (* mode auto *)
    intros Hmode.
    assert (Heq : generateImages env params = generateWithFallback env params count).
    { destruct Hdispatch as [[Hm Heq] | [[[Hm | Hm] Heq] | [[Hm Heq] | [(_ & _ & _ & Hm) Heq]]]];
        try (exfalso; rewrite Hmode in Hm; discriminate Hm); try (exfalso; apply Hm, Hmode).
      exact Heq. }
    unfold final. rewrite Heq. unfold generateWithFallback, tryCatch.
    fold imagesApi native chat. split.
    + intros images s' Hrun. rewrite Hrun. reflexivity.
    + intros err s1 Hrun. rewrite Hrun. split.
      * intros Hno. rewrite Hno. reflexivity.
      * intros Hyes. rewrite Hyes. split.
        -- intros images s2 Hnative. rewrite Hnative. reflexivity.
        -- intros e2 s2 Hfail. apply generateMultiple_fails_iff in Hfail.
           rewrite Hfail. reflexivity.
Qed.

(** C2 (as amended), at concrete requests.  Two images asked from a
    chat route that answers with one image per call: two are returned.
    In mode gemini, a native route that answers 200 without an image:
    the error of that call is the error of [generateImages].  In mode
    auto, the same endpoint: images-generation answers 404, the error of
    the native call is caught, and the result is the result of the
    chat-completions run. *)
Lemma count_policy_witness :
  (imageMode (config (testEnv "chat" oneImagePerCall)) <> "openai"
   /\ imageMode (config (testEnv "chat" oneImagePerCall)) <> "images"
   /\ exists images,
        (generateImages (testEnv "chat" oneImagePerCall) (request 2) initialState).1
        = Returns images
        /\ images <> [] /\ Z.of_nat (length images) = 2)
  /\ (exists e s',
        generateImagesViaGeminiNative (testEnv "gemini" emptyNative) (request 2) initialState
        = (Throws e, s')
        /\ generateImages (testEnv "gemini" emptyNative) (request 2) initialState
           = (Throws e, s'))
  /\ (exists s2,
        generateImages (testEnv "auto" emptyNative) (request 1) initialState
        = generateMultiple
            (generateImagesViaChatCompletions (testEnv "auto" emptyNative) (request 1)) 1 s2
        /\ calls s2 = [imagesPost (request 1); nativePost (request 1)]).
Proof.
  split; [| split].
  - split; [discriminate |]. split; [discriminate |].
    destruct (count_policy (testEnv "chat" oneImagePerCall) (request 2) initialState)
      as (_ & H & _).
    exists [png "AAAA"; png "AAAA"]. split; [vm_compute; reflexivity |].
    destruct (H [png "AAAA"; png "AAAA"]) as [Hne Hlen]; [vm_compute; reflexivity |].
    split; [exact Hne |]. apply Hlen; discriminate.
  - destruct (count_policy (testEnv "gemini" emptyNative) (request 2) initialState)
      as (_ & _ & _ & _ & H & _).
    eexists _, _. split; [vm_compute; reflexivity |].
    apply (H eq_refl). exists O, [], initialState.
    split; [vm_compute; reflexivity |]. split; [reflexivity |].
    split; [vm_compute; reflexivity |]. vm_compute. reflexivity.
  - destruct (count_policy (testEnv "auto" emptyNative) (request 1) initialState)
      as (_ & _ & _ & _ & _ & _ & _ & H).
    destruct (H eq_refl) as [_ Hfailed].
    edestruct Hfailed as [_ Hcaught]; [vm_compute; reflexivity |].
    destruct (Hcaught eq_refl) as [_ Hchat].
    eexists. split.
    + eapply Hchat. eexists O, [], _.
      split; [vm_compute; reflexivity |]. split; [reflexivity |].
      split; [vm_compute; reflexivity |]. vm_compute. reflexivity.
    + reflexivity.
Defined.

(** C2, as stated, fails.  (1) In mode images the answer of the endpoint
    is returned whole: two images for a requested count of 1.  (2) In
    mode auto the native call below is answered 200 with no image in
    it, and the adapter does not fail: it goes on to chat-completions
    and returns its image.  (3) A requested count of 0 is served as a
    count of 1. *)
Lemma count_policy_counterexample :
  ((generateImages (testEnv "images" twoImages) (request 1) initialState).1
   = Returns [png "AAAA"; png "BBBB"]
   /\ p_n (request 1) = 1)
  /\ (upstream (testEnv "auto" emptyNative)
        [imagesPost (request 1)] (nativePost (request 1))
      = answer 200 (Some (nativeBody []))
      /\ parseGeminiResponse (nativeBody []) = []
      /\ generateImages (testEnv "auto" emptyNative) (request 1) initialState
         = (Returns [png "CCCC"],
            set_calls [imagesPost (request 1); nativePost (request 1); chatPost (request 1)]
              initialState))
  /\ (generateImages (testEnv "chat" oneImagePerCall) (request 0) initialState).1
     = Returns [png "AAAA"].
Proof. vm_compute. repeat split. Qed.

(* ================================================================== *)
(** * The session store                                                *)
(* ================================================================== *)

Lemma sliceLast_length {A} n (l : list A) : (length (Js.sliceLast n l) <= n)%nat.
Proof. unfold Js.sliceLast. rewrite length_drop. lia. Qed.

Lemma sliceLast_short {A} n (l : list A) : (length l <= n)%nat -> Js.sliceLast n l = l.
Proof.
  intros H. unfold Js.sliceLast. replace (length l - n)%nat with O by lia. reflexivity.
Qed.

Lemma sliceLast_suffix {A} n (l : list A) :
  l = take (length l - n) l ++ Js.sliceLast n l.
Proof. unfold Js.sliceLast. symmetry. apply take_drop. Qed.

Lemma updateSessionObject_capped now session userContent images :
  (length (messages (updateSessionObject now session userContent images)) <= historyCap)%nat.
Proof.
  cbn [updateSessionObject messages].
  destruct (historyCap <? _)%nat eqn:H.
  - apply sliceLast_length.
  - apply Nat.ltb_ge in H. exact H.
Qed.

Section StoreFacts.

Variable env : Env.

Lemma saveSessionToFile_sessions session s :
  sessions (saveSessionToFile env session s) = sessions s.
Proof.
  unfold saveSessionToFile.
  destruct (negb (sessionPersistEnabled (config env))); [reflexivity |].
  destruct (extractMessageImages env _ _ _) as [processed ex].
  destruct (saveImageToFile env _ _ _) as [ref files].
  destruct (writable env _); reflexivity.
Qed.

Lemma updateSession_object key userContent images s session :
  sessions s !! key = Some session ->
  sessions (updateSession env key userContent images s).2 !! key
  = Some (updateSessionObject (clock s) session userContent images).
Proof.
  intros Hkey. unfold updateSession, modify, session_at. cbn [snd]. rewrite Hkey.
  rewrite saveSessionToFile_sessions. cbn. apply lookup_insert_eq.
Qed.

End StoreFacts.

(** C5 (as amended). In the session module with persistence: after
    every update the history holds at most
    [2 * SESSION_MAX_HISTORY = 20] messages, whatever it held before;
    what is kept is the end of the history with the new messages
    appended, so the messages dropped are the oldest ones, and nothing
    is dropped unless the cap is reached.  The same holds after each
    update of any sequence of updates.  [updateSession] leaves that
    very session object in the store: the history of the session held
    under the key is the end of the history held before with the new
    messages appended, at most 20 long, and nothing is dropped unless
    20 are kept.  The earlier module has no cap: its [updateSession]
    appends the new messages and drops nothing. *)
Theorem history_capped :
  historyCap = 20%nat
  /\ (forall now session userContent images,
        let session' := updateSessionObject now session userContent images in
        (length (messages session') <= historyCap)%nat
        /\ exists dropped,
             messages session ++ pushed userContent images = dropped ++ messages session'
             /\ (dropped <> [] -> length (messages session') = historyCap))
  /\ (forall session us u,
        (length (messages (applyUpdates session (us ++ [u]))) <= historyCap)%nat)
  /\ (forall env key userContent images s session,
        sessions s !! key = Some session ->
        exists session' dropped,
          sessions (updateSession env key userContent images s).2 !! key = Some session'
          /\ session' = updateSessionObject (clock s) session userContent images
          /\ (length (messages session') <= historyCap)%nat
          /\ messages session ++ pushed userContent images = dropped ++ messages session'
          /\ (dropped <> [] -> length (messages session') = historyCap))
  /\ (forall session us,
        messages (applyLegacyUpdates session us)
        = messages session ++ concat (map (fun u => Legacy.pushed u.1.2 u.2) us)).
Proof.
  assert (Hobject : forall now session userContent images,
            let session' := updateSessionObject now session userContent images in
            (length (messages session') <= historyCap)%nat
            /\ exists dropped,
                 messages session ++ pushed userContent images = dropped ++ messages session'
                 /\ (dropped <> [] -> length (messages session') = historyCap)).
  { intros now session userContent images session'.
    split; [apply updateSessionObject_capped |].
    subst session'. cbn [updateSessionObject messages].
    set (msgs := messages session ++ pushed userContent images).
    destruct (historyCap <? length msgs)%nat eqn:H.
    + exists (take (length msgs - historyCap) msgs). split; [apply sliceLast_suffix |].
      intros _. apply Nat.ltb_lt in H. unfold Js.sliceLast. rewrite length_drop. lia.
    + exists []. split; [reflexivity | congruence]. }
  split; [reflexivity |]. split; [exact Hobject |]. split; [| split].
  - intros session us u. unfold applyUpdates. rewrite fold_left_app. cbn [fold_left].
    apply updateSessionObject_capped.
  - intros env key userContent images s session Hkey.
    destruct (Hobject (clock s) session userContent images) as (Hlen & dropped & Heq & Hcap).
    exists (updateSessionObject (clock s) session userContent images), dropped.
    split; [apply updateSession_object; exact Hkey |]. auto.
  - intros session us. revert session. unfold applyLegacyUpdates.
    induction us as [| u us IH]; intros session; cbn [fold_left map concat].
    + rewrite app_nil_r. reflexivity.
    + rewrite IH. cbn [Legacy.updateSession messages]. rewrite app_assoc. reflexivity.
Qed.

(** C5 (as amended), at a session of 25 messages: one update leaves the
    last 20 of the 27, the seven oldest are dropped. *)
Lemma history_capped_witness :
  sessions longState !! "abc" = Some longSession
  /\ exists session',
       sessions (updateSession (testEnv "chat" oneImagePerCall) "abc"
                   (ContentText "make it blue") [png "AAAA"] longState).2 !! "abc"
       = Some session'
       /\ length (messages session') = 20%nat
       /\ messages longSession ++ pushed (ContentText "make it blue") [png "AAAA"]
          = take 7 (messages longSession) ++ messages session'.
Proof.
  split; [reflexivity |].
  destruct history_capped as (_ & _ & _ & H & _).
  destruct (H (testEnv "chat" oneImagePerCall) "abc" (ContentText "make it blue")
              [png "AAAA"] longState longSession eq_refl)
    as (session' & dropped & Hlook & -> & _).
  eexists. split; [exact Hlook |]. split; reflexivity.
Defined.

(** C5, as stated, fails for the earlier module, which the claim cites
    too: eleven turns, each answered with one image, leave 22 messages
    in a session that was empty, two more than the cap. *)
Lemma legacy_history_counterexample :
  length (messages (applyLegacyUpdates newSession elevenTurns)) = 22%nat
  /\ (historyCap < length (messages (applyLegacyUpdates newSession elevenTurns)))%nat
  /\ length (messages (applyUpdates newSession elevenTurns)) = 20%nat.
Proof. vm_compute. repeat split; lia. Qed.

(** ** Persisting and reloading *)

Section Persistence.

Variable env : Env.

Lemma extractParts_length sessionId l : forall st,
  length (extractParts env sessionId l st).1 = length l.
Proof.
  induction l as [| p r IH]; intros st; cbn; [reflexivity |].
  destruct (extractPart env sessionId p st) as [p' st1].
  specialize (IH st1). destruct (extractParts env sessionId r st1) as [r' st2].
  cbn in *. congruence.
Qed.

Lemma extractMessages_length sessionId l : forall st,
  length (extractMessages env sessionId l st).1 = length l.
Proof.
  induction l as [| msg r IH]; intros st; cbn; [reflexivity |].
  destruct (content msg) as [t | ps].
  - specialize (IH st). destruct (extractMessages env sessionId r st) as [r' st2].
    cbn in *. congruence.
  - destruct (extractParts env sessionId ps st) as [ps' st1].
    specialize (IH st1). destruct (extractMessages env sessionId r st1) as [r' st2].
    cbn in *. congruence.
Qed.

Lemma restoreMessageImages_length refs files msgs :
  length (restoreMessageImages refs files msgs) = length msgs.
Proof. unfold restoreMessageImages. apply length_map. Qed.

Lemma append_truthy a c b : Js.truthy (a +:+ String c b) = true.
Proof. destruct a; reflexivity. Qed.

Lemma pathJoin_truthy dir name : Js.truthy (pathJoin dir name) = true.
Proof. unfold pathJoin. apply append_truthy. Qed.

Lemma orDefault_keeps s d : Js.truthy s = true -> orDefault s d = s.
Proof. unfold orDefault. intros ->. reflexivity. Qed.

(** What [saveSessionToFile] leaves on a disk that accepts every write,
    read back by [loadSessionFromFile]. *)
Lemma save_then_load session s :
  sessionPersistEnabled (config env) = true ->
  (forall p, writable env p = true) ->
  (length (messages session) <= historyCap)%nat ->
  (forall img, lastImage session = Some img -> typed img) ->
  exists reloaded,
    loadSessionFromFile env (id session) (saveSessionToFile env session s) = Some reloaded
    /\ length (messages reloaded) = length (messages session)
    /\ mimeType <$> lastImage reloaded = mimeType <$> lastImage session.
Proof.
  intros Hpersist Hwrite Hcap Htyped.
  unfold saveSessionToFile, loadSessionFromFile. rewrite Hpersist. cbn [negb].
  rewrite (sliceLast_short _ _ Hcap).
  pose proof (extractMessages_length (id session) (messages session)
                (mkExtract O [] (imageFiles s))) as Hlen.
  unfold extractMessageImages.
  destruct (extractMessages env (id session) (messages session) _) as [processed ex].
  cbn [fst] in Hlen.
  unfold saveImageToFile. rewrite Hpersist, !Hwrite. cbn [negb].
  destruct (lastImage session) as [img |] eqn:Hlast.
  - cbn [sessionFiles imageFiles set_sessionFiles set_imageFiles].
    rewrite lookup_insert_eq. eexists. split; [reflexivity |].
    cbn [messages lastImage fileMessages messageImageRefs lastImageRef].
    split.
    + destruct (imageRefs ex); [exact Hlen |].
      rewrite restoreMessageImages_length. exact Hlen.
    + unfold loadImageFromFile. cbn [path refMimeType].
      unfold getSessionImagePath. rewrite pathJoin_truthy. cbn [negb].
      rewrite lookup_insert_eq. cbn.
      rewrite orDefault_keeps; [reflexivity |]. apply Htyped. reflexivity.
  - cbn [sessionFiles imageFiles set_sessionFiles set_imageFiles].
    rewrite lookup_insert_eq. eexists. split; [reflexivity |].
    cbn [messages lastImage fileMessages messageImageRefs lastImageRef fileLastImage].
    split; [| reflexivity].
    destruct (imageRefs ex); [exact Hlen |].
    rewrite restoreMessageImages_length. exact Hlen.
Qed.

End Persistence.

(** C6. With persistence enabled and a disk that accepts the writes,
    [updateSession] followed by a reload of the session from its file
    gives a session with as many messages as the one in memory and a
    [lastImage] of the same MIME type ([None] for both when there is no
    last image).  The images are those of the data model: their MIME
    type is not empty, which holds for every image the adapter returns
    and every image read back from a file. *)
Theorem update_then_reload env key userContent images s session :
  sessionPersistEnabled (config env) = true ->
  (forall p, writable env p = true) ->
  sessions s !! key = Some session ->
  Forall typed images ->
  (forall img, lastImage session = Some img -> typed img) ->
  let s' := (updateSession env key userContent images s).2 in
  exists inMemory reloaded,
    sessions s' !! key = Some inMemory
    /\ loadSessionFromFile env (id inMemory) s' = Some reloaded
    /\ length (messages reloaded) = length (messages inMemory)
    /\ mimeType <$> lastImage reloaded = mimeType <$> lastImage inMemory.
Proof.
  intros Hpersist Hwrite Hkey Himages Hlast s'.
  set (inMemory := updateSessionObject (clock s) session userContent images).
  assert (Hs' : s' = saveSessionToFile env inMemory
                       (set_sessions (<[key := inMemory]> (sessions s)) s)).
  { unfold s', updateSession, modify, session_at. cbn [snd]. rewrite Hkey. reflexivity. }
  destruct (save_then_load env inMemory (set_sessions (<[key := inMemory]> (sessions s)) s)
              Hpersist Hwrite) as (reloaded & Hload & Hlen & Hmime).
  - apply updateSessionObject_capped.
  - intros img. unfold inMemory. cbn [updateSessionObject lastImage].
    destruct images as [| firstImage rest].
    + apply Hlast.
    + intros [= <-]. inversion Himages; assumption.
  - exists inMemory, reloaded. rewrite Hs'.
    split; [rewrite saveSessionToFile_sessions; cbn; apply lookup_insert_eq |].
    auto.
Qed.

(** Every image that [generateImages] returns has a MIME type. *)
Lemma Does_generateImages env params :
  Does (fun _ => True) anyExn (Forall typed) (generateImages env params).
Proof.
  assert (Hs : forall post g, (forall s, strategyRun env post s (g s)) ->
                              Does (fun _ => True) anyExn (Forall typed) g).
  { intros post g Hg. eapply Does_weaken; [| | | apply (strategy_Does env post g Hg)]; auto. }
  pose proof (Hs _ _ (imagesApi_run env params)) as H1.
  pose proof (Hs _ _ (geminiNative_run env params)) as H2.
  pose proof (Hs _ _ (chatCompletions_run env params)) as H3.
  destruct (generateImages_dispatch env params)
    as [[_ ->] | [[_ ->] | [[_ ->] | [_ ->]]]].
  - apply Does_generateMultiple, H2.
  - exact H1.
  - unfold generateWithFallback. eapply Does_tryCatch; [exact H1 |].
    intros err _. destruct (fallbackEligible err).
    + eapply Does_tryCatch; [apply Does_generateMultiple, H2 |].
      intros e _. apply Does_generateMultiple, H3.
    + apply Does_throw. exact I.
  - apply Does_generateMultiple, H3.
Qed.

Lemma generateImages_typed env params s images s' :
  generateImages env params s = (Returns images, s') -> Forall typed images.
Proof.
  intros Hrun. destruct (Does_run _ _ _ _ _ _ _ (Does_generateImages env params) Hrun)
    as (_ & _ & H). exact H.
Qed.

(** C6, at a session of 25 messages updated with one produced image:
    20 messages and an [image/png] last image, in memory and reloaded. *)
Lemma update_then_reload_witness :
  sessionPersistEnabled (config (testEnv "chat" oneImagePerCall)) = true
  /\ sessions longState !! "abc" = Some longSession
  /\ exists inMemory reloaded,
       sessions (updateSession (testEnv "chat" oneImagePerCall) "abc"
                   (ContentText "make it blue") [png "AAAA"] longState).2 !! "abc"
       = Some inMemory
       /\ loadSessionFromFile (testEnv "chat" oneImagePerCall) (id inMemory)
            (updateSession (testEnv "chat" oneImagePerCall) "abc"
               (ContentText "make it blue") [png "AAAA"] longState).2
          = Some reloaded
       /\ length (messages reloaded) = length (messages inMemory)
       /\ mimeType <$> lastImage reloaded = mimeType <$> lastImage inMemory.
Proof.
  split; [reflexivity |]. split; [reflexivity |].
  apply (update_then_reload (testEnv "chat" oneImagePerCall) "abc"
           (ContentText "make it blue") [png "AAAA"] longState longSession).
  - reflexivity.
  - intros p. reflexivity.
  - reflexivity.
  - repeat constructor.
  - discriminate.
Defined.

(** ** Resolving a session *)

Section Resolve.

Variable env : Env.

(** A session id that is held in memory is resolved to the session
    object held, refreshed; its age is not looked at. *)
Lemma getOrCreateSession_memory sid session s :
  Js.truthy sid = true ->
  sessions s !! sid = Some session ->
  getOrCreateSession env (Some sid) s
  = (Returns (sid, touch (clock s) session),
     set_sessions (<[sid := touch (clock s) session]> (sessions s)) s).
Proof.
  intros Hsid Hmem. unfold getOrCreateSession, bind, get. rewrite Hsid. cbn [negb].
  rewrite Hmem. reflexivity.
Qed.

Lemma createSession_returns s :
  exists key session s1,
    createSession env s = (Returns (key, session), s1)
    /\ sessions s1 !! key = Some session /\ calls s1 = calls s
    /\ messages session = [] /\ lastImage session = None.
Proof.
  unfold createSession, bind, generateSessionId, get, modify, ret. cbv beta iota zeta.
  eexists _, _, _. split; [reflexivity |].
  rewrite saveSessionToFile_sessions. cbn [sessions set_sessions set_issued].
  rewrite lookup_insert_eq.
  split; [reflexivity |]. split; [| auto].
  unfold saveSessionToFile.
  destruct (negb (sessionPersistEnabled (config env))); [reflexivity |].
  destruct (extractMessageImages env _ _ _) as [processed ex].
  destruct (saveImageToFile env _ _ _) as [ref files].
  destruct (writable env _); reflexivity.
Qed.

Lemma refresh_returns key session s :
  exists session' s1,
    refresh key session s = (Returns (key, session'), s1)
    /\ sessions s1 !! key = Some session' /\ calls s1 = calls s
    /\ messages session' = messages session /\ lastImage session' = lastImage session.
Proof.
  unfold refresh, bind, get, modify, ret. cbv beta iota zeta.
  eexists _, _. split; [reflexivity |]. cbn [sessions set_sessions].
  rewrite lookup_insert_eq. auto.
Qed.

Lemma deleteSessionFile_frame sid s :
  sessions (deleteSessionFile env sid s) = sessions s
  /\ calls (deleteSessionFile env sid s) = calls s.
Proof.
  unfold deleteSessionFile. destruct (negb (sessionPersistEnabled (config env))); auto.
Qed.

(** [getOrCreateSession] never throws, makes no upstream call, and
    returns the session object that the store holds under the key
    returned. *)
Lemma getOrCreateSession_returns sessionId s :
  exists key session s1,
    getOrCreateSession env sessionId s = (Returns (key, session), s1)
    /\ sessions s1 !! key = Some session /\ calls s1 = calls s.
Proof.
  unfold getOrCreateSession, bind at 1, get.
  assert (Hcreate : forall s0, calls s0 = calls s ->
            exists key session s1,
              createSession env s0 = (Returns (key, session), s1)
              /\ sessions s1 !! key = Some session /\ calls s1 = calls s).
  { intros s0 Hs0. destruct (createSession_returns s0) as (k & ses & s1 & H & Hk & Hc & _).
    exists k, ses, s1. rewrite Hc. auto. }
  assert (Hrefresh : forall key session,
            exists key' session' s1,
              refresh key session s = (Returns (key', session'), s1)
              /\ sessions s1 !! key' = Some session' /\ calls s1 = calls s).
  { intros key session. destruct (refresh_returns key session s) as (ses & s1 & H & Hk & Hc & _).
    exists key, ses, s1. auto. }
  destruct sessionId as [sid |]; [| apply Hcreate; reflexivity].
  destruct (negb (Js.truthy sid)); [apply Hcreate; reflexivity |].
  destruct (sessions s !! sid) as [session |]; [apply Hrefresh |].
  destruct (loadSessionFromFile env sid s) as [fileSession |]; [| apply Hcreate; reflexivity].
  destruct (_ <=? _); [apply Hrefresh |].
  unfold bind, modify. apply Hcreate. apply deleteSessionFile_frame.
Qed.

End Resolve.

(* ================================================================== *)
(** * The request orchestrator                                         *)
(* ================================================================== *)

(** C3. For a request that passed the argument checks, with the
    session that [getOrCreateSession] resolved it to: when
    [generateImages] throws, [handleGenerateImage] throws the same
    error, unchanged, and ends in the state the adapter left;
    [updateSession] is not reached.  The store (the sessions in memory,
    the session files and the image files) is as [getOrCreateSession]
    left it, and the session of the request still holds the history that
    was sent upstream and the same [lastImage].  For a session that was
    in memory before the request, and for one that was read from its
    file, these are the history and the [lastImage] it had before the
    request: no user message and no assistant message is appended, and
    the record on disk still reads as before.  The tool call resolves
    to the error result built from that error. *)
Theorem failed_generation_keeps_session env args s key session s1 e s2 :
  accepted env args = true ->
  getOrCreateSession env (a_session_id args) s = (Returns (key, session), s1) ->
  generateImages env (requestParams env args session) s1 = (Throws e, s2) ->
  handleGenerateImage env args s = (Throws e, s2)
  /\ callTool env args s = (Returns (buildErrorResponse e), s2)
  /\ sessions s2 = sessions s1
  /\ sessionFiles s2 = sessionFiles s1
  /\ imageFiles s2 = imageFiles s1
  /\ sessions s2 !! key = Some session
  /\ (forall sid old,
        a_session_id args = Some sid -> Js.truthy sid = true ->
        sessions s !! sid = Some old ->
        key = sid /\ messages session = messages old
        /\ lastImage session = lastImage old)
  /\ (forall sid old,
        a_session_id args = Some sid -> Js.truthy sid = true ->
        sessions s !! sid = None ->
        loadSessionFromFile env sid s = Some old ->
        clock s - lastUsedAt old <= sessionTtlMs (config env) ->
        key = sid /\ messages session = messages old
        /\ lastImage session = lastImage old
        /\ loadSessionFromFile env sid s2 = Some old).
Proof.
  intros Hacc Hget Hgen.
  unfold accepted in Hacc. apply andb_true_iff in Hacc as [Hprompt Hdir].
  apply negb_true_iff in Hdir. unfold requestOutDir in Hdir. cbv zeta in Hdir.
  assert (Hrun : handleGenerateImage env args s = (Throws e, s2)).
  { unfold handleGenerateImage. rewrite Hprompt. cbn [negb].
    unfold bind at 1. rewrite Hget. cbv beta iota zeta. rewrite Hdir.
    unfold bind at 1. fold (requestParams env args session). rewrite Hgen. reflexivity. }
  destruct (Does_run _ _ _ _ _ _ _ (Does_generateImages env _) Hgen)
    as (_ & (_ & Hses & Hfiles & Himgs & _) & _).
  destruct (getOrCreateSession_returns env (a_session_id args) s)
    as (key' & session' & s1' & Hget' & Hlook & _).
  rewrite Hget in Hget'. injection Hget' as <- <- <-.
  split; [exact Hrun |].
  split; [unfold callTool, tryCatch; rewrite Hrun; reflexivity |].
  split; [exact Hses |]. split; [exact Hfiles |]. split; [exact Himgs |].
  split; [rewrite Hses; exact Hlook |]. split.
  - intros sid old Hsid Htruthy Hold.
    rewrite Hsid, (getOrCreateSession_memory env sid old s Htruthy Hold) in Hget.
    injection Hget as <- <- _. auto.
  - intros sid old Hsid Htruthy Hnone Hload Hfresh.
    rewrite Hsid in Hget. unfold getOrCreateSession, bind at 1, get in Hget.
    rewrite Htruthy, Hnone, Hload in Hget. cbn [negb] in Hget.
    destruct (Z.leb_spec (clock s - lastUsedAt old) (sessionTtlMs (config env))); [| lia].
    unfold refresh, bind, get, modify, ret in Hget. injection Hget as <- <- <-.
    split; [reflexivity |]. split; [reflexivity |]. split; [reflexivity |].
    rewrite <- Hload. unfold loadSessionFromFile. rewrite Hfiles, Himgs. reflexivity.
Qed.

(** C3, at a request that continues the session ["abc"] of 25 messages
    against an endpoint that is down. *)
Lemma failed_generation_witness :
  accepted (testEnv "gemini" unreachable) (editArgs (Some "abc") None None) = true
  /\ exists e s2,
       handleGenerateImage (testEnv "gemini" unreachable) (editArgs (Some "abc") None None)
         longState = (Throws e, s2)
       /\ callTool (testEnv "gemini" unreachable) (editArgs (Some "abc") None None) longState
          = (Returns (buildErrorResponse e), s2)
       /\ exists session,
            sessions s2 !! "abc" = Some session
            /\ messages session = messages longSession
            /\ lastImage session = lastImage longSession.
Proof.
  split; [reflexivity |].
  edestruct (failed_generation_keeps_session (testEnv "gemini" unreachable)
               (editArgs (Some "abc") None None) longState)
    as (Hrun & Htool & _ & _ & _ & Hkey & Hold & _);
    [reflexivity | vm_compute; reflexivity | vm_compute; reflexivity |].
  eexists _, _. split; [exact Hrun |]. split; [exact Htool |].
  destruct (Hold "abc" longSession eq_refl eq_refl eq_refl) as (_ & Hm & Hl).
  eexists. split; [exact Hkey |]. split; [exact Hm | exact Hl].
Defined.

(** ** Expiration *)


(** C4. With the default TTL of seven days, a session last used eight
    days ago and still held in memory is returned by
    [getOrCreateSession], under its own id and refreshed, although
    [now - lastUsedAt] exceeds the TTL; the same session found on disk
    only is replaced by a new session with a new id. *)
Theorem stale_session_is_returned :
  sessionTtlMs (config (testEnv "gemini" unreachable))
  < clock staleInMemory - lastUsedAt staleSession
  /\ (getOrCreateSession (testEnv "gemini" unreachable) (Some "abc") staleInMemory).1
     = Returns ("abc", touch eightDays staleSession)
  /\ (getOrCreateSession (testEnv "gemini" unreachable) (Some "abc") staleOnDisk).1
     = Returns ("id0", {| id := "id0"; messages := []; lastImage := None;
                          createdAt := eightDays; lastUsedAt := eightDays |}).
Proof. vm_compute. repeat split. Qed.

(** ** Arguments *)

Lemma parseIntOr_small k :
  1 <= k <= 4 -> parseIntOr (Some (Js.stringOfInt k)) 1 = k.
Proof.
  intros Hk.
  assert (k = 1 \/ k = 2 \/ k = 3 \/ k = 4) as [-> | [-> | [-> | ->]]] by lia;
    vm_compute; reflexivity.
Qed.

Lemma clampInt_id k lo hi : lo <= k <= hi -> clampInt k lo hi = k.
Proof. unfold clampInt. lia. Qed.

(** C9 (as amended). A prompt that is empty once trimmed is answered
    with the error result "参数 prompt 不能为空", with no change of state
    and no upstream call.  The count is never a cause of failure: the
    number used is the argument parsed and clamped into 1..4 (an
    argument that already is in 1..4 is kept), and the request is
    handled exactly as the request that asks for the clamped number. *)
Theorem count_is_clamped env args s :
  let n := clampInt (parseIntOr (a_n args) 1) 1 4 in
  1 <= n <= 4
  /\ (forall k, Js.parseInt (default "" (a_n args)) = Some k -> 1 <= k <= 4 -> n = k)
  /\ handleGenerateImage env args s
     = handleGenerateImage env (withCount args (Some (Js.stringOfInt n))) s
  /\ (parsePrompt (a_prompt args) = "" ->
      handleGenerateImage env args s = (Returns (ErrorResult "参数 prompt 不能为空"), s)).
Proof.
  intros n.
  assert (Hn : 1 <= n <= 4) by (apply clampInt_range; lia).
  split; [exact Hn |]. split; [| split].
  - intros k Hk Hrange. unfold n, parseIntOr. rewrite Hk. apply clampInt_id. exact Hrange.
  - unfold handleGenerateImage. cbn [withCount a_prompt a_session_id a_image a_size a_n
                                      a_output a_outDir].
    fold n. rewrite (parseIntOr_small n Hn), (clampInt_id n 1 4 Hn). reflexivity.
  - intros Hprompt. unfold handleGenerateImage. rewrite Hprompt. reflexivity.
Qed.

(** C9 (as amended), at a request whose prompt is three spaces. *)
Lemma count_is_clamped_witness :
  parsePrompt (a_prompt emptyPromptArgs) = ""
  /\ handleGenerateImage (testEnv "chat" oneImagePerCall) emptyPromptArgs initialState
     = (Returns (ErrorResult "参数 prompt 不能为空"), initialState).
Proof.
  split; [reflexivity |].
  destruct (count_is_clamped (testEnv "chat" oneImagePerCall) emptyPromptArgs initialState)
    as (_ & _ & _ & H).
  apply H. reflexivity.
Defined.

(** C9, as stated, fails: a count of 0 and a count of 100 are not
    rejected; the request is served with 1 image and with 4. *)
Lemma out_of_range_count_counterexample :
  (handleGenerateImage (testEnv "chat" oneImagePerCall)
     (editArgs None None (Some "0")) initialState).1
  = Returns (ContentResult [png "AAAA"] "id0")
  /\ (handleGenerateImage (testEnv "chat" oneImagePerCall)
        (editArgs None None (Some "100")) initialState).1
     = Returns (ContentResult [png "AAAA"; png "AAAA"; png "AAAA"; png "AAAA"] "id0").
Proof. vm_compute. split; reflexivity. Qed.




(* ================================================================== *)
(** * The aspect ratio                                                 *)
(* ================================================================== *)

Lemma firstWithin_first ratio table :
  (Forall (fun e => withinTolerance ratio e.1 = false) table
   /\ firstWithin ratio table = "1:1")
  \/ exists before r value after,
       table = before ++ (r, value) :: after
       /\ Forall (fun e => withinTolerance ratio e.1 = false) before
       /\ withinTolerance ratio r = true
       /\ firstWithin ratio table = value.
Proof.
  induction table as [| [r value] rest IH]; cbn [firstWithin].
  - left. split; [constructor | reflexivity].
  - destruct (withinTolerance ratio r) eqn:Hr.
    + right. exists [], r, value, rest. repeat split; [constructor | exact Hr].
    + destruct IH as [[Hnone Hdefault] | (before & r' & value' & after & -> & Hb & Hr' & Hv)].
      * left. split; [constructor; [exact Hr | exact Hnone] | exact Hdefault].
      * right. exists ((r, value) :: before), r', value', after.
        repeat split; [constructor; [exact Hr | exact Hb] | exact Hr' | exact Hv].
Qed.

Lemma matchSize_truthy size wh : matchSize size = Some wh -> Js.truthy size = true.
Proof. destruct size; [discriminate | reflexivity]. Qed.

(** The loop of [sizeToAspectRatio] answers with the first entry of
    the table whose ratio differs from the ratio of the size by less
    than the tolerance, and with ["1:1"] when there is none or the size
    is not of the form WxH. *)
Lemma sizeToAspectRatio_first_match size :
  (matchSize size = None -> sizeToAspectRatio size = "1:1")
  /\ (forall w h,
        matchSize size = Some (w, h) ->
        let ratio := PrimFloat.div (toNumber w) (toNumber h) in
        (Forall (fun e => withinTolerance ratio e.1 = false) ratioMap
         /\ sizeToAspectRatio size = "1:1")
        \/ exists before r value after,
             ratioMap = before ++ (r, value) :: after
             /\ Forall (fun e => withinTolerance ratio e.1 = false) before
             /\ withinTolerance ratio r = true
             /\ sizeToAspectRatio size = value).
Proof.
  split.
  - intros Hnone. unfold sizeToAspectRatio. rewrite Hnone.
    destruct (negb (Js.truthy size)); reflexivity.
  - intros w h Hsome ratio. unfold sizeToAspectRatio.
    rewrite (matchSize_truthy _ _ Hsome), Hsome. cbn [negb].
    apply firstWithin_first.
Qed.

(** C8. The translation is not the nearest entry: the loop takes the
    first entry within 0.1, and the entry 2:3 comes last, behind 9:16
    and 3:4 whose windows cover its own.  The sizes 1024x1536 and 2x3,
    whose ratio is 2:3 exactly, are translated to 3:4, while their
    mirrors 1536x1024 and 3x2 are translated to 3:2.  Of the seven
    ratios of the table, each is translated to its own entry but 2:3,
    which is translated to 3:4; 650x1000 is translated to 9:16 although
    2:3 is nearer; and no size with sides from 1 to 128 is translated
    to 2:3.  The tolerance is 0.1: 168x100 is within it of 16:9 and
    167x100 is not. *)
Theorem two_thirds_is_never_chosen :
  (sizeToAspectRatio "1024x1536" = "3:4" /\ nearestAspectRatio "1024x1536" = "2:3")
  /\ (sizeToAspectRatio "1536x1024" = "3:2" /\ nearestAspectRatio "1536x1024" = "3:2")
  /\ (sizeToAspectRatio "2x3" = "3:4" /\ sizeToAspectRatio "3x2" = "3:2")
  /\ map (fun e => firstWithin e.1 ratioMap) ratioMap
     = ["1:1"; "16:9"; "9:16"; "4:3"; "3:4"; "3:2"; "3:4"]
  /\ map snd ratioMap = ["1:1"; "16:9"; "9:16"; "4:3"; "3:4"; "3:2"; "2:3"]
  /\ (sizeToAspectRatio "650x1000" = "9:16" /\ nearestAspectRatio "650x1000" = "2:3")
  /\ neverTwoThirds 128 = true
  /\ (sizeToAspectRatio "168x100" = "16:9" /\ sizeToAspectRatio "167x100" = "1:1").
Proof. vm_compute. repeat split. Qed.

(* ================================================================== *)
(** * Further properties of the adapter                                *)
(* ================================================================== *)

Lemma talked_nonempty_first l s s' req :
  talked l s s' -> (exists rest, newCalls s s' = req :: rest) -> l <> [].
Proof.
  intros Ht (rest & Hnew). rewrite (talked_newCalls _ _ _ Ht) in Hnew.
  rewrite Hnew. discriminate.
Qed.

Lemma Does_any {A} P E (Q : A -> Prop) (c : M A) :
  Does P E Q c -> Does (fun _ => True) anyExn anyValue c.
Proof. apply Does_weaken; intros; exact I. Qed.

(** The first request of [generateImages], by mode. *)
Lemma generateImages_starts env params s :
  exists req rest, newCalls s (generateImages env params s).2 = req :: rest.
Proof.
  pose proof (effectiveCount_range params) as Hcount.
  destruct (generateImages_dispatch env params)
    as [[_ ->] | [[_ ->] | [[_ ->] | [_ ->]]]].
  - destruct (generateMultiple_starts env (nativePost params)
                (generateImagesViaGeminiNative env params) (effectiveCount params) s)
      as (rest & H); [lia | apply geminiNative_run |]. eauto.
  - destruct (strategyRun_calls _ _ _ _ (imagesApi_run env params s)) as (gets & _ & H & _).
    eauto.
  - unfold generateWithFallback.
    pose proof (imagesApi_run env params s) as Hfirst.
    destruct (strategyRun_calls _ _ _ _ Hfirst) as (gets & _ & Hnew1 & Ht1).
    assert (Hh : forall err, Does (fun _ => True) anyExn anyValue
              (if fallbackEligible err
               then tryCatch (generateMultiple (generateImagesViaGeminiNative env params)
                                (effectiveCount params))
                      (fun _ => generateMultiple (generateImagesViaChatCompletions env params)
                                  (effectiveCount params))
               else throw err)).
    { intros err. destruct (fallbackEligible err); [| apply Does_throw; exact I].
      apply (Does_tryCatch _ _ _ anyExn).
      - eapply Does_any, Does_generateMultiple, strategy_Does, geminiNative_run.
      - intros e _.
        eapply Does_any, Does_generateMultiple, strategy_Does, chatCompletions_run. }
    unfold tryCatch.
    destruct (generateImagesViaImagesApi env params s) as [[images | err] s1];
      cbn [snd] in *; [eauto |].
    destruct (Hh err s1) as (l & _ & Ht2 & _).
    exists (imagesPost params), (gets ++ l). apply talked_newCalls.
    apply (talked_trans _ _ _ _ _ Ht1 Ht2).
  - destruct (generateMultiple_starts env (chatPost params)
                (generateImagesViaChatCompletions env params) (effectiveCount params) s)
      as (rest & H); [lia | apply chatCompletions_run |]. eauto.
Qed.

(** X1. [generateImages] talks to the endpoint and does nothing else:
    whatever the mode and the outcome, the sessions in memory, the
    session files, the image files and the count of generated ids are
    as before; the log of upstream calls is only extended, by at least
    one request; and every image returned has a non-empty MIME type. *)
Theorem adapter_leaves_store env params s :
  let final := generateImages env params s in
  sessions final.2 = sessions s
  /\ sessionFiles final.2 = sessionFiles s
  /\ imageFiles final.2 = imageFiles s
  /\ issued final.2 = issued s
  /\ (exists req rest, calls final.2 = calls s ++ req :: rest)
  /\ (forall images, final.1 = Returns images -> Forall typed images).
Proof.
  intros final. subst final.
  destruct (generateImages env params s) as [o s'] eqn:Hrun.
  destruct (Does_run _ _ _ _ _ _ _ (Does_generateImages env params) Hrun)
    as (_ & (Hcalls & Hses & Hfiles & Himgs & Hissued) & Ho).
  pose proof (generateImages_starts env params s) as (req & rest & Hnew).
  rewrite Hrun in Hnew. cbn [fst snd] in *.
  repeat split; auto.
  - exists req, rest. rewrite Hcalls, Hnew. reflexivity.
  - intros images ->. exact Ho.
Qed.

(** One call of the native strategy is one [generateContent] request,
    and nothing else. *)
Lemma native_single_request env params s :
  talked [nativePost params] s (generateImagesViaGeminiNative env params s).2.
Proof.
  unfold generateImagesViaGeminiNative, bind at 1, fetchWithTimeout.
  fold (nativePost params). fold (afterCall env (nativePost params) s).
  destruct (upstream env (calls s) (nativePost params)) as [| m | r];
    try apply afterCall_talked.
  destruct (negb (ok r)); [apply afterCall_talked |].
  unfold resJson. destruct (json r) as [j |]; [| apply afterCall_talked].
  unfold bind, ret. destruct (parseGeminiResponse j); apply afterCall_talked.
Qed.

Lemma repeatCalls_same_request post g :
  (forall s, talked [post] s (g s).2) ->
  forall k s batches s',
    repeatCalls g k s = (Returns batches, s') -> talked (replicate k post) s s'.
Proof.
  intros Hg. induction k as [| k IH]; intros s batches s' Hrun; cbn in Hrun.
  - injection Hrun as <- <-. apply talked_refl.
  - unfold bind in Hrun. pose proof (Hg s) as Hone.
    destruct (g s) as [[batch | e] s1]; [| discriminate].
    destruct (repeatCalls g k s1) as [[rest | e] s2] eqn:Er; [| discriminate].
    injection Hrun as <- <-. cbn [snd] in Hone.
    apply (talked_trans [post] _ _ _ _ Hone (IH _ _ _ Er)).
Qed.

(** X2. In mode gemini (the default) [generateImages] repeats one and
    the same [generateContent] request, between 1 and [count] times, and
    issues no other request.  When it returns, it returns exactly
    [count] images; when it throws, the exception is that of the last
    call made, and the calls before it are not retried. *)
Theorem gemini_mode_repeats env params s :
  imageMode (config env) = "gemini" ->
  let count := effectiveCount params in
  let final := generateImages env params s in
  (exists k, (1 <= k <= Z.to_nat count)%nat
             /\ newCalls s final.2 = replicate k (nativePost params))
  /\ (forall images, final.1 = Returns images -> Z.of_nat (length images) = count)
  /\ (forall e, final.1 = Throws e ->
        exists s0, generateImagesViaGeminiNative env params s0 = (Throws e, final.2)).
Proof.
  intros Hmode count final.
  pose proof (effectiveCount_range params) as Hcount. fold count in Hcount.
  assert (Hfinal : final = generateMultiple (generateImagesViaGeminiNative env params) count s).
  { unfold final, generateImages. rewrite Hmode. reflexivity. }
  clearbody final. subst final.
  set (native := generateImagesViaGeminiNative env params).
  destruct (generateMultiple native count s) as [[images | e] s'] eqn:Erun; cbn [fst snd].
  - split; [| split; [| intros e [=]]].
    + apply generateMultiple_returns in Erun as (batches & Hrep & Hk & _ & _ & Hend).
      exists (length batches). split.
      * destruct batches; cbn in *; lia.
      * apply talked_newCalls.
        apply (repeatCalls_same_request _ native (native_single_request env params) _ _ _ _ Hrep).
    + intros images' [= <-]. eapply native_exact; [| exact Erun]. lia.
  - split; [| split; [intros images [=] |]].
    + apply generateMultiple_throws in Erun as (k & batches & s1 & Hk & Hrep & Hthrow).
      exists (S k). split; [lia |]. apply talked_newCalls.
      pose proof (native_single_request env params s1) as Hlast. fold native in Hlast.
      rewrite Hthrow in Hlast. cbn [snd] in Hlast.
      rewrite replicate_S_end.
      apply (talked_trans _ _ _ _ _
               (repeatCalls_same_request _ native (native_single_request env params)
                  _ _ _ _ Hrep) Hlast).
    + intros e' [= <-]. apply generateMultiple_throws_last in Erun. exact Erun.
Qed.

(** X2, at a request for two images from a native route that answers
    each call with one. *)
Lemma gemini_mode_witness :
  imageMode (config (testEnv "gemini" nativeOnly)) = "gemini"
  /\ exists a b,
       (generateImages (testEnv "gemini" nativeOnly) (request 2) initialState).1
       = Returns [a; b]
       /\ Z.of_nat (length [a; b]) = effectiveCount (request 2).
Proof.
  split; [reflexivity |].
  destruct (gemini_mode_repeats (testEnv "gemini" nativeOnly) (request 2) initialState eq_refl)
    as (_ & Hlen & _).
  exists (png "AAAA"), (png "AAAA"). split; [vm_compute; reflexivity |].
  apply Hlen. vm_compute. reflexivity.
Defined.

(** What the images strategy does with the answer to its POST. *)
Lemma imagesApi_rejected env params s r :
  upstream env (calls s) (imagesPost params) = Responded r -> ok r = false ->
  exists m, generateImagesViaImagesApi env params s
            = (Throws (HttpError (status r) m), afterCall env (imagesPost params) s).
Proof.
  intros Hup Hok. unfold generateImagesViaImagesApi, bind at 1, fetchWithTimeout.
  fold (imagesPost params). fold (afterCall env (imagesPost params) s).
  rewrite Hup, Hok. cbn [negb]. unfold throw, httpError. eauto.
Qed.

Lemma imagesApi_unanswered env params s :
  (forall r, upstream env (calls s) (imagesPost params) <> Responded r) ->
  exists m, generateImagesViaImagesApi env params s
            = (Throws (Error m), afterCall env (imagesPost params) s).
Proof.
  intros Hup. unfold generateImagesViaImagesApi, bind at 1, fetchWithTimeout.
  fold (imagesPost params). fold (afterCall env (imagesPost params) s).
  destruct (upstream env (calls s) (imagesPost params)) as [| m | r]; eauto.
  destruct (Hup r eq_refl).
Qed.

(** X3. In the modes openai and images [generateImages] is one call of
    the images-generation strategy: one POST that carries [n] as it was
    given (not clamped), followed only by GETs of image URLs.  It throws
    [HttpError] exactly when the POST is answered with a status outside
    200..299, with that status and without any further request. *)
Theorem images_mode_single_post env params s :
  imageMode (config env) = "openai" \/ imageMode (config env) = "images" ->
  let final := generateImages env params s in
  (exists gets,
      newCalls s final.2
      = PostImagesGenerations (p_model params) (p_prompt params) (p_size params) (p_n params)
          :: gets
      /\ Forall isGet gets)
  /\ (forall st m,
        final.1 = Throws (HttpError st m) ->
        exists r, upstream env (calls s) (imagesPost params) = Responded r
                  /\ ok r = false /\ st = status r
                  /\ newCalls s final.2 = [imagesPost params])
  /\ (forall r,
        upstream env (calls s) (imagesPost params) = Responded r -> ok r = false ->
        exists m, final.1 = Throws (HttpError (status r) m)).
Proof.
  intros Hmode final.
  assert (Hfinal : final = generateImagesViaImagesApi env params s).
  { unfold final. destruct (generateImages_dispatch env params)
      as [[Hm _] | [[_ ->] | [[Hm _] | [(H1 & H2 & H3 & _) _]]]];
      try reflexivity; destruct Hmode as [Hmode | Hmode]; rewrite Hmode in *;
      try discriminate; contradiction. }
  clearbody final. subst final.
  pose proof (imagesApi_run env params s) as Hrun.
  destruct Hrun as (gets & Hgets & Ht & Ho).
  split; [| split].
  - exists gets. split; [apply (talked_newCalls _ _ _ Ht) | exact Hgets].
  - intros st m Hthrow. rewrite Hthrow in Ho. destruct Ho as (-> & r & Hr & Hok & Hst).
    exists r. repeat split; auto. apply (talked_newCalls _ _ _ Ht).
  - intros r Hup Hok. destruct (imagesApi_rejected env params s r Hup Hok) as (m & ->).
    eauto.
Qed.

(** X3, at an endpoint without [/images/generations]. *)
Lemma images_mode_witness :
  imageMode (config (testEnv "images" nativeOnly)) = "images"
  /\ exists m,
       (generateImages (testEnv "images" nativeOnly) (request 3) initialState).1
       = Throws (HttpError 404 m).
Proof.
  split; [reflexivity |].
  destruct (images_mode_single_post (testEnv "images" nativeOnly) (request 3) initialState)
    as (_ & _ & H); [right; reflexivity |].
  apply (H {| status := 404; text := ""; json := None;
              contentType := Some "application/json"; bytes := [] |}); reflexivity.
Defined.

(** X4. In mode auto the fallback depends on the answer to the POST to
    [/images/generations] alone.  Unless that answer has status 404 or
    400, [generateImages] is the images-generation attempt and nothing
    more: a 2xx answer whose images cannot be fetched or are missing, an
    answer with any other status, a timeout and a network failure all
    end the request without a native or chat request.  With status 404
    or 400 the next request is the native one. *)
Theorem auto_fallback_on_status env params s :
  imageMode (config env) = "auto" ->
  let final := generateImages env params s in
  ((forall r, upstream env (calls s) (imagesPost params) = Responded r ->
              status r <> 404 /\ status r <> 400) ->
   final = generateImagesViaImagesApi env params s
   /\ Forall (fun r => ~ isNativePost r /\ ~ isChatPost r) (newCalls s final.2))
  /\ (forall r, upstream env (calls s) (imagesPost params) = Responded r ->
                status r = 404 \/ status r = 400 ->
                exists rest,
                  newCalls s final.2 = imagesPost params :: nativePost params :: rest).
Proof.
  intros Hmode final.
  pose proof (effectiveCount_range params) as Hcount.
  assert (Hfinal : final = generateWithFallback env params (effectiveCount params) s)
    by (unfold final; rewrite (generateImages_auto_mode env params Hmode); reflexivity).
  clearbody final. subst final. unfold generateWithFallback, tryCatch.
  split.
  - intros Hstatus.
    pose proof (imagesApi_run env params s) as (gets & Hgets & Ht & Ho).
    assert (Hquiet : Forall (fun r => ~ isNativePost r /\ ~ isChatPost r)
                       (imagesPost params :: gets)).
    { constructor; [cbn; tauto |]. eapply Forall_impl; [exact Hgets |].
      intros r Hr. apply isGet_not_post in Hr. tauto. }
    destruct (generateImagesViaImagesApi env params s) as [[images | err] s1];
      cbn [fst snd] in *.
    + split; [reflexivity |]. rewrite (talked_newCalls _ _ _ Ht). exact Hquiet.
    + assert (Hno : fallbackEligible err = false).
      { destruct err as [st m | m]; [| reflexivity].
        destruct Ho as (_ & r & Hr & _ & ->). destruct (Hstatus r Hr) as [H4 H0].
        cbn. apply orb_false_iff. split; apply Z.eqb_neq; assumption. }
      rewrite Hno. unfold throw. split; [reflexivity |].
      cbn [snd]. rewrite (talked_newCalls _ _ _ Ht). exact Hquiet.
  - intros r Hup Hstatus.
    assert (Hok : ok r = false).
    { unfold ok. destruct Hstatus as [-> | ->]; reflexivity. }
    destruct (imagesApi_rejected env params s r Hup Hok) as (m & ->).
    assert (Hyes : fallbackEligible (HttpError (status r) m) = true).
    { cbn. apply orb_true_iff. rewrite !Z.eqb_eq. exact Hstatus. }
    rewrite Hyes. unfold tryCatch.
    set (s1 := afterCall env (imagesPost params) s).
    destruct (generateMultiple_starts env (nativePost params)
                (generateImagesViaGeminiNative env params) (effectiveCount params) s1)
      as (rest & Hstart); [lia | apply geminiNative_run |].
    pose proof (talked_generateMultiple env (nativePost params) _ (effectiveCount params) s1
                  (geminiNative_run env params)) as Ht2.
    pose proof (afterCall_talked env (imagesPost params) s) as Ht1. fold s1 in Ht1.
    destruct (generateMultiple (generateImagesViaGeminiNative env params)
                (effectiveCount params) s1) as [[imgs | e2] s2]; cbn [snd] in *.
    + exists rest. rewrite (newCalls_trans _ _ _ _ _ Ht1 Ht2), Hstart.
      rewrite (talked_newCalls _ _ _ Ht1). reflexivity.
    + pose proof (talked_generateMultiple env (chatPost params) _ (effectiveCount params) s2
                    (chatCompletions_run env params)) as Ht3.
      eexists. rewrite (newCalls_trans _ _ _ _ _ (talked_trans _ _ _ _ _ Ht1 Ht2) Ht3).
      rewrite (newCalls_trans _ _ _ _ _ Ht1 Ht2), Hstart.
      rewrite (talked_newCalls _ _ _ Ht1). cbn. reflexivity.
Qed.

(** X4, at an endpoint without [/images/generations]. *)
Lemma auto_fallback_on_status_witness :
  imageMode (config (testEnv "auto" nativeOnly)) = "auto"
  /\ exists rest,
       newCalls initialState
         (generateImages (testEnv "auto" nativeOnly) (request 1) initialState).2
       = imagesPost (request 1) :: nativePost (request 1) :: rest.
Proof.
  split; [reflexivity |].
  destruct (auto_fallback_on_status (testEnv "auto" nativeOnly) (request 1) initialState eq_refl)
    as (_ & H).
  apply (H {| status := 404; text := ""; json := None;
              contentType := Some "application/json"; bytes := [] |});
    [reflexivity | left; reflexivity].
Defined.

(* ================================================================== *)
(** * Data URLs                                                        *)
(* ================================================================== *)

Lemma stripPrefix_app p s : Js.stripPrefix p (p +:+ s) = Some s.
Proof.
  induction p as [| c p IH]; simpl; [reflexivity |].
  rewrite Ascii.eqb_refl. exact IH.
Qed.

Lemma stripPrefix_Some p : forall s r, Js.stripPrefix p s = Some r -> s = p +:+ r.
Proof.
  induction p as [| c p IH]; intros s r; simpl.
  - intros [= ->]. reflexivity.
  - destruct s as [| b s]; [discriminate |].
    destruct (Ascii.eqb_spec c b) as [<- |]; [| discriminate].
    intros H. rewrite (IH _ _ H). reflexivity.
Qed.

Lemma splitAtSemicolon_app m t :
  hasSemicolon m = false -> splitAtSemicolon (m +:+ String ";" t) = Some (m, String ";" t).
Proof.
  induction m as [| c m IH]; simpl;
    [reflexivity |].
  intros H. apply orb_false_iff in H as [Hc Hm]. rewrite Hc, (IH Hm). reflexivity.
Qed.

Lemma splitAtSemicolon_Some s : forall a b,
  splitAtSemicolon s = Some (a, b) ->
  s = a +:+ b /\ hasSemicolon a = false /\ exists t, b = String ";" t.
Proof.
  induction s as [| c s IH]; intros a b; cbn [splitAtSemicolon]; [discriminate |].
  destruct (Ascii.eqb_spec c ";") as [-> | Hc].
  - intros [= <- <-]. eauto.
  - destruct (splitAtSemicolon s) as [[a' b'] |]; [| discriminate].
    intros [= <- <-]. destruct (IH a' b' eq_refl) as (-> & Ha & t & ->).
    repeat split; cbn [hasSemicolon]; eauto.
    apply orb_false_iff. split; [apply Ascii.eqb_neq, Hc | exact Ha].
Qed.

Lemma matchDataUrl_dataUrl mime b64 :
  plainMime mime -> Js.truthy b64 = true ->
  matchDataUrl true (dataUrl mime b64) = Some (mime, b64).
Proof.
  intros [Hm Hs] Hb. unfold matchDataUrl, dataUrl.
  rewrite stripPrefix_app.
  change (";base64," +:+ b64) with (String ";" ("base64," +:+ b64)).
  rewrite (splitAtSemicolon_app _ _ Hs).
  change (String ";" ("base64," +:+ b64)) with (";base64," +:+ b64).
  rewrite stripPrefix_app.
  destruct mime; [discriminate |]. destruct b64; [discriminate |]. reflexivity.
Qed.

Lemma matchDataUrl_Some dotAll s mime b64 :
  matchDataUrl dotAll s = Some (mime, b64) ->
  s = dataUrl mime b64 /\ plainMime mime /\ Js.truthy b64 = true.
Proof.
  unfold matchDataUrl.
  destruct (Js.stripPrefix "data:" s) as [rest |] eqn:Hp; [| discriminate].
  apply stripPrefix_Some in Hp.
  destruct (splitAtSemicolon rest) as [[m tail] |] eqn:Hsplit; [| discriminate].
  apply splitAtSemicolon_Some in Hsplit as (-> & Hm & _).
  destruct m as [| c m]; [discriminate |].
  destruct (Js.stripPrefix ";base64," tail) as [[| c' p] |] eqn:Ht; try discriminate.
  apply stripPrefix_Some in Ht.
  destruct (dotAll || _); [| discriminate].
  intros [= <- <-]. subst. repeat split; assumption.
Qed.

(** X5. [parseDataUrl] accepts exactly the strings
    [data:<mime>;base64,<payload>] whose MIME type is not empty and has
    no [';'] and whose payload is not empty (line breaks in the payload
    included), and gives back the payload unchanged and the MIME type
    trimmed, or [application/octet-stream] when it is blank.  Nothing
    else is parsed: a string that is not of this form gives [null]. *)
Theorem parseDataUrl_round_trip maybeDataUrl parsed :
  parseDataUrl maybeDataUrl = Some parsed
  <-> exists mime,
        default "" maybeDataUrl = dataUrl mime (base64 parsed)
        /\ plainMime mime
        /\ Js.truthy (base64 parsed) = true
        /\ mimeType parsed = orDefault (Js.trim mime) "application/octet-stream".
Proof.
  unfold parseDataUrl. split.
  - destruct (matchDataUrl true (default "" maybeDataUrl)) as [[m b] |] eqn:Hm; [| discriminate].
    intros [= <-]. apply matchDataUrl_Some in Hm as (Hs & Hplain & Hb).
    exists m. cbn [base64 mimeType]. auto.
  - intros (mime & -> & Hplain & Hb & Hmime).
    rewrite (matchDataUrl_dataUrl _ _ Hplain Hb).
    destruct parsed as [b m]. cbn [base64 mimeType] in *. rewrite Hmime. reflexivity.
Qed.

Lemma parseDataUrl_dataUrl mime b64 :
  plainMime mime -> Js.truthy b64 = true ->
  parseDataUrl (Some (dataUrl mime b64))
  = Some {| base64 := b64; mimeType := orDefault (Js.trim mime) "application/octet-stream" |}.
Proof.
  intros Hm Hb. unfold parseDataUrl.
  change (default "" (Some (dataUrl mime b64))) with (dataUrl mime b64).
  rewrite (matchDataUrl_dataUrl _ _ Hm Hb). reflexivity.
Qed.

Lemma historyPart_dataUrl key mime b64 :
  plainMime mime -> Js.truthy b64 = true ->
  historyPart (ImageUrlPart key (dataUrl mime b64))
  = GInlineData b64 (orDefault (Js.trim mime) "application/octet-stream").
Proof.
  intros Hm Hb. unfold historyPart.
  replace (Js.truthy (dataUrl mime b64)) with true by reflexivity.
  rewrite (parseDataUrl_dataUrl _ _ Hm Hb). reflexivity.
Qed.

(** X6. The turn that [updateSession] stores is replayed whole by the
    native strategy: the user message becomes a [user] content with the
    prompt and, when the request had an input image, that image inline;
    the assistant message becomes a [model] content with its caption and
    the first image inline.  The images keep their payload; their MIME
    type comes back trimmed ([application/octet-stream] when blank).
    This needs a payload that is not empty and a MIME type that is not
    empty and holds no [';']. *)
Theorem stored_turn_is_replayed prompt inputImage firstImage others :
  plainMime (mimeType firstImage) -> Js.truthy (base64 firstImage) = true ->
  (forall img, inputImage = Some img ->
               plainMime (mimeType img) /\ Js.truthy (base64 img) = true) ->
  let replayed img :=
    GInlineData (base64 img) (orDefault (Js.trim (mimeType img)) "application/octet-stream") in
  map historyContent (pushed (buildUserContent prompt inputImage) (firstImage :: others))
  = [ {| g_role := "user";
         g_parts := GText prompt :: match inputImage with
                                    | Some img => [replayed img]
                                    | None => []
                                    end |};
      {| g_role := "model";
         g_parts := [ GText ("[已生成 " +:+ pretty (length (firstImage :: others))
                             +:+ " 张图片]");
                      replayed firstImage ] |} ].
Proof.
  intros Hmime Hb Hinput replayed.
  pose proof (historyPart_dataUrl None _ _ Hmime Hb) as H1. unfold dataUrl in H1.
  unfold pushed, assistantMessage, buildUserContent, historyContent.
  destruct inputImage as [img |]; cbn [map role content].
  - destruct (Hinput img eq_refl) as [Hm Hi].
    pose proof (historyPart_dataUrl None _ _ Hm Hi) as H2. unfold dataUrl in H2.
    rewrite H1, H2. reflexivity.
  - rewrite H1. reflexivity.
Qed.

(** X6, at a first turn without input image answered with one PNG. *)
Lemma stored_turn_witness :
  plainMime (mimeType (png "AAAA"))
  /\ map historyContent (pushed (buildUserContent "a red circle" None) [png "AAAA"])
     = [ {| g_role := "user"; g_parts := [GText "a red circle"] |};
         {| g_role := "model";
            g_parts := [ GText "[已生成 1 张图片]"; GInlineData "AAAA" "image/png" ] |} ].
Proof.
  split; [split; reflexivity |].
  apply (stored_turn_is_replayed "a red circle" None (png "AAAA") []).
  - split; reflexivity.
  - reflexivity.
  - discriminate.
Defined.

(* ================================================================== *)
(** * Numbers written and read back                                    *)
(* ================================================================== *)

Lemma pretty_N_char_digit d :
  (d < 10)%N ->
  Js.isDigit (pretty_N_char d) = true /\ Js.digitVal (pretty_N_char d) = Z.of_N d.
Proof.
  intros Hd.
  assert (d = 0 \/ d = 1 \/ d = 2 \/ d = 3 \/ d = 4 \/ d = 5 \/ d = 6 \/ d = 7 \/ d = 8
          \/ d = 9)%N as H by lia.
  repeat (destruct H as [-> | H]; [split; reflexivity |]). subst d. split; reflexivity.
Qed.

(** Reading back the digits that [pretty] writes in front of [s]. *)
Lemma readDigits_pretty_N_go x : forall s,
  (0 < x)%N ->
  (exists c r, pretty_N_go x s = String c r /\ Js.isDigit c = true)
  /\ exists p, forall acc k,
       exists k', Js.readDigits (pretty_N_go x s) acc k
                  = Js.readDigits s (acc * p + Z.of_N x) (S k').
Proof.
  induction x as [x IH] using (well_founded_induction N.lt_wf_0). intros s Hx.
  rewrite (pretty_N_go_step x s Hx).
  assert (Hd : (x mod 10 < 10)%N) by (apply N.mod_lt; lia).
  destruct (pretty_N_char_digit _ Hd) as [Hdigit Hval].
  assert (Hsplit : Z.of_N x = 10 * Z.of_N (x / 10) + Z.of_N (x mod 10)).
  { rewrite (N.div_mod x 10) at 1 by lia. lia. }
  destruct (N.eq_dec (x / 10) 0)%N as [Hz | Hnz].
  - rewrite Hz, pretty_N_go_0 in *. split; [eauto |].
    exists 10. intros acc k. exists k. cbn [Js.readDigits]. rewrite Hdigit, Hval.
    f_equal; lia.
  - assert (Hlt : (x / 10 < x)%N) by (apply N.div_lt; lia).
    assert (Hpos : (0 < x / 10)%N) by lia.
    destruct (IH _ Hlt (String (pretty_N_char (x mod 10)) s) Hpos)
      as [Hfirst (p & Hread)].
    split; [exact Hfirst |].
    exists (10 * p). intros acc k. destruct (Hread acc k) as (k' & ->).
    exists (S k'). cbn [Js.readDigits]. rewrite Hdigit, Hval.
    f_equal; lia.
Qed.

Lemma isDigit_plain c r :
  Js.isDigit c = true ->
  Js.parseInt (String c r)
  = let '(v, k, _) := Js.readDigits (String c r) 0 O in
    match k with
    | O => None
    | S _ => if Js.overflowsDouble v then None else Some v
    end.
Proof.
  destruct c as [[] [] [] [] [] [] [] []]; try discriminate; intros _; reflexivity.
Qed.

Lemma parseInt_positive x :
  (0 < x)%N -> Z.of_N x < 10 ^ 21 -> Js.parseInt (pretty x) = Some (Z.of_N x).
Proof.
  intros Hx Hsmall. unfold pretty, pretty_N.
  destruct (decide (x = 0%N)) as [-> | _]; [lia |].
  destruct (readDigits_pretty_N_go x "" Hx) as [(c & r & Hc & Hdigit) (p & Hread)].
  destruct (Hread 0 O) as (k' & Hk'). rewrite Hc in *.
  rewrite (isDigit_plain c r Hdigit), Hk'. cbn [Js.readDigits].
  replace (0 * p + Z.of_N x) with (Z.of_N x) by lia.
  unfold Js.overflowsDouble.
  assert (10 ^ 21 < 2 ^ 1024 - 2 ^ 970) by (vm_compute; reflexivity).
  destruct (Z.leb_spec (2 ^ 1024 - 2 ^ 970) (Z.abs (Z.of_N x))); [lia | reflexivity].
Qed.

Lemma parseInt_stringOfInt n :
  Z.abs n < 10 ^ 21 -> Js.parseInt (Js.stringOfInt n) = Some n.
Proof.
  intros Hn. unfold Js.stringOfInt. destruct n as [| q | q].
  - reflexivity.
  - change (pretty (Z.pos q)) with (pretty (N.pos q)).
    rewrite parseInt_positive; [reflexivity | lia | exact Hn].
  - change (pretty (Z.neg q)) with ("-" +:+ pretty (N.pos q)).
    pose proof (parseInt_positive (N.pos q) ltac:(lia) Hn) as Hpos.
    unfold pretty, pretty_N in *.
    destruct (decide (N.pos q = 0%N)) as [| _]; [discriminate |].
    destruct (readDigits_pretty_N_go (N.pos q) "" ltac:(lia)) as [(c & r & Hc & Hdigit) _].
    rewrite Hc in *. rewrite (isDigit_plain c r Hdigit) in Hpos.
    unfold Js.parseInt. cbn [Js.trimStart String.append Js.isWhiteSpace].
    change (Js.trimStart ("-" +:+ String c r)) with ("-" +:+ String c r).
    change ("-" +:+ String c r) with (String "-" (String c r)). cbv beta iota.
    destruct (Js.readDigits (String c r) 0 0) as [[v k] rest].
    destruct k; [discriminate |].
    replace (Js.overflowsDouble v) with false in *
      by (destruct (Js.overflowsDouble v); [discriminate | reflexivity]).
    injection Hpos as ->. reflexivity.
Qed.

(** X7. The count that [generateImages] works with is its argument
    [n] clamped into 1..4: writing the number as text and parsing it
    back, as the code does, changes nothing (for every integer that
    [String] writes in decimal digits, i.e. below 10^21 in absolute
    value).  In particular a count already clamped by the server is the
    count the adapter uses. *)
Theorem effectiveCount_is_clamp params :
  Z.abs (p_n params) < 10 ^ 21 ->
  effectiveCount params = clampInt (p_n params) 1 4
  /\ (1 <= p_n params <= 4 -> effectiveCount params = p_n params).
Proof.
  intros Hn. unfold effectiveCount, parseIntOr.
  change (default "" (Some (Js.stringOfInt (p_n params)))) with (Js.stringOfInt (p_n params)).
  rewrite (parseInt_stringOfInt _ Hn). split; [reflexivity |].
  apply clampInt_id.
Qed.

(** X7, at a request for 7 images. *)
Lemma effectiveCount_witness :
  Z.abs (p_n (request 7)) < 10 ^ 21 /\ effectiveCount (request 7) = 4.
Proof.
  split; [reflexivity |].
  destruct (effectiveCount_is_clamp (request 7)) as [H _]; [reflexivity |].
  rewrite H. reflexivity.
Defined.

(* ================================================================== *)
(** * Blank strings                                                    *)
(* ================================================================== *)

Lemma trimStart_truthy s : Js.truthy (Js.trimStart s) = hasInk s.
Proof.
  induction s as [| c r IH]; [reflexivity |]. simpl.
  destruct (Js.isWhiteSpace c); [exact IH | reflexivity].
Qed.

Lemma rev_onto_truthy s : forall acc,
  Js.truthy (Js.rev_onto s acc) = Js.truthy s || Js.truthy acc.
Proof.
  induction s as [| c r IH]; intros acc; [reflexivity |]. simpl. rewrite IH. simpl.
  apply orb_true_r.
Qed.

Lemma rev_onto_hasInk s : forall acc,
  hasInk (Js.rev_onto s acc) = hasInk s || hasInk acc.
Proof.
  induction s as [| c r IH]; intros acc; [reflexivity |]. simpl. rewrite IH. simpl.
  destruct (Js.isWhiteSpace c), (hasInk r), (hasInk acc); reflexivity.
Qed.

Lemma trimStart_hasInk s : hasInk (Js.trimStart s) = hasInk s.
Proof.
  induction s as [| c r IH]; [reflexivity |]. simpl.
  destruct (Js.isWhiteSpace c) eqn:Hc; [exact IH |]. simpl. rewrite Hc. reflexivity.
Qed.

(** [s.trim()] is empty exactly when [s] is blank. *)
Lemma trim_truthy s : Js.truthy (Js.trim s) = hasInk s.
Proof.
  unfold Js.trim, Js.trimEnd, Js.reverse.
  rewrite rev_onto_truthy, orb_false_r, trimStart_truthy, rev_onto_hasInk, orb_false_r.
  apply trimStart_hasInk.
Qed.

(* ================================================================== *)
(** * The base64 codec                                                 *)
(* ================================================================== *)

Lemma sextet_cases (P : N -> bool) :
  forallb P (map N.of_nat (seq 0 64)) = true -> forall v, (v < 64)%N -> P v = true.
Proof.
  intros Hall v Hv. rewrite forallb_forall in Hall. apply Hall.
  apply in_map_iff. exists (N.to_nat v). split; [lia |]. apply in_seq. lia.
Qed.

Lemma base64Char_spec v :
  (v < 64)%N ->
  Buffer.unbase64 (Buffer.base64Char v) = Some v
  /\ Ascii.eqb (Buffer.base64Char v) "=" = false
  /\ Js.isWhiteSpace (Buffer.base64Char v) = false
  /\ Ascii.eqb (Buffer.base64Char v) ":" = false.
Proof.
  intros Hv.
  pose proof (sextet_cases
    (fun v => match Buffer.unbase64 (Buffer.base64Char v) with
              | Some w => (w =? v)%N
              | None => false
              end
              && negb (Ascii.eqb (Buffer.base64Char v) "=")
              && negb (Js.isWhiteSpace (Buffer.base64Char v))
              && negb (Ascii.eqb (Buffer.base64Char v) ":"))
    ltac:(vm_compute; reflexivity) v Hv) as H.
  cbv beta in H. rewrite !andb_true_iff, !negb_true_iff in H.
  destruct H as [[[H1 H2] H3] H4].
  destruct (Buffer.unbase64 (Buffer.base64Char v)) as [w |]; [| discriminate].
  apply N.eqb_eq in H1. subst w. auto.
Qed.

Lemma NOfByte_bounded x : (Buffer.NOfByte x < 256)%N.
Proof. apply N_ascii_bounded. Qed.

Lemma byteOfN_NOfByte x n : n = Buffer.NOfByte x -> Buffer.byteOfN n = x.
Proof.
  intros ->. unfold Buffer.byteOfN, Buffer.NOfByte.
  rewrite N.mod_small by apply N_ascii_bounded.
  rewrite ascii_N_embedding. apply byte_of_ascii_of_byte.
Qed.

Lemma sextets_base64Char v r :
  (v < 64)%N -> Buffer.sextets (String (Buffer.base64Char v) r) = v :: Buffer.sextets r.
Proof.
  intros Hv. destruct (base64Char_spec v Hv) as (Hun & Heq & _).
  cbn [Buffer.sextets]. rewrite Heq, Hun. reflexivity.
Qed.

Ltac sextet_bound :=
  match goal with
  | |- (_ < 64)%N => zify; Z.to_euclidean_division_equations; lia
  end.

Lemma fromBase64_toBase64_le n : forall l,
  (length l <= n)%nat -> Buffer.fromBase64 (Buffer.toBase64 l) = l.
Proof.
  unfold Buffer.fromBase64.
  induction n as [n IH] using lt_wf_ind. intros l Hlen.
  destruct l as [| x [| y [| z r]]].
  - reflexivity.
  - pose proof (NOfByte_bounded x) as Hx.
    cbn [Buffer.toBase64]. rewrite !sextets_base64Char by sextet_bound.
    cbn [Buffer.sextets Ascii.eqb Bool.eqb Buffer.pack]. f_equal.
    apply byteOfN_NOfByte. zify; Z.to_euclidean_division_equations; lia.
  - pose proof (NOfByte_bounded x) as Hx. pose proof (NOfByte_bounded y) as Hy.
    cbn [Buffer.toBase64]. rewrite !sextets_base64Char by sextet_bound.
    cbn [Buffer.sextets Ascii.eqb Bool.eqb Buffer.pack].
    f_equal; [| f_equal]; apply byteOfN_NOfByte; zify; Z.to_euclidean_division_equations; lia.
  - pose proof (NOfByte_bounded x) as Hx. pose proof (NOfByte_bounded y) as Hy.
    pose proof (NOfByte_bounded z) as Hz.
    cbn [Buffer.toBase64]. rewrite !sextets_base64Char by sextet_bound.
    cbn [Buffer.pack]. cbn [length] in Hlen.
    rewrite (IH (length r)) by lia.
    f_equal; [| f_equal; [| f_equal]]; apply byteOfN_NOfByte;
      zify; Z.to_euclidean_division_equations; lia.
Qed.

Lemma fromBase64_toBase64 l : Buffer.fromBase64 (Buffer.toBase64 l) = l.
Proof. apply (fromBase64_toBase64_le (length l)). lia. Qed.

Lemma solid_base64Char v : (v < 64)%N -> solid (Buffer.base64Char v) = true.
Proof.
  intros Hv. destruct (base64Char_spec v Hv) as (_ & _ & Hws & Hcolon).
  unfold solid. rewrite Hws, Hcolon. reflexivity.
Qed.

Lemma toBase64_solid_le n : forall l,
  (length l <= n)%nat -> allChars solid (Buffer.toBase64 l) = true.
Proof.
  induction n as [n IH] using lt_wf_ind. intros l Hlen.
  destruct l as [| x [| y [| z r]]].
  - reflexivity.
  - pose proof (NOfByte_bounded x) as Hx.
    cbn [Buffer.toBase64 allChars]. rewrite !solid_base64Char by sextet_bound. reflexivity.
  - pose proof (NOfByte_bounded x) as Hx. pose proof (NOfByte_bounded y) as Hy.
    cbn [Buffer.toBase64 allChars]. rewrite !solid_base64Char by sextet_bound. reflexivity.
  - pose proof (NOfByte_bounded x) as Hx. pose proof (NOfByte_bounded y) as Hy.
    pose proof (NOfByte_bounded z) as Hz.
    cbn [Buffer.toBase64 allChars]. rewrite !solid_base64Char by sextet_bound.
    cbn [length] in Hlen. rewrite (IH (length r)) by lia. reflexivity.
Qed.

Lemma toBase64_solid l : allChars solid (Buffer.toBase64 l) = true.
Proof. apply (toBase64_solid_le (length l)). lia. Qed.

Lemma toBase64_truthy l : l <> [] -> Js.truthy (Buffer.toBase64 l) = true.
Proof. destruct l as [| x [| y [| z r]]]; [congruence | reflexivity ..]. Qed.

Lemma solid_removeWhiteSpace s : allChars solid s = true -> Js.removeWhiteSpace s = s.
Proof.
  induction s as [| c r IH]; [reflexivity |]. simpl. unfold solid at 1.
  rewrite !andb_true_iff, !negb_true_iff. intros [[Hws _] Hr].
  rewrite Hws, (IH Hr). reflexivity.
Qed.

Lemma solid_hasInk s : allChars solid s = true -> Js.truthy s = true -> hasInk s = true.
Proof.
  destruct s as [| c r]; [discriminate |]. simpl. unfold solid at 1.
  rewrite !andb_true_iff, !negb_true_iff. intros [[-> _] _] _. reflexivity.
Qed.

Lemma allChars_app P a b : allChars P (a +:+ b) = allChars P a && allChars P b.
Proof.
  induction a as [| c a IH]; [reflexivity |]. simpl. rewrite IH. apply andb_assoc.
Qed.

Lemma solid_not_dataUrl s : allChars solid s = true -> parseDataUrl (Some s) = None.
Proof.
  intros Hs. unfold parseDataUrl, matchDataUrl.
  change (default "" (Some s)) with s.
  destruct (Js.stripPrefix "data:" s) as [rest |] eqn:Hp; [| reflexivity].
  apply stripPrefix_Some in Hp. subst s.
  rewrite allChars_app in Hs. discriminate.
Qed.

(** X8. The base64 codec is a round trip: decoding the encoding of a
    byte sequence gives the sequence back.  So the text that the server
    makes of a fetched image is always a valid [image] argument: when
    the bytes are not empty, [isValidBase64] accepts it and
    [parseInputImage] takes it as a PNG input image, whatever the
    session holds. *)
Theorem encoded_image_is_accepted bytes args isNew session :
  bytes <> [] ->
  a_image args = Some (Buffer.toBase64 bytes) ->
  Buffer.fromBase64 (Buffer.toBase64 bytes) = bytes
  /\ isValidBase64 (Buffer.toBase64 bytes) = true
  /\ parseInputImage args isNew session
     = Some {| base64 := Buffer.toBase64 bytes; mimeType := "image/png" |}.
Proof.
  intros Hne Harg.
  pose proof (toBase64_solid bytes) as Hsolid.
  pose proof (toBase64_truthy bytes Hne) as Htruthy.
  assert (Hvalid : isValidBase64 (Buffer.toBase64 bytes) = true).
  { unfold isValidBase64.
    rewrite trim_truthy, (solid_hasInk _ Hsolid Htruthy). cbn [negb].
    rewrite fromBase64_toBase64, (solid_removeWhiteSpace _ Hsolid), String.eqb_refl.
    destruct bytes; [congruence | reflexivity]. }
  split; [apply fromBase64_toBase64 |]. split; [exact Hvalid |].
  unfold parseInputImage. rewrite Harg, Htruthy, (solid_not_dataUrl _ Hsolid), Hvalid.
  reflexivity.
Qed.

(** X8, at the three bytes 1, 2, 3. *)
Lemma encoded_image_witness :
  a_image (editArgs None (Some "AQID") None) = Some (Buffer.toBase64 [Byte.x01; Byte.x02; Byte.x03])
  /\ parseInputImage (editArgs None (Some "AQID") None) true staleSession
     = Some (png "AQID").
Proof.
  split; [reflexivity |].
  destruct (encoded_image_is_accepted [Byte.x01; Byte.x02; Byte.x03]
              (editArgs None (Some "AQID") None) true staleSession) as (_ & _ & H);
    [discriminate | reflexivity | exact H].
Defined.

(* ================================================================== *)
(** * Further properties of the session store                          *)
(* ================================================================== *)

Section StoreFrame.

Variable env : Env.

Lemma saveSessionToFile_frame session s :
  sessions (saveSessionToFile env session s) = sessions s
  /\ calls (saveSessionToFile env session s) = calls s
  /\ clock (saveSessionToFile env session s) = clock s
  /\ issued (saveSessionToFile env session s) = issued s.
Proof.
  unfold saveSessionToFile.
  destruct (negb (sessionPersistEnabled (config env))); [auto |].
  destruct (extractMessageImages env _ _ _) as [processed ex].
  destruct (saveImageToFile env _ _ _) as [ref files].
  destruct (writable env _); auto.
Qed.

(** What [saveSessionToFile] does with a session that holds no message
    and no image. *)
Lemma saveSessionToFile_empty session s :
  messages session = [] -> lastImage session = None ->
  imageFiles (saveSessionToFile env session s) = imageFiles s
  /\ sessionFiles (saveSessionToFile env session s)
     = if sessionPersistEnabled (config env)
          && writable env (getSessionFilePath env (id session))
       then <[getSessionFilePath env (id session) :=
                {| fileId := id session; fileMessages := []; messageImageRefs := None;
                   lastImageRef := None; fileLastImage := None;
                   fileCreatedAt := createdAt session;
                   fileLastUsedAt := lastUsedAt session |}]> (sessionFiles s)
       else sessionFiles s.
Proof.
  intros Hm Hl. unfold saveSessionToFile, extractMessageImages, saveImageToFile.
  rewrite Hm, Hl.
  destruct (sessionPersistEnabled (config env)); cbn [negb andb]; [| auto].
  unfold Js.sliceLast. cbn [length drop Nat.sub extractMessages written imageRefs].
  destruct (writable env _); auto.
Qed.

Lemma createSession_spec s :
  let newId := randomHex env (issued s) in
  let fresh := {| id := newId; messages := []; lastImage := None;
                  createdAt := clock s; lastUsedAt := clock s |} in
  createSession env s
  = (Returns (newId, fresh),
     saveSessionToFile env fresh
       (set_sessions (<[newId := fresh]> (sessions s)) (set_issued (S (issued s)) s))).
Proof. reflexivity. Qed.

End StoreFrame.

(** X9. Without a usable session id (none, the empty string, or an id
    without a slash that is neither in memory nor on disk)
    [getOrCreateSession] makes a new session: its id is the next generated one, it holds no message
    and no image, and its two time stamps are the current time.  It is
    put in the [Map] under its id.  No upstream call is made and no
    image file is touched.  With persistence enabled and a writable
    record the session read back from disk is the same session; with
    persistence disabled (or a record that cannot be written) the
    session directory is left as it was. *)
Theorem new_session_is_empty env sessionId s :
  sessionId = None \/ sessionId = Some ""
  \/ (exists sid, sessionId = Some sid /\ hasSlash sid = false
                  /\ sessions s !! sid = None
                  /\ loadSessionFromFile env sid s = None) ->
  let newId := randomHex env (issued s) in
  let fresh := {| id := newId; messages := []; lastImage := None;
                  createdAt := clock s; lastUsedAt := clock s |} in
  let final := getOrCreateSession env sessionId s in
  final.1 = Returns (newId, fresh)
  /\ sessions final.2 = <[newId := fresh]> (sessions s)
  /\ issued final.2 = S (issued s)
  /\ calls final.2 = calls s /\ clock final.2 = clock s
  /\ imageFiles final.2 = imageFiles s
  /\ (sessionPersistEnabled (config env) = true ->
      writable env (getSessionFilePath env newId) = true ->
      loadSessionFromFile env newId final.2 = Some fresh)
  /\ (sessionPersistEnabled (config env) = false
      \/ writable env (getSessionFilePath env newId) = false ->
      sessionFiles final.2 = sessionFiles s).
Proof.
  intros Hid newId fresh final.
  assert (Hfinal : final = createSession env s).
  { unfold final, getOrCreateSession, bind at 1, get.
    destruct Hid as [-> | [-> | (sid & -> & _ & Hmem & Hfile)]]; try reflexivity.
    destruct (negb (Js.truthy sid)); [reflexivity |]. rewrite Hmem, Hfile. reflexivity. }
  clearbody final. subst final. rewrite createSession_spec. fold newId fresh. cbn [fst snd].
  set (s0 := set_sessions (<[newId := fresh]> (sessions s)) (set_issued (S (issued s)) s)).
  destruct (saveSessionToFile_frame env fresh s0) as (Hs & Hc & Ht & Hi).
  destruct (saveSessionToFile_empty env fresh s0 eq_refl eq_refl) as (Himg & Hfiles).
  change (id fresh) with newId in Hfiles.
  change (createdAt fresh) with (clock s) in Hfiles.
  change (lastUsedAt fresh) with (clock s) in Hfiles.
  repeat split; try assumption.
  - intros Hpersist Hwrite. unfold loadSessionFromFile.
    rewrite Hfiles, Hpersist, Hwrite. cbn [negb andb]. rewrite lookup_insert_eq. reflexivity.
  - intros Hoff. rewrite Hfiles.
    destruct Hoff as [-> | ->]; [reflexivity | rewrite andb_false_r; reflexivity].
Qed.

(** X9, at a first request in a process that holds no session. *)
Lemma new_session_witness :
  (getOrCreateSession (testEnv "gemini" unreachable) None initialState).1
  = Returns ("id0", {| id := "id0"; messages := []; lastImage := None;
                       createdAt := 0; lastUsedAt := 0 |})
  /\ loadSessionFromFile (testEnv "gemini" unreachable) "id0"
       (getOrCreateSession (testEnv "gemini" unreachable) None initialState).2
     = Some {| id := "id0"; messages := []; lastImage := None;
               createdAt := 0; lastUsedAt := 0 |}.
Proof.
  destruct (new_session_is_empty (testEnv "gemini" unreachable) None initialState)
    as (H1 & _ & _ & _ & _ & _ & H2 & _); [left; reflexivity |].
  split; [exact H1 | apply H2; reflexivity].
Defined.

(** ** Paths *)

Lemma length_append a b : String.length (a +:+ b) = (String.length a + String.length b)%nat.
Proof. induction a as [| c a IH]; simpl; [reflexivity | rewrite IH; reflexivity]. Qed.

Lemma append_inv_tail s : forall x y, x +:+ s = y +:+ s -> x = y.
Proof.
  induction x as [| c x IH]; intros [| d y] H.
  - reflexivity.
  - apply (f_equal String.length) in H. rewrite !length_append in H. simpl in H. lia.
  - apply (f_equal String.length) in H. rewrite !length_append in H. simpl in H. lia.
  - simpl in H. injection H as -> H. f_equal. apply IH, H.
Qed.

Lemma pathJoin_inj dir a b : pathJoin dir a = pathJoin dir b -> a = b.
Proof.
  unfold pathJoin. intros H. apply String.app_inj, String.app_inj in H. exact H.
Qed.

Section Deletion.

Variable env : Env.

Lemma getSessionFilePath_inj a b :
  getSessionFilePath env a = getSessionFilePath env b -> a = b.
Proof. unfold getSessionFilePath. intros H. apply pathJoin_inj, append_inv_tail in H. exact H. Qed.

Lemma deleteSessionFile_frame_all sid s :
  sessions (deleteSessionFile env sid s) = sessions s
  /\ calls (deleteSessionFile env sid s) = calls s
  /\ clock (deleteSessionFile env sid s) = clock s
  /\ issued (deleteSessionFile env sid s) = issued s.
Proof.
  unfold deleteSessionFile. destruct (negb (sessionPersistEnabled (config env))); auto.
Qed.


End Deletion.



(* ================================================================== *)
(** * Further properties of the request orchestrator                   *)
(* ================================================================== *)

(** [generateImages] never returns an empty list. *)
Lemma generateImages_nonempty env params s images s' :
  generateImages env params s = (Returns images, s') -> images <> [].
Proof.
  intros Hrun. pose proof (effectiveCount_range params) as Hcount.
  assert (Hpos : 0 <= effectiveCount params) by lia.
  destruct (generateImages_dispatch env params)
    as [[_ Heq] | [[_ Heq] | [[_ Heq] | [_ Heq]]]]; rewrite Heq in Hrun.
  - apply native_exact in Hrun; [| exact Hpos].
    eapply positive_length_nonempty; eauto; lia.
  - pose proof (imagesApi_run env params s) as H. rewrite Hrun in H.
    apply (strategyRun_returns _ _ _ _ _ H).
  - apply generateWithFallback_returns in Hrun as [Hfirst | [_ Hlen]]; [| | exact Hpos].
    + pose proof (imagesApi_run env params s) as H. rewrite Hfirst in H.
      apply (strategyRun_returns _ _ _ _ _ H).
    + eapply positive_length_nonempty; eauto; lia.
  - apply chat_exact in Hrun; [| exact Hpos].
    eapply positive_length_nonempty; eauto; lia.
Qed.

Lemma updateSessionObject_messages now session userContent images :
  messages (updateSessionObject now session userContent images)
  = Js.sliceLast historyCap (messages session ++ pushed userContent images).
Proof.
  cbn [updateSessionObject messages].
  destruct (historyCap <? _)%nat eqn:H; [reflexivity |].
  apply Nat.ltb_ge in H. symmetry. apply sliceLast_short, H.
Qed.

(** Saving the images of an answer touches neither the sessions nor
    the session files, and makes no upstream call. *)
Lemma saveImage_frame env dir batch i img acc s :
  exists acc' s',
    saveImage env dir batch i img acc s = (Returns acc', s')
    /\ sessions s' = sessions s /\ sessionFiles s' = sessionFiles s
    /\ calls s' = calls s /\ clock s' = clock s.
Proof.
  unfold saveImage.
  destruct (negb (Js.truthy (base64 img))); [eexists _, _; split; [reflexivity | auto] |].
  destruct (length (Buffer.fromBase64 (base64 img)) =? 0)%nat;
    [eexists _, _; split; [reflexivity | auto] |].
  destruct (writable env _); eexists _, _; (split; [reflexivity | auto]).
Qed.

Lemma saveLoop_frame env dir batch images : forall i acc s,
  exists acc' s',
    saveLoop env dir batch i images acc s = (Returns acc', s')
    /\ sessions s' = sessions s /\ sessionFiles s' = sessionFiles s
    /\ calls s' = calls s /\ clock s' = clock s.
Proof.
  induction images as [| img rest IH]; intros i acc s; cbn [saveLoop].
  - eexists _, _. split; [reflexivity | auto].
  - unfold bind.
    destruct (saveImage_frame env dir batch i img acc s)
      as (acc1 & s1 & -> & Hses & Hfiles & Hcalls & Hclock).
    destruct (IH (S i) acc1 s1) as (acc2 & s2 & -> & Hses2 & Hfiles2 & Hcalls2 & Hclock2).
    eexists _, _. split; [reflexivity |]. repeat split; congruence.
Qed.

Lemma saveImages_frame env images outDir s o s' :
  saveImages env images outDir s = (o, s') ->
  sessions s' = sessions s /\ sessionFiles s' = sessionFiles s
  /\ calls s' = calls s /\ clock s' = clock s.
Proof.
  unfold saveImages, bind at 1, ensureWritableDir.
  assert (Hgo : forall dw,
            (batch <- generateBatchId env ;;
             acc <- saveLoop env dw.1 batch O images ([], []) ;;
             ret {| saved := acc.1; errors := acc.2; finalOutDir := dw.1;
                    warningMsg := dw.2 |}) s = (o, s') ->
            sessions s' = sessions s /\ sessionFiles s' = sessionFiles s
            /\ calls s' = calls s /\ clock s' = clock s).
  { intros dw. unfold bind at 1, generateBatchId. unfold bind at 1.
    destruct (saveLoop_frame env dw.1 (batchId env (clock s) (issued s)) images O ([], [])
                (set_issued (S (issued s)) s))
      as (acc & s1 & -> & Hses & Hfiles & Hcalls & Hclock).
    unfold ret. intros [= <- <-]. auto. }
  destruct (mkdirOk env outDir && writable env outDir); [apply (Hgo (outDir, "")) |].
  destruct (mkdirOk env (tmpDir env)); [apply (Hgo (tmpDir env, _)) |].
  unfold throw. intros [= <- <-]. auto.
Qed.

(** The end of [handleGenerateImage], from the update of the session
    on: it returns the images and the session id, or it throws, and
    leaves the sessions, the session files and the calls as they
    were. *)
Lemma answer_frame env (output : string) images outDir sid s o s' :
  (if String.eqb output "image" then ret (ContentResult images sid)
   else saveImages env images outDir ;;; ret (ContentResult images sid)) s = (o, s') ->
  sessions s' = sessions s /\ sessionFiles s' = sessionFiles s
  /\ calls s' = calls s /\ clock s' = clock s
  /\ (o = Returns (ContentResult images sid) \/ exists e, o = Throws e).
Proof.
  destruct (String.eqb output "image"); [unfold ret; intros [= <- <-]; auto 6 |].
  unfold bind.
  destruct (saveImages env images outDir s) as [[r | e] s1] eqn:Hsave;
    unfold ret; intros [= <- <-];
    destruct (saveImages_frame _ _ _ _ _ _ Hsave) as (? & ? & ? & ?);
    repeat split; eauto.
Qed.

(** X11. When [handleGenerateImage] answers with images, there is at
    least one, each has a MIME type, and the session of the request has
    been updated in the [Map]: the session id of the answer is its id,
    its [lastImage] is the first image of the answer, and its history
    is the history sent upstream followed by the user message (the
    prompt, with the input image if any) and the assistant message,
    cut to its last 20 messages. *)
Theorem successful_generation_updates_session env args s images sid s' :
  handleGenerateImage env args s = (Returns (ContentResult images sid), s') ->
  exists key session s1 firstImage others,
    getOrCreateSession env (a_session_id args) s = (Returns (key, session), s1)
    /\ sid = id session
    /\ images = firstImage :: others
    /\ Forall typed images
    /\ exists session',
         sessions s' !! key = Some session'
         /\ id session' = id session
         /\ createdAt session' = createdAt session
         /\ lastImage session' = Some firstImage
         /\ messages session'
            = Js.sliceLast historyCap
                (messages session
                 ++ [ mkMessage "user"
                        (buildUserContent (parsePrompt (a_prompt args))
                           (parseInputImage args (isNewSession (a_session_id args) session)
                              session));
                      assistantMessage images firstImage ]).
Proof.
  unfold handleGenerateImage.
  destruct (negb (Js.truthy (parsePrompt (a_prompt args)))); [discriminate |].
  unfold bind at 1.
  destruct (getOrCreateSession_returns env (a_session_id args) s)
    as (key & session & s1 & Hget & Hlook & Hcalls).
  rewrite Hget. cbv beta iota zeta.
  destruct (String.eqb _ "path" && negb (Js.truthy _)); [discriminate |].
  unfold bind at 1.
  match goal with
  | |- context [generateImages env ?p s1] => set (params := p)
  end.
  destruct (generateImages env params s1) as [[imgs | e1] s2] eqn:Hgen; [| discriminate].
  unfold bind at 1.
  set (userContent := buildUserContent _ _).
  destruct (updateSession env key userContent imgs s2) as [[[] | e2] s3] eqn:Hupd;
    [| unfold updateSession, modify in Hupd; discriminate].
  intros Hanswer. apply answer_frame in Hanswer as (Hend & _ & _ & _ & [[= -> ->] | [e2 [=]]]).
  pose proof (generateImages_nonempty _ _ _ _ _ Hgen) as Hne.
  pose proof (generateImages_typed _ _ _ _ _ Hgen) as Hty.
  destruct (Does_run _ _ _ _ _ _ _ (Does_generateImages env params) Hgen)
    as (_ & (_ & Hses & _) & _).
  destruct imgs as [| firstImage others]; [congruence |].
  exists key, session, s1, firstImage, others.
  split; [reflexivity |]. split; [reflexivity |]. split; [reflexivity |].
  split; [exact Hty |].
  assert (Hkey : sessions s2 !! key = Some session) by (rewrite Hses; exact Hlook).
  pose proof (updateSession_object env key userContent (firstImage :: others) s2 session Hkey)
    as Hobj.
  rewrite Hupd in Hobj. cbn [snd] in Hobj. rewrite <- Hend in Hobj.
  eexists. split; [exact Hobj |].
  split; [reflexivity |]. split; [reflexivity |]. split; [reflexivity |].
  apply updateSessionObject_messages.
Qed.

(** X11, at a first request answered with one image. *)
Lemma successful_generation_witness :
  exists session',
    sessions (handleGenerateImage (testEnv "gemini" nativeOnly)
                (editArgs None None None) initialState).2 !! "id0" = Some session'
    /\ lastImage session' = Some (png "AAAA")
    /\ length (messages session') = 2%nat.
Proof.
  destruct (successful_generation_updates_session (testEnv "gemini" nativeOnly)
              (editArgs None None None) initialState [png "AAAA"] "id0" _ eq_refl)
    as (key & session & s1 & firstImage & others & Hget & _ & Himgs & _ & session'
        & Hkey & _ & _ & Hlast & Hmsgs).
  vm_compute in Hget. injection Hget as <- <- _. injection Himgs as <- _.
  exists session'. split; [exact Hkey |]. split; [exact Hlast |].
  rewrite Hmsgs. reflexivity.
Defined.

Lemma updateSession_frame env key userContent images s :
  exists s', updateSession env key userContent images s = (Returns tt, s')
             /\ calls s' = calls s.
Proof.
  unfold updateSession, modify, session_at. eexists. split; [reflexivity |].
  destruct (sessions s !! key); [| reflexivity].
  destruct (saveSessionToFile_frame env
              (updateSessionObject (clock s) s0 userContent images)
              (set_sessions (<[key := updateSessionObject (clock s) s0 userContent images]>
                               (sessions s)) s)) as (_ & Hc & _).
  exact Hc.
Qed.

(** X12. Continuing a session edits its last image.  In mode gemini, a
    request that names a session held in memory and brings no image of
    its own sends, as its first upstream request, the whole history of
    the session followed by the prompt with the last image of the
    session inline. *)
Theorem continued_session_sends_last_image env args s sid session img :
  imageMode (config env) = "gemini" ->
  Js.truthy (parsePrompt (a_prompt args)) = true ->
  Js.truthy (picturesDir env) = true ->
  a_session_id args = Some sid -> Js.truthy sid = true ->
  sessions s !! sid = Some session -> id session = sid ->
  a_image args = None \/ a_image args = Some "" ->
  lastImage session = Some img -> Js.truthy (base64 img) = true ->
  exists rest,
    newCalls s (handleGenerateImage env args s).2
    = PostGenerateContent (model (config env))
        (map historyContent (messages session)
         ++ [ {| g_role := "user";
                 g_parts := [ GText (parsePrompt (a_prompt args));
                              GInlineData (base64 img)
                                (orDefault (mimeType img) "image/png") ] |} ])
        (sizeToAspectRatio (parseSize env (a_size args)))
      :: rest.
Proof.
  intros Hmode Hprompt Hpictures Hsid Htruthy Hmem Hid Himage Hlast Hbase.
  unfold handleGenerateImage. rewrite Hprompt. cbn [negb].
  unfold bind at 1.
  rewrite Hsid, (getOrCreateSession_memory env sid session s Htruthy Hmem).
  cbv beta iota zeta.
  set (s1 := set_sessions _ s).
  assert (Hnew : isNewSession (Some sid) (touch (clock s) session) = false).
  { unfold isNewSession. cbn [id touch]. rewrite Htruthy, Hid, String.eqb_refl. reflexivity. }
  assert (Hinput : parseInputImage args false (touch (clock s) session) = Some img).
  { unfold parseInputImage. destruct Himage as [-> | ->]; exact Hlast. }
  rewrite Hnew, Hinput.
  set (output := parseOutput env (a_output args)).
  set (outDir := resolveOutDir _).
  assert (Hdir : String.eqb output "path"
                 && negb (Js.truthy (if String.eqb output "path" && negb (Js.truthy outDir)
                                     then picturesDir env else outDir)) = false).
  { destruct (String.eqb output "path"); [| reflexivity].
    destruct (Js.truthy outDir) eqn:Hout; cbn [negb andb]; [rewrite Hout |
      rewrite Hpictures]; reflexivity. }
  rewrite Hdir. unfold bind at 1.
  set (params := {| p_model := model (config env); p_prompt := parsePrompt (a_prompt args);
                    p_size := parseSize env (a_size args);
                    p_n := clampInt (parseIntOr (a_n args) 1) 1 4;
                    p_timeoutMs := timeoutMs (config env);
                    p_historyMessages := messages (touch (clock s) session);
                    p_inputImage := Some img |}).
  assert (Hgen : generateImages env params
                 = generateMultiple (generateImagesViaGeminiNative env params)
                     (effectiveCount params)).
  { unfold generateImages. rewrite Hmode. reflexivity. }
  pose proof (effectiveCount_range params) as Hcount.
  destruct (generateMultiple_starts env (nativePost params)
              (generateImagesViaGeminiNative env params) (effectiveCount params) s1)
    as (rest & Hstart); [lia | apply geminiNative_run |].
  rewrite <- Hgen in Hstart.
  assert (Hpost : nativePost params
                  = PostGenerateContent (model (config env))
                      (map historyContent (messages session)
                       ++ [ {| g_role := "user";
                               g_parts := [ GText (parsePrompt (a_prompt args));
                                            GInlineData (base64 img)
                                              (orDefault (mimeType img) "image/png") ] |} ])
                      (sizeToAspectRatio (parseSize env (a_size args)))).
  { unfold nativePost, geminiContents, params, usableInput.
    cbn [p_model p_prompt p_size p_historyMessages p_inputImage touch messages].
    rewrite Hbase. reflexivity. }
  rewrite Hpost in Hstart. exists rest. rewrite <- Hstart. unfold newCalls.
  assert (Hs1 : calls s1 = calls s) by reflexivity. rewrite Hs1.
  destruct (generateImages env params s1) as [[images | e] s2]; cbn [snd]; [| reflexivity].
  unfold bind at 1.
  destruct (updateSession_frame env sid
              (buildUserContent (parsePrompt (a_prompt args)) (Some img)) images s2)
    as (s3 & -> & Hc).
  match goal with
  | |- context [(if String.eqb ?output "image" then ?a else ?b) s3] =>
      destruct ((if String.eqb output "image" then a else b) s3) as [o s4] eqn:Hanswer
  end.
  apply answer_frame in Hanswer as (_ & _ & Hc4 & _). cbn [snd]. rewrite Hc4, Hc. reflexivity.
Qed.

(** X12, at a follow-up request on the session ["abc"], whose last
    image is the PNG ["AAAA"]. *)
Lemma continued_session_witness :
  sessions staleInMemory !! "abc" = Some staleSession
  /\ exists rest,
       newCalls staleInMemory
         (handleGenerateImage (testEnv "gemini" nativeOnly)
            (editArgs (Some "abc") None None) staleInMemory).2
       = PostGenerateContent "gemini-3-pro-image-preview"
           [ {| g_role := "user"; g_parts := [GText "a red circle"] |};
             {| g_role := "user";
                g_parts := [GText "make it blue"; GInlineData "AAAA" "image/png"] |} ]
           "1:1"
         :: rest.
Proof.
  split; [reflexivity |].
  destruct (continued_session_sends_last_image (testEnv "gemini" nativeOnly)
              (editArgs (Some "abc") None None) staleInMemory "abc" staleSession
              (png "AAAA")) as (rest & H);
    try reflexivity; [left; reflexivity |].
  exists rest. rewrite H. vm_compute. reflexivity.
Defined.

Section NoPersistence.

Variable env : Env.

Hypothesis Hoff : sessionPersistEnabled (config env) = false.


Lemma deleteSessionFile_off sid s : deleteSessionFile env sid s = s.
Proof. unfold deleteSessionFile. rewrite Hoff. reflexivity. Qed.




End NoPersistence.









(* ================================================================== *)
(** * Saving a session and loading it again                            *)
(* ================================================================== *)

Lemma lookupRef_app a b key :
  lookupRef (a ++ b) key
  = match lookupRef a key with
    | Some r => Some r
    | None => lookupRef b key
    end.
Proof.
  induction a as [| [k r] a IH]; [reflexivity |]. cbn [lookupRef app].
  destruct (String.eqb k key); [reflexivity | exact IH].
Qed.

Lemma startsWith_stripPrefix p : forall s,
  Js.startsWith p s = false -> Js.stripPrefix p s = None.
Proof.
  induction p as [| a p IH]; intros [| b s]; simpl; try discriminate; try reflexivity.
  destruct (Ascii.eqb a b); [apply IH | reflexivity].
Qed.

Section RoundTrip.

Variable env : Env.

Variable sid : string.

Lemma getMessageImagePath_inj a b :
  getMessageImagePath env sid a = getMessageImagePath env sid b -> a = b.
Proof.
  unfold getMessageImagePath. intros H.
  apply pathJoin_inj, String.app_inj, String.app_inj, append_inv_tail in H. exact H.
Qed.

Lemma message_path_not_last key :
  getMessageImagePath env sid key <> getSessionImagePath env sid.
Proof.
  unfold getMessageImagePath, getSessionImagePath. intros H.
  apply pathJoin_inj, String.app_inj in H. simpl in H. discriminate.
Qed.

Lemma refKey_inj a b : "img_" +:+ pretty a = "img_" +:+ pretty b -> a = b :> nat.
Proof. intros H. apply String.app_inj in H. apply pretty_nat_inj in H. exact H. Qed.

Lemma keeps_refl st : keeps st (imageRefs st) (written st).
Proof. intros key ref H. auto. Qed.

Lemma keeps_trans st1 st2 refs files :
  keeps st1 (imageRefs st2) (written st2) -> keeps st2 refs files -> keeps st1 refs files.
Proof.
  intros H12 H2 key ref Hkey. destruct (H12 key ref Hkey) as [Hk Hf].
  destruct (H2 key ref Hk) as [Hk' Hf']. split; [exact Hk' | congruence].
Qed.

(** One part: what [extractPart] makes of it is restored by
    [restorePart] from every later stage of the references and files. *)
Lemma extractPart_restored part st :
  recorded env sid st -> cleanPart part ->
  let result := extractPart env sid part st in
  recorded env sid result.2
  /\ keeps st (imageRefs result.2) (written result.2)
  /\ forall refs files,
       keeps result.2 refs files ->
       restorePart refs files result.1 = part /\ (refs = [] -> result.1 = part).
Proof.
  intros Hrec Hclean.
  destruct part as [t | key u].
  { cbn. split; [exact Hrec |]. split; [apply keeps_refl | auto]. }
  destruct Hclean as [-> Hcanon]. cbn [extractPart].
  destruct (if Js.startsWith "data:" u then matchDataUrl false u else None)
    as [[mime b64] |] eqn:Hmatch.
  2: { cbn. split; [exact Hrec |]. split; [apply keeps_refl | auto]. }
  assert (Hu : matchDataUrl false u = Some (mime, b64))
    by (destruct (Js.startsWith "data:" u); [exact Hmatch | discriminate]).
  destruct (matchDataUrl_Some _ _ _ _ Hu) as (Hurl & [Hmime _] & _).
  set (refKey := "img_" +:+ pretty (imageIndex st)).
  set (imagePath := getMessageImagePath env sid refKey).
  assert (Hfresh : lookupRef (imageRefs st) refKey = None).
  { destruct (lookupRef (imageRefs st) refKey) as [r |] eqn:Hr; [| reflexivity].
    destruct (Hrec _ _ Hr) as (k & Hk & Heq & _). apply refKey_inj in Heq. lia. }
  destruct (writable env imagePath); unfold recorded, keeps;
    cbn [fst snd imageIndex imageRefs written].
  - split; [| split].
    + intros key ref. rewrite lookupRef_app.
      destruct (lookupRef (imageRefs st) key) as [r |] eqn:Hr.
      * intros [= <-]. destruct (Hrec _ _ Hr) as (k & Hk & Hrest). exists k. split; [lia | auto].
      * cbn [lookupRef]. destruct (String.eqb_spec refKey key) as [<- |]; [| discriminate].
        intros [= <-]. exists (imageIndex st). cbn [path refMimeType].
        split; [lia |]. split; [reflexivity |]. split; [reflexivity |].
        exists mime. split; [reflexivity | exact Hmime].
    + intros key ref Hr. rewrite lookupRef_app, Hr. split; [reflexivity |].
      destruct (Hrec _ _ Hr) as (k & Hk & -> & Hpath & _).
      apply lookup_insert_ne. rewrite Hpath. intros Heq.
      apply getMessageImagePath_inj, refKey_inj in Heq. lia.
    + intros refs files Hkeeps.
      destruct (Hkeeps refKey (mkRef imagePath (Some mime))) as [Hfound Hfile].
      { cbn [imageRefs]. rewrite lookupRef_app, Hfresh. cbn [lookupRef].
        rewrite String.eqb_refl. reflexivity. }
      cbn [path written] in Hfile. rewrite lookup_insert_eq in Hfile.
      split; [| intros ->; discriminate].
      cbn [restorePart]. replace (Js.truthy refKey) with true by reflexivity.
      rewrite Hfound. unfold loadImageFromFile. cbn [path refMimeType].
      unfold imagePath at 1, getMessageImagePath. rewrite pathJoin_truthy. cbn [negb].
      fold (getMessageImagePath env sid refKey). fold imagePath. rewrite Hfile.
      cbn [base64 mimeType default]. change (default "" (Some mime)) with mime.
      rewrite (orDefault_keeps _ _ Hmime), (Hcanon _ _ Hu), Hurl. reflexivity.
  - split; [| split].
    + intros key ref Hr. destruct (Hrec _ _ Hr) as (k & Hk & Hrest).
      exists k. split; [lia | auto].
    + apply keeps_refl.
    + auto.
Qed.

Lemma extractParts_restored ps : forall st,
  recorded env sid st -> Forall cleanPart ps ->
  let result := extractParts env sid ps st in
  recorded env sid result.2
  /\ keeps st (imageRefs result.2) (written result.2)
  /\ forall refs files,
       keeps result.2 refs files ->
       map (restorePart refs files) result.1 = ps /\ (refs = [] -> result.1 = ps).
Proof.
  induction ps as [| p r IH]; intros st Hrec Hclean.
  { cbn. split; [exact Hrec |]. split; [apply keeps_refl | auto]. }
  apply Forall_cons in Hclean as [Hp Hr].
  cbn [extractParts].
  destruct (extractPart_restored p st Hrec Hp) as (Hrec1 & Hk1 & Hres1).
  destruct (extractPart env sid p st) as [p' st1]. cbn [fst snd] in *.
  destruct (IH st1 Hrec1 Hr) as (Hrec2 & Hk2 & Hres2).
  destruct (extractParts env sid r st1) as [r' st2]. cbn [fst snd] in *.
  split; [exact Hrec2 |]. split; [eapply keeps_trans; eauto |].
  intros refs files Hkeeps.
  destruct (Hres2 refs files Hkeeps) as [Hm2 He2].
  destruct (Hres1 refs files (keeps_trans _ _ _ _ Hk2 Hkeeps)) as [Hm1 He1].
  split; [cbn [map]; congruence |]. intros Hnil. rewrite (He1 Hnil), (He2 Hnil). reflexivity.
Qed.

Lemma extractMessages_restored msgs : forall st,
  recorded env sid st -> Forall cleanMessage msgs ->
  let result := extractMessages env sid msgs st in
  recorded env sid result.2
  /\ keeps st (imageRefs result.2) (written result.2)
  /\ forall refs files,
       keeps result.2 refs files ->
       restoreMessageImages refs files result.1 = msgs /\ (refs = [] -> result.1 = msgs).
Proof.
  induction msgs as [| msg r IH]; intros st Hrec Hclean.
  { cbn. split; [exact Hrec |]. split; [apply keeps_refl | auto]. }
  apply Forall_cons in Hclean as [Hmsg Hr].
  cbn [extractMessages]. unfold cleanMessage in Hmsg.
  destruct msg as [rl [t | ps]]; cbn [content role] in *.
  - destruct (IH st Hrec Hr) as (Hrec2 & Hk2 & Hres2).
    destruct (extractMessages env sid r st) as [r' st2]. cbn [fst snd] in *.
    split; [exact Hrec2 |]. split; [exact Hk2 |].
    intros refs files Hkeeps. destruct (Hres2 refs files Hkeeps) as [Hm2 He2].
    split; [| intros Hnil; rewrite (He2 Hnil); reflexivity].
    unfold restoreMessageImages in *. cbn [map content]. rewrite Hm2. reflexivity.
  - destruct (extractParts_restored ps st Hrec Hmsg) as (Hrec1 & Hk1 & Hres1).
    destruct (extractParts env sid ps st) as [ps' st1]. cbn [fst snd] in *.
    destruct (IH st1 Hrec1 Hr) as (Hrec2 & Hk2 & Hres2).
    destruct (extractMessages env sid r st1) as [r' st2]. cbn [fst snd] in *.
    split; [exact Hrec2 |]. split; [eapply keeps_trans; eauto |].
    intros refs files Hkeeps. destruct (Hres2 refs files Hkeeps) as [Hm2 He2].
    destruct (Hres1 refs files (keeps_trans _ _ _ _ Hk2 Hkeeps)) as [Hm1 He1].
    split; [| intros Hnil; rewrite (He1 Hnil), (He2 Hnil); reflexivity].
    unfold restoreMessageImages in *. cbn [map content role]. rewrite Hm1, Hm2. reflexivity.
Qed.

End RoundTrip.

(** What [saveSessionToFile] leaves on disk, read back by
    [loadSessionFromFile]. *)
Lemma saved_session_loads env session s :
  sessionPersistEnabled (config env) = true ->
  writable env (getSessionFilePath env (id session)) = true ->
  (forall img, lastImage session = Some img ->
               writable env (getSessionImagePath env (id session)) = true
               /\ typed img /\ canonical (base64 img)) ->
  Forall cleanMessage (messages session) ->
  loadSessionFromFile env (id session) (saveSessionToFile env session s)
  = Some {| id := id session;
            messages := Js.sliceLast historyCap (messages session);
            lastImage := lastImage session;
            createdAt := createdAt session;
            lastUsedAt := lastUsedAt session |}.
Proof.
  intros Hpersist Hwrite Hlast Hclean.
  unfold saveSessionToFile, loadSessionFromFile. rewrite Hpersist, Hwrite. cbn [negb].
  set (msgs := Js.sliceLast historyCap (messages session)).
  assert (Hmsgs : Forall cleanMessage msgs).
  { unfold msgs, Js.sliceLast. apply Forall_drop, Hclean. }
  unfold extractMessageImages.
  destruct (extractMessages_restored env (id session) msgs
              (mkExtract O [] (imageFiles s))) as (Hrec & _ & Hres).
  { intros key ref H. discriminate. }
  { exact Hmsgs. }
  destruct (extractMessages env (id session) msgs _) as [processed ex].
  cbn [fst snd] in *.
  assert (Hfiles : forall files', (forall key, files' !! getMessageImagePath env (id session) key
                                         = written ex !! getMessageImagePath env (id session) key) ->
                   keeps ex (imageRefs ex) files').
  { intros files' Hsame key ref Hr. split; [exact Hr |].
    destruct (Hrec _ _ Hr) as (k & _ & _ & -> & _). apply Hsame. }
  destruct (lastImage session) as [img |] eqn:Himg.
  - destruct (Hlast img eq_refl) as (Hw & Hty & Hcanon).
    unfold saveImageToFile. rewrite Hpersist, Hw. cbn [negb].
    cbn [sessionFiles imageFiles set_sessionFiles set_imageFiles].
    rewrite lookup_insert_eq.
    cbn [fileId fileMessages messageImageRefs lastImageRef fileLastImage fileCreatedAt
         fileLastUsedAt].
    destruct (Hres (imageRefs ex)
                (<[getSessionImagePath env (id session) := Buffer.fromBase64 (base64 img)]>
                   (written ex))) as [Hback Hnil].
    { apply Hfiles. intros key. apply lookup_insert_ne. apply not_eq_sym.
      apply message_path_not_last. }
    f_equal. f_equal.
    + destruct (imageRefs ex) eqn:Hrefs; [apply Hnil; reflexivity | exact Hback].
    + unfold loadImageFromFile. cbn [path refMimeType].
      unfold getSessionImagePath at 1. rewrite pathJoin_truthy. cbn [negb].
      fold (getSessionImagePath env (id session)). rewrite lookup_insert_eq.
      change (default "" (Some (mimeType img))) with (mimeType img).
      rewrite (orDefault_keeps _ _ Hty), Hcanon. destruct img; reflexivity.
  - unfold saveImageToFile.
    cbn [sessionFiles imageFiles set_sessionFiles set_imageFiles].
    rewrite lookup_insert_eq.
    cbn [fileId fileMessages messageImageRefs lastImageRef fileLastImage fileCreatedAt
         fileLastUsedAt].
    destruct (Hres (imageRefs ex) (written ex)) as [Hback Hnil].
    { apply Hfiles. reflexivity. }
    f_equal. f_equal.
    destruct (imageRefs ex) eqn:Hrefs; [apply Hnil; reflexivity | exact Hback].
Qed.

(** X14. Saving a session and loading it again gives the session back.
    With persistence enabled and a record that can be written,
    [loadSessionFromFile] after [saveSessionToFile] returns the session
    saved: same id and time stamps, same last image, and the same
    messages (the last 20 of them; all of them, and so the very same
    session, when it holds no more), images included.  The images are
    those the module builds: parts without reference key whose payload,
    like that of the last image, is canonical base64; the last image has
    a MIME type and its file can be written.  A message image whose file
    cannot be written costs nothing: it stays inline in the record. *)
Theorem save_then_load_identity env session s :
  sessionPersistEnabled (config env) = true ->
  writable env (getSessionFilePath env (id session)) = true ->
  (forall img, lastImage session = Some img ->
               writable env (getSessionImagePath env (id session)) = true
               /\ typed img /\ canonical (base64 img)) ->
  Forall cleanMessage (messages session) ->
  let reloaded := loadSessionFromFile env (id session) (saveSessionToFile env session s) in
  reloaded = Some {| id := id session;
                     messages := Js.sliceLast historyCap (messages session);
                     lastImage := lastImage session;
                     createdAt := createdAt session;
                     lastUsedAt := lastUsedAt session |}
  /\ ((length (messages session) <= historyCap)%nat -> reloaded = Some session).
Proof.
  intros Hpersist Hwrite Hlast Hclean reloaded.
  assert (Hload : reloaded = Some {| id := id session;
                                     messages := Js.sliceLast historyCap (messages session);
                                     lastImage := lastImage session;
                                     createdAt := createdAt session;
                                     lastUsedAt := lastUsedAt session |})
    by (apply saved_session_loads; assumption).
  split; [exact Hload |]. intros Hshort. rewrite Hload.
  rewrite (sliceLast_short _ _ Hshort). destruct session; reflexivity.
Qed.

(** X14, at a session that holds one turn with its image. *)
Lemma save_then_load_witness :
  loadSessionFromFile (testEnv "gemini" unreachable) "abc"
    (saveSessionToFile (testEnv "gemini" unreachable) editedSession initialState)
  = Some editedSession.
Proof.
  destruct (save_then_load_identity (testEnv "gemini" unreachable) editedSession
              initialState) as [_ H].
  - reflexivity.
  - reflexivity.
  - intros img [= <-]. repeat split.
  - repeat constructor.
    intros mime b64 H. vm_compute in H. injection H as <- <-. reflexivity.
  - apply H. vm_compute. lia.
Defined.

(* ================================================================== *)
(** * The sweep of expired sessions                                    *)
(* ================================================================== *)

Section SweepFacts.

Variable env : Env.

Lemma sweepFile_frame now s file :
  sessions (sweepFile env now s file) = sessions s
  /\ calls (sweepFile env now s file) = calls s
  /\ clock (sweepFile env now s file) = clock s
  /\ issued (sweepFile env now s file) = issued s.
Proof.
  unfold sweepFile. destruct (negb _); [auto |].
  destruct (sessionFiles s !! _) as [r |]; [| auto].
  destruct (expired env now _); [apply deleteSessionFile_frame_all | auto].
Qed.

Lemma sweepFiles_frame now l : forall s,
  sessions (fold_left (sweepFile env now) l s) = sessions s
  /\ calls (fold_left (sweepFile env now) l s) = calls s
  /\ clock (fold_left (sweepFile env now) l s) = clock s
  /\ issued (fold_left (sweepFile env now) l s) = issued s.
Proof.
  induction l as [| file l IH]; intros s; [auto |]. cbn [fold_left].
  destruct (IH (sweepFile env now s file)) as (H1 & H2 & H3 & H4).
  destruct (sweepFile_frame now s file) as (G1 & G2 & G3 & G4).
  repeat split; congruence.
Qed.

(** The loop over the [Map]: what is left in memory, and what is left
    alone. *)
Lemma sweepSessions_spec now s0 (m : gmap string Session) :
  let s1 := map_fold (sweepSession env now) s0 m in
  (forall key,
      sessions s1 !! key
      = match m !! key with
        | Some session => if expired env now (lastUsedAt session) then None
                          else sessions s0 !! key
        | None => sessions s0 !! key
        end)
  /\ calls s1 = calls s0 /\ clock s1 = clock s0 /\ issued s1 = issued s0
  /\ (sessionPersistEnabled (config env) = false ->
      sessionFiles s1 = sessionFiles s0 /\ imageFiles s1 = imageFiles s0).
Proof.
  apply (map_fold_weak_ind
           (fun s1 (m : gmap string Session) =>
              (forall key,
                  sessions s1 !! key
                  = match m !! key with
                    | Some session => if expired env now (lastUsedAt session) then None
                                      else sessions s0 !! key
                    | None => sessions s0 !! key
                    end)
              /\ calls s1 = calls s0 /\ clock s1 = clock s0 /\ issued s1 = issued s0
              /\ (sessionPersistEnabled (config env) = false ->
                  sessionFiles s1 = sessionFiles s0 /\ imageFiles s1 = imageFiles s0))).
  - split; [intros key; rewrite lookup_empty; reflexivity | auto].
  - intros i x m' r Hi (Hlook & Hc & Ht & Hn & Hoff). unfold sweepSession.
    destruct (expired env now (lastUsedAt x)) eqn:Hexp.
    + destruct (deleteSessionFile_frame_all env i
                  (set_sessions (delete i (sessions r)) r)) as (G1 & G2 & G3 & G4).
      cbn [calls clock issued set_sessions] in G2, G3, G4.
      split; [| split; [| split; [| split]]]; try congruence.
      * intros key. rewrite G1. cbn [sessions set_sessions].
        destruct (decide (key = i)) as [-> | Hne].
        -- rewrite lookup_delete_eq, lookup_insert_eq, Hexp. reflexivity.
        -- rewrite lookup_delete_ne, lookup_insert_ne by congruence. apply Hlook.
      * intros Hp. rewrite (deleteSessionFile_off env Hp). apply Hoff, Hp.
    + split; [| auto]. intros key.
      destruct (decide (key = i)) as [-> | Hne].
      * rewrite lookup_insert_eq, Hexp, Hlook, Hi. reflexivity.
      * rewrite lookup_insert_ne by congruence. apply Hlook.
Qed.

End SweepFacts.

(** X15. After [cleanupExpiredSessions] the [Map] holds exactly the
    sessions it held before whose [now - lastUsedAt] does not exceed
    the TTL, unchanged: no session in memory is past the TTL, and no
    other session is dropped.  The sweep makes no upstream call and
    leaves the clock and the id generator alone; with persistence
    disabled it does not touch the disk. *)
Theorem cleanup_keeps_fresh_sessions env s :
  let s' := (cleanupExpiredSessions env s).2 in
  (forall key session,
      sessions s' !! key = Some session
      <-> sessions s !! key = Some session
          /\ clock s - lastUsedAt session <= sessionTtlMs (config env))
  /\ calls s' = calls s /\ clock s' = clock s /\ issued s' = issued s
  /\ (sessionPersistEnabled (config env) = false ->
      sessionFiles s' = sessionFiles s /\ imageFiles s' = imageFiles s).
Proof.
  intros s'. unfold cleanupExpiredSessions, modify in s'. cbn [snd] in s'.
  destruct (sweepSessions_spec env (clock s) s (sessions s))
    as (Hlook & Hc & Ht & Hn & Hoff).
  set (s1 := map_fold (sweepSession env (clock s)) s (sessions s)) in *.
  assert (Hmem : forall key session,
             sessions s1 !! key = Some session
             <-> sessions s !! key = Some session
                 /\ clock s - lastUsedAt session <= sessionTtlMs (config env)).
  { intros key session. rewrite Hlook. unfold expired.
    destruct (sessions s !! key) as [x |] eqn:Hx.
    - destruct (Z.ltb_spec (sessionTtlMs (config env)) (clock s - lastUsedAt x)).
      + split; [discriminate |]. intros [[= ->] Hage]. lia.
      + split; [intros [= ->]; auto | intros [Hsame _]; exact Hsame].
    - split; [discriminate | intros [Hsame _]; discriminate]. }
  destruct (sessionPersistEnabled (config env)) eqn:Hp.
  - subst s'.
    destruct (sweepFiles_frame env (clock s)
                (readdir (sessionStorageDir (config env)) (sessionFiles s1)) s1)
      as (G1 & G2 & G3 & G4).
    split; [intros key session; rewrite G1; apply Hmem |].
    repeat split; try congruence; discriminate.
  - subst s'. split; [exact Hmem |]. auto.
Qed.

Lemma append_cons x a b : String x a +:+ b = String x (a +:+ b).
Proof. reflexivity. Qed.

Lemma append_assoc a b c : (a +:+ b) +:+ c = a +:+ (b +:+ c).
Proof.
  induction a as [| x a IH]; [reflexivity |]. rewrite !append_cons, IH. reflexivity.
Qed.

Lemma rev_onto_app a : forall b acc,
  Js.rev_onto (a +:+ b) acc = Js.rev_onto b (Js.rev_onto a acc).
Proof.
  induction a as [| x a IH]; intros b acc; [reflexivity |].
  rewrite append_cons. apply IH.
Qed.

Lemma rev_onto_acc s : forall acc, Js.rev_onto s acc = Js.rev_onto s "" +:+ acc.
Proof.
  induction s as [| x s IH]; intros acc; simpl; [reflexivity |].
  rewrite (IH (String x acc)), (IH (String x "")), append_assoc. reflexivity.
Qed.

Lemma startsWith_app p s : Js.startsWith p (p +:+ s) = true.
Proof.
  induction p as [| c p IH]; simpl; [reflexivity |]. rewrite Ascii.eqb_refl. exact IH.
Qed.

Lemma endsWith_app x suffix : endsWith suffix (x +:+ suffix) = true.
Proof.
  unfold endsWith, Js.reverse. rewrite rev_onto_app, (rev_onto_acc suffix (Js.rev_onto x "")).
  apply startsWith_app.
Qed.

Lemma hasSlash_app a b : hasSlash (a +:+ b) = hasSlash a || hasSlash b.
Proof.
  induction a as [| x a IH]; [reflexivity |].
  rewrite append_cons. cbn [hasSlash]. rewrite IH. apply orb_assoc.
Qed.

Lemma shrunk_refl s : shrunk s s.
Proof. split; auto. Qed.

Lemma shrunk_trans s1 s2 s3 : shrunk s1 s2 -> shrunk s2 s3 -> shrunk s1 s3.
Proof. intros [A1 B1] [A2 B2]. split; eauto. Qed.

Section SweepShrinks.

Variable env : Env.

Lemma deleteSessionFile_shrunk id' s : shrunk s (deleteSessionFile env id' s).
Proof.
  unfold deleteSessionFile.
  destruct (negb (sessionPersistEnabled (config env))); [apply shrunk_refl |].
  split; cbn [sessionFiles imageFiles set_sessionFiles set_imageFiles].
  - intros p r H. apply lookup_delete_Some in H as [_ H]. exact H.
  - intros p b H. apply map_lookup_filter_Some in H as [H _]. exact H.
Qed.

Lemma sweepSession_shrunk now id' session s : shrunk s (sweepSession env now id' session s).
Proof.
  unfold sweepSession. destruct (expired env now _); [| apply shrunk_refl].
  apply (deleteSessionFile_shrunk id' (set_sessions (delete id' (sessions s)) s)).
Qed.

Lemma sweepSessions_shrunk now s0 (m : gmap string Session) :
  shrunk s0 (map_fold (sweepSession env now) s0 m).
Proof.
  apply (map_fold_weak_ind (fun s1 (_ : gmap string Session) => shrunk s0 s1)).
  - apply shrunk_refl.
  - intros i x m' r _ Hs. eapply shrunk_trans; [exact Hs | apply sweepSession_shrunk].
Qed.

Lemma sweepFile_shrunk now s file : shrunk s (sweepFile env now s file).
Proof.
  unfold sweepFile. destruct (negb _); [apply shrunk_refl |].
  destruct (sessionFiles s !! _) as [r |]; [| apply shrunk_refl].
  destruct (expired env now _); [apply deleteSessionFile_shrunk | apply shrunk_refl].
Qed.

Lemma sweepFiles_shrunk now l : forall s, shrunk s (fold_left (sweepFile env now) l s).
Proof.
  induction l as [| file l IH]; intros s; [apply shrunk_refl |].
  cbn [fold_left]. eapply shrunk_trans; [apply sweepFile_shrunk | apply IH].
Qed.


End SweepShrinks.

Section SweepDisk.

Variable env : Env.

Hypothesis Hpersist : sessionPersistEnabled (config env) = true.

Variable sid : string.

Variable record : SessionFile.






Hypothesis Hslash : hasSlash sid = false.

Hypothesis Hname : replaceFirst ".json" "" (sid +:+ ".json") = sid.



Lemma readdir_record files :
  files !! getSessionFilePath env sid = Some record ->
  In (sid +:+ ".json") (readdir (sessionStorageDir (config env)) files).
Proof.
  intros Hrec. apply list_elem_of_In, list_elem_of_omap.
  exists (getSessionFilePath env sid, record).
  split; [apply elem_of_map_to_list, Hrec |].
  cbn [fst]. unfold entryName, getSessionFilePath, pathJoin.
  rewrite <- append_assoc, stripPrefix_app, hasSlash_app, Hslash. reflexivity.
Qed.


End SweepDisk.



(* ================================================================== *)
(** * What an update leaves on disk                                    *)
(* ================================================================== *)

Lemma matchDataUrl_dataUrl_inv dotAll mime b64 mime' b64' :
  plainMime mime ->
  matchDataUrl dotAll (dataUrl mime b64) = Some (mime', b64') -> mime' = mime /\ b64' = b64.
Proof.
  intros [Hm Hs]. unfold matchDataUrl, dataUrl.
  rewrite stripPrefix_app.
  change (";base64," +:+ b64) with (String ";" ("base64," +:+ b64)).
  rewrite (splitAtSemicolon_app _ _ Hs).
  change (String ";" ("base64," +:+ b64)) with (";base64," +:+ b64).
  rewrite stripPrefix_app.
  destruct mime; [discriminate |]. destruct b64; [discriminate |].
  destruct (dotAll || _); [| discriminate]. intros [= <- <-]. auto.
Qed.

Lemma storable_part img :
  storable img -> cleanPart (ImageUrlPart None (dataUrl (mimeType img) (base64 img))).
Proof.
  intros (Hplain & _ & Hcanon). split; [reflexivity |]. intros mime b64 Hmatch.
  apply (matchDataUrl_dataUrl_inv _ _ _ _ _ Hplain) in Hmatch as [_ ->]. exact Hcanon.
Qed.

Lemma buildUserContent_clean prompt inputImage :
  (forall img, inputImage = Some img -> storable img) ->
  cleanContent (buildUserContent prompt inputImage).
Proof.
  intros H. destruct inputImage as [img |]; [| exact I].
  cbn. repeat constructor. apply (storable_part img (H img eq_refl)).
Qed.

Lemma pushed_clean userContent images :
  cleanContent userContent ->
  (forall img, head images = Some img -> storable img) ->
  Forall cleanMessage (pushed userContent images).
Proof.
  intros Hc Hfirst. unfold pushed. constructor; [exact Hc |].
  destruct images as [| firstImage others]; constructor; [| constructor].
  unfold cleanMessage, assistantMessage. cbn [content]. repeat constructor.
  apply (storable_part firstImage (Hfirst firstImage eq_refl)).
Qed.

(** X17. What [updateSession] writes is what it keeps.  With
    persistence enabled and a disk that takes the record and the last
    image, the session read back from disk right after an update is the
    session object in the [Map], field by field and message by message,
    images included.  This holds for content as the module builds it:
    image parts without reference key, and images (those stored before,
    the input image, the first image produced) with a plain MIME type
    and a non-empty payload in canonical base64. *)
Theorem update_persists_exactly env key session userContent images s :
  sessionPersistEnabled (config env) = true ->
  writable env (getSessionFilePath env (id session)) = true ->
  writable env (getSessionImagePath env (id session)) = true ->
  sessions s !! key = Some session ->
  Forall cleanMessage (messages session) ->
  cleanContent userContent ->
  (forall img, head images = Some img -> storable img) ->
  (forall img, lastImage session = Some img -> storable img) ->
  let s' := (updateSession env key userContent images s).2 in
  exists inMemory,
    sessions s' !! key = Some inMemory
    /\ loadSessionFromFile env (id inMemory) s' = Some inMemory.
Proof.
  intros Hpersist Hrec Himg Hkey Hclean Hcontent Hfirst Hlast s'.
  set (inMemory := updateSessionObject (clock s) session userContent images).
  assert (Hs' : s' = saveSessionToFile env inMemory
                       (set_sessions (<[key := inMemory]> (sessions s)) s)).
  { unfold s', updateSession, modify, session_at. cbn [snd]. rewrite Hkey. reflexivity. }
  exists inMemory. rewrite Hs'. split.
  { rewrite saveSessionToFile_sessions. cbn [sessions set_sessions]. apply lookup_insert_eq. }
  rewrite (saved_session_loads env inMemory _ Hpersist).
  - f_equal. rewrite sliceLast_short by apply updateSessionObject_capped.
    unfold inMemory. destruct (updateSessionObject _ _ _ _); reflexivity.
  - exact Hrec.
  - intros img Hi. split; [exact Himg |].
    assert (Hst : storable img).
    { unfold inMemory in Hi. cbn [updateSessionObject lastImage] in Hi.
      destruct images as [| firstImage others]; [apply Hlast, Hi |].
      apply Hfirst. cbn [head]. exact Hi. }
    destruct Hst as ([Hty _] & _ & Hcanon). split; [exact Hty | exact Hcanon].
  - unfold inMemory. rewrite updateSessionObject_messages.
    unfold Js.sliceLast. apply Forall_drop.
    apply Forall_app. split; [exact Hclean |]. apply pushed_clean; assumption.
Qed.

(** X17, at a first turn on an empty session. *)
Lemma update_persists_witness :
  exists inMemory,
    sessions (updateSession (testEnv "gemini" unreachable) "abc"
                (ContentText "a red circle") [png "AAAA"] staleInMemory).2 !! "abc"
    = Some inMemory
    /\ loadSessionFromFile (testEnv "gemini" unreachable) (id inMemory)
         (updateSession (testEnv "gemini" unreachable) "abc"
            (ContentText "a red circle") [png "AAAA"] staleInMemory).2
       = Some inMemory.
Proof.
  apply (update_persists_exactly (testEnv "gemini" unreachable) "abc" staleSession
           (ContentText "a red circle") [png "AAAA"] staleInMemory).
  - reflexivity.
  - reflexivity.
  - reflexivity.
  - reflexivity.
  - repeat constructor.
  - exact I.
  - intros img [= <-]. repeat split.
  - intros img [= <-]. repeat split.
Defined.

(* ================================================================== *)
(** * Images fetched from a URL                                        *)
(* ================================================================== *)

Lemma hasSemicolon_trimStart s : hasSemicolon s = false -> hasSemicolon (Js.trimStart s) = false.
Proof.
  induction s as [| c r IH]; [reflexivity |]. cbn [hasSemicolon Js.trimStart].
  intros H. destruct (Js.isWhiteSpace c); [| exact H].
  apply orb_false_iff in H as [_ H]. apply IH, H.
Qed.

Lemma hasSemicolon_rev_onto s : forall acc,
  hasSemicolon (Js.rev_onto s acc) = hasSemicolon s || hasSemicolon acc.
Proof.
  induction s as [| c r IH]; intros acc; [reflexivity |].
  cbn [Js.rev_onto hasSemicolon]. rewrite IH. cbn [hasSemicolon].
  destruct (Ascii.eqb c ";"), (hasSemicolon r), (hasSemicolon acc); reflexivity.
Qed.

Lemma hasSemicolon_trim s : hasSemicolon s = false -> hasSemicolon (Js.trim s) = false.
Proof.
  intros H. unfold Js.trim, Js.trimEnd, Js.reverse.
  rewrite hasSemicolon_rev_onto, orb_false_r. apply hasSemicolon_trimStart.
  rewrite hasSemicolon_rev_onto, orb_false_r. apply hasSemicolon_trimStart, H.
Qed.

Lemma hasSemicolon_beforeSemicolon s : hasSemicolon (beforeSemicolon s) = false.
Proof.
  induction s as [| c r IH]; [reflexivity |]. cbn [beforeSemicolon].
  destruct (Ascii.eqb c ";") eqn:Hc; [reflexivity |]. cbn [hasSemicolon]. rewrite Hc. exact IH.
Qed.

Lemma orDefault_plain s d : hasSemicolon s = false -> plainMime d -> plainMime (orDefault s d).
Proof.
  intros Hs Hd. unfold orDefault. destruct (Js.truthy s) eqn:Ht; [split; assumption | exact Hd].
Qed.

Lemma canonical_toBase64 l : canonical (Buffer.toBase64 l).
Proof. unfold canonical. rewrite fromBase64_toBase64. reflexivity. Qed.

(** X18. An image fetched from a URL is the file that was served.
    [fetchUrlAsBase64] returns only from a 2xx answer to its single GET;
    the payload it returns decodes to exactly the bytes of the answer
    and is canonical base64, and the MIME type is the content type up to
    its first [';'], trimmed ([image/png] when that is empty), so it is
    never empty and holds no [';'].  Unless the body is empty, such an
    image is stored and replayed without loss. *)
Theorem fetched_image_is_faithful env url timeoutMs s img s' :
  fetchUrlAsBase64 env url timeoutMs s = (Returns img, s') ->
  exists r,
    upstream env (calls s) (GetUrl url) = Responded r /\ ok r = true
    /\ newCalls s s' = [GetUrl url]
    /\ Buffer.fromBase64 (base64 img) = bytes r
    /\ canonical (base64 img)
    /\ plainMime (mimeType img)
    /\ (bytes r <> [] -> storable img).
Proof.
  unfold fetchUrlAsBase64, bind, fetchWithTimeout.
  destruct (upstream env (calls s) (GetUrl url)) as [| m | r]; try discriminate.
  destruct (ok r) eqn:Hok; cbn [negb]; [| discriminate].
  unfold ret. intros [= <- <-]. exists r. cbn [base64 mimeType].
  assert (Hplain : plainMime (orDefault (Js.trim (beforeSemicolon
                                (default "image/png" (contentType r)))) "image/png")).
  { apply orDefault_plain; [| split; reflexivity].
    apply hasSemicolon_trim, hasSemicolon_beforeSemicolon. }
  split; [reflexivity |]. split; [exact Hok |]. split.
  { unfold newCalls. cbn [calls set_clock set_calls]. apply drop_app_length. }
  split; [apply fromBase64_toBase64 |]. split; [apply canonical_toBase64 |].
  split; [exact Hplain |]. intros Hne.
  split; [exact Hplain |]. split; [apply toBase64_truthy, Hne | apply canonical_toBase64].
Qed.

(** X18, at an endpoint that serves three bytes as [image/jpeg]. *)
Lemma fetched_image_witness :
  exists r,
    upstream (testEnv "gemini"
                (fun _ _ => Responded {| status := 200; text := ""; json := None;
                                         contentType := Some "image/jpeg; charset=binary";
                                         bytes := [Byte.x01; Byte.x02; Byte.x03] |}))
      (calls initialState) (GetUrl "http://host/a.jpg") = Responded r
    /\ ok r = true.
Proof.
  destruct (fetched_image_is_faithful
              (testEnv "gemini"
                 (fun _ _ => Responded {| status := 200; text := ""; json := None;
                                          contentType := Some "image/jpeg; charset=binary";
                                          bytes := [Byte.x01; Byte.x02; Byte.x03] |}))
              "http://host/a.jpg" 1000 initialState
              {| base64 := "AQID"; mimeType := "image/jpeg" |} _ eq_refl)
    as (r & Hr & Hok & _).
  exists r. split; assumption.
Defined.

(* ================================================================== *)
(** * The listing of sessions                                          *)
(* ================================================================== *)

(** X19. [listAllSessions] shows every session that can be named: each
    session of the [Map], under its key, and, with persistence enabled,
    each record on disk that is not in memory (for an id that maps to
    its file name and back), whatever its age: the TTL is not looked
    at.  Conversely every entry is one of these: an entry marked
    [memory] is a session of the [Map], an entry marked [file] is a
    record on disk whose name gives an id that is not in memory. *)
Theorem listing_complete_and_sound env s :
  (forall key session,
      sessions s !! key = Some session ->
      In (memoryInfo (key, session)) (listAllSessions env s))
  /\ (forall sid record,
        sessionPersistEnabled (config env) = true ->
        sessions s !! sid = None ->
        hasSlash sid = false ->
        replaceFirst ".json" "" (sid +:+ ".json") = sid ->
        sessionFiles s !! getSessionFilePath env sid = Some record ->
        In (fileInfo record) (listAllSessions env s))
  /\ (forall info,
        In info (listAllSessions env s) ->
        (exists key session,
            sessions s !! key = Some session /\ info = memoryInfo (key, session))
        \/ (sessionPersistEnabled (config env) = true
            /\ exists file record,
                 sessionFiles s !! pathJoin (sessionStorageDir (config env)) file
                 = Some record
                 /\ sessions s !! replaceFirst ".json" "" file = None
                 /\ info = fileInfo record)).
Proof.
  unfold listAllSessions. split; [| split].
  - intros key session Hkey. apply in_or_app. left.
    apply in_map_iff. exists (key, session). split; [reflexivity |].
    apply list_elem_of_In, elem_of_map_to_list, Hkey.
  - intros sid record Hp Hmem Hslash Hname Hrec. apply in_or_app. right. rewrite Hp.
    apply list_elem_of_In, list_elem_of_omap. exists (sid +:+ ".json"). split.
    + apply list_elem_of_In. apply (readdir_record env sid record Hslash). exact Hrec.
    + unfold fileEntry. rewrite endsWith_app, Hname, Hmem. cbn [negb].
      fold (getSessionFilePath env sid). rewrite Hrec. reflexivity.
  - intros info Hin. apply in_app_or in Hin as [Hin | Hin].
    + apply in_map_iff in Hin as ([key session] & <- & Hin).
      apply list_elem_of_In, elem_of_map_to_list in Hin. left. eauto.
    + destruct (sessionPersistEnabled (config env)); [| destruct Hin]. right.
      split; [reflexivity |].
      apply list_elem_of_In, list_elem_of_omap in Hin as (file & _ & Hentry).
      unfold fileEntry in Hentry. destruct (negb _); [discriminate |].
      destruct (sessions s !! _) eqn:Hmem; [discriminate |].
      destruct (sessionFiles s !! _) as [record |] eqn:Hrec; [| discriminate].
      injection Hentry as <-. eauto.
Qed.

(** X19, at the session ["abc"], eight days old, on disk only. *)
Lemma listing_witness :
  sessions staleOnDisk !! "abc" = None
  /\ exists info,
       In info (listAllSessions (testEnv "gemini" unreachable) staleOnDisk)
       /\ info_id info = "abc" /\ source info = "file".
Proof.
  split; [reflexivity |].
  destruct (listing_complete_and_sound (testEnv "gemini" unreachable) staleOnDisk)
    as (_ & H & _).
  eexists. split.
  - apply (H "abc"); reflexivity.
  - split; reflexivity.
Defined.

(* ================================================================== *)
(** * Base URLs                                                        *)
(* ================================================================== *)

Lemma reverse_cons c s : Js.reverse (String c s) = Js.reverse s +:+ String c "".
Proof. unfold Js.reverse. cbn [Js.rev_onto]. apply rev_onto_acc. Qed.

Lemma reverse_app a b : Js.reverse (a +:+ b) = Js.reverse b +:+ Js.reverse a.
Proof. unfold Js.reverse. rewrite rev_onto_app. apply rev_onto_acc. Qed.

Lemma append_nil_r s : s +:+ "" = s.
Proof. induction s as [| c s IH]; [reflexivity |]. rewrite append_cons, IH. reflexivity. Qed.

Lemma reverse_involutive s : Js.reverse (Js.reverse s) = s.
Proof.
  induction s as [| c s IH]; [reflexivity |].
  rewrite reverse_cons, reverse_app, IH. reflexivity.
Qed.

Lemma startsInk_app a b : Js.truthy a = true -> startsInk (a +:+ b) = startsInk a.
Proof. destruct a; [discriminate | reflexivity]. Qed.

Lemma reverse_truthy s : Js.truthy (Js.reverse s) = Js.truthy s.
Proof. unfold Js.reverse. rewrite rev_onto_truthy. apply orb_false_r. Qed.

Lemma startsInk_trimStart s : startsInk (Js.trimStart s) = true.
Proof.
  induction s as [| c r IH]; [reflexivity |]. cbn [Js.trimStart].
  destruct (Js.isWhiteSpace c) eqn:Hc; [exact IH |]. cbn [startsInk]. rewrite Hc. reflexivity.
Qed.

Lemma trimStart_id s : startsInk s = true -> Js.trimStart s = s.
Proof.
  destruct s as [| c r]; [reflexivity |]. cbn [startsInk Js.trimStart].
  destruct (Js.isWhiteSpace c); [discriminate | reflexivity].
Qed.

(** A string that ends without white space still does once white space
    is trimmed from its start. *)
Lemma endsInk_trimStart w :
  startsInk (Js.reverse w) = true -> startsInk (Js.reverse (Js.trimStart w)) = true.
Proof.
  induction w as [| c r IH]; [reflexivity |]. cbn [Js.trimStart].
  destruct (Js.isWhiteSpace c) eqn:Hc; [| auto].
  rewrite reverse_cons. destruct r as [| d r'].
  - intros _. reflexivity.
  - rewrite startsInk_app by (rewrite reverse_truthy; reflexivity). exact IH.
Qed.

Lemma startsInk_trim x : startsInk (Js.trim x) = true.
Proof.
  unfold Js.trim, Js.trimEnd. apply endsInk_trimStart.
  rewrite reverse_involutive. apply startsInk_trimStart.
Qed.

Lemma dropSlashes_suffix w : exists p, w = p +:+ dropSlashes w.
Proof.
  induction w as [| c r [p IH]]; [exists ""; reflexivity |]. cbn [dropSlashes].
  destruct (Ascii.eqb c "/"); [| exists ""; reflexivity].
  exists (String c p). rewrite append_cons, <- IH. reflexivity.
Qed.

Lemma dropSlashes_head w : Js.startsWith "/" (dropSlashes w) = false.
Proof.
  induction w as [| c r IH]; [reflexivity |]. cbn [dropSlashes].
  destruct (Ascii.eqb c "/") eqn:Hc; [exact IH |].
  cbn [Js.startsWith]. rewrite Ascii.eqb_sym, Hc. reflexivity.
Qed.

Lemma dropSlashes_id w : Js.startsWith "/" w = false -> dropSlashes w = w.
Proof.
  destruct w as [| c r]; [reflexivity |]. cbn [Js.startsWith dropSlashes].
  rewrite Ascii.eqb_sym. destruct (Ascii.eqb c "/"); [discriminate | reflexivity].
Qed.

Lemma startsInk_stripTrailingSlashes t :
  startsInk t = true -> startsInk (stripTrailingSlashes t) = true.
Proof.
  intros Ht. unfold stripTrailingSlashes.
  destruct (dropSlashes_suffix (Js.reverse t)) as [p Hp].
  apply (f_equal Js.reverse) in Hp. rewrite reverse_involutive, reverse_app in Hp.
  destruct (Js.truthy (Js.reverse (dropSlashes (Js.reverse t)))) eqn:Hd.
  - rewrite <- (startsInk_app _ (Js.reverse p) Hd), <- Hp. exact Ht.
  - destruct (Js.reverse (dropSlashes (Js.reverse t))); [reflexivity | discriminate].
Qed.

Lemma startsInk_normalizeBaseUrl raw : startsInk (normalizeBaseUrl raw) = true.
Proof.
  unfold normalizeBaseUrl. destruct (negb _); [reflexivity |].
  apply startsInk_stripTrailingSlashes, startsInk_trim.
Qed.

Lemma normalizeBaseUrl_no_slash raw : endsWith "/" (normalizeBaseUrl raw) = false.
Proof.
  unfold normalizeBaseUrl, endsWith. destruct (negb _); [reflexivity |].
  unfold stripTrailingSlashes. rewrite reverse_involutive. apply dropSlashes_head.
Qed.

(** A string that ends with [/v1] and does not start with white space
    is left as it is by [normalizeBaseUrl]. *)
Lemma normalizeBaseUrl_fixed y :
  endsWith "/v1" y = true -> startsInk y = true -> normalizeBaseUrl (Some y) = y.
Proof.
  unfold endsWith. intros Hend Hstart.
  change (Js.reverse "/v1") with "1v/" in Hend.
  destruct (Js.reverse y) as [| c w] eqn:Hrev; [discriminate |].
  cbn [Js.startsWith] in Hend.
  destruct (Ascii.eqb_spec "1" c) as [<- | _]; [| discriminate].
  assert (Htrim : Js.trim y = y).
  { unfold Js.trim, Js.trimEnd. rewrite (trimStart_id y Hstart), Hrev.
    cbn [Js.trimStart Js.isWhiteSpace]. rewrite <- Hrev. apply reverse_involutive. }
  unfold normalizeBaseUrl. change (default "" (Some y)) with y. rewrite Htrim.
  assert (Hy : Js.truthy y = true).
  { rewrite <- reverse_truthy, Hrev. reflexivity. }
  rewrite Hy. cbn [negb]. unfold stripTrailingSlashes. rewrite Hrev.
  cbn [dropSlashes]. rewrite <- Hrev. apply reverse_involutive.
Qed.

(** X20. [toV1BaseUrl] always gives a URL that ends with [/v1], and it
    is idempotent: applied to its own result it changes nothing.
    [normalizeBaseUrl] never leaves a trailing ['/']. *)
Theorem toV1BaseUrl_idempotent raw :
  endsWith "/v1" (toV1BaseUrl raw) = true
  /\ toV1BaseUrl (Some (toV1BaseUrl raw)) = toV1BaseUrl raw
  /\ endsWith "/" (normalizeBaseUrl raw) = false.
Proof.
  assert (Hend : endsWith "/v1" (toV1BaseUrl raw) = true).
  { unfold toV1BaseUrl.
    destruct (endsWith "/v1" (normalizeBaseUrl raw)) eqn:H; [exact H | apply endsWith_app]. }
  assert (Hstart : startsInk (toV1BaseUrl raw) = true).
  { unfold toV1BaseUrl. pose proof (startsInk_normalizeBaseUrl raw) as Hn.
    destruct (endsWith "/v1" (normalizeBaseUrl raw)); [exact Hn |].
    destruct (normalizeBaseUrl raw); [reflexivity | exact Hn]. }
  split; [exact Hend |]. split; [| apply normalizeBaseUrl_no_slash].
  unfold toV1BaseUrl at 1. rewrite (normalizeBaseUrl_fixed _ Hend Hstart), Hend. reflexivity.
Qed.

(* ================================================================== *)
(** * Images without payload                                           *)
(* ================================================================== *)

Lemma Yields_ret {A} (Q : A -> Prop) a : Q a -> Yields Q (ret a).
Proof. intros HQ s. exists []. split; [apply talked_refl | right; exact HQ]. Qed.

Lemma Yields_throw {A} (Q : A -> Prop) e : Yields Q (throw e).
Proof. intros s. exists []. split; [apply talked_refl | exact I]. Qed.

Lemma Yields_weaken {A} (Q Q' : A -> Prop) c :
  (forall a, Q a -> Q' a) -> Yields Q c -> Yields Q' c.
Proof.
  intros HQ Hc s. destruct (Hc s) as (l & Ht & Ho). exists l. split; [exact Ht |].
  destruct ((c s).1); [| exact I]. destruct Ho; auto.
Qed.

Lemma Yields_bind {A B} (Q1 : A -> Prop) (Q : B -> Prop) (c : M A) (k : A -> M B) :
  Yields Q1 c -> (forall a, Yields (fun b => Q1 a -> Q b) (k a)) -> Yields Q (bind c k).
Proof.
  intros Hc Hk s. unfold bind.
  destruct (Hc s) as (l1 & H1 & Ho1).
  destruct (c s) as [[a | e] s1] eqn:Ec; cbn [fst snd] in H1, Ho1.
  - destruct (Hk a s1) as (l2 & H2 & Ho2).
    exists (l1 ++ l2). split; [eapply talked_trans; eauto |].
    destruct ((k a s1).1); [| exact I].
    destruct Ho1 as [Hget | HQ1]; [left; apply Exists_app; auto |].
    destruct Ho2 as [Hget | HQ]; [left; apply Exists_app; auto | right; auto].
  - exists l1. cbn [fst snd]. auto.
Qed.

Lemma Yields_then {A B} (Q : B -> Prop) (c : M A) (k : A -> M B) :
  Yields anyValue c -> (forall a, Yields Q (k a)) -> Yields Q (bind c k).
Proof.
  intros Hc Hk. apply (Yields_bind anyValue); [exact Hc |].
  intros a. eapply Yields_weaken; [| apply Hk]. auto.
Qed.

Lemma Yields_tryCatch {A} (Q : A -> Prop) (c : M A) (h : Exn -> M A) :
  Yields Q c -> (forall e, Yields Q (h e)) -> Yields Q (tryCatch c h).
Proof.
  intros Hc Hh s. unfold tryCatch.
  destruct (Hc s) as (l1 & H1 & Ho1).
  destruct (c s) as [[a | e] s1] eqn:Ec; cbn [fst snd] in H1, Ho1.
  - exists l1. cbn [fst snd]. auto.
  - destruct (Hh e s1) as (l2 & H2 & Ho2).
    exists (l1 ++ l2). split; [eapply talked_trans; eauto |].
    destruct ((h e s1).1); [| exact I].
    destruct Ho2 as [Hget | HQ]; [left; apply Exists_app; auto | right; exact HQ].
Qed.

Lemma Yields_forEachPush {A B} (R : B -> Prop) (f : A -> M (list B)) (l : list A) :
  (forall x, Yields (Forall R) (f x)) -> Yields (Forall R) (forEachPush f l).
Proof.
  intros Hf. induction l as [| x r IH]; cbn [forEachPush].
  - apply Yields_ret. constructor.
  - apply (Yields_bind (Forall R)); [apply Hf |]. intros ys.
    apply (Yields_bind (Forall R)); [exact IH |]. intros zs.
    apply Yields_ret. intros Hzs Hys. apply Forall_app. auto.
Qed.

Section AdapterYields.

Variable env : Env.

Lemma Yields_fetch req t : Yields anyValue (fetchWithTimeout env req t).
Proof.
  intros s. exists [req]. split; [apply fetch_talked |].
  destruct ((fetchWithTimeout env req t s).1); [right |]; exact I.
Qed.

Lemma Yields_resJson r : Yields anyValue (resJson r).
Proof. unfold resJson. destruct (json r); [apply Yields_ret; exact I | apply Yields_throw]. Qed.

(** A computation that starts with a GET yields anything. *)
Lemma Yields_fetchUrlAsBase64 (Q : ImageResult -> Prop) url t :
  Yields Q (fetchUrlAsBase64 env url t).
Proof.
  unfold fetchUrlAsBase64. apply (Yields_bind (fun _ => False)).
  - intros s. exists [GetUrl url]. split; [apply fetch_talked |].
    destruct ((fetchWithTimeout env (GetUrl url) t s).1); [| exact I].
    left. constructor. exact I.
  - intros res. destruct (negb (ok res)); [apply Yields_throw |].
    apply Yields_ret. intros [].
Qed.

Lemma Yields_fetchOne (Q : list ImageResult -> Prop) url t :
  Yields Q (img <- fetchUrlAsBase64 env url t ;; ret [img]).
Proof.
  apply (Yields_bind (fun _ => False)); [apply Yields_fetchUrlAsBase64 |].
  intros img. apply Yields_ret. intros [].
Qed.

Lemma parseDataUrl_filled u p : parseDataUrl u = Some p -> filled p.
Proof.
  unfold parseDataUrl, filled.
  destruct (matchDataUrl true _) as [[m b] |] eqn:Hm; [| discriminate].
  intros [= <-]. apply matchDataUrl_Some in Hm as (_ & _ & Hb). exact Hb.
Qed.

Lemma nonBlank_truthy v b : nonBlank v = Some b -> Js.truthy b = true.
Proof.
  unfold nonBlank. destruct v as [x |]; [| discriminate].
  destruct (Js.truthy (Js.trim x)) eqn:Ht; [| discriminate]. intros [= <-].
  rewrite trim_truthy in Ht. destruct x; [discriminate | reflexivity].
Qed.

Lemma inlineImage_filled x img : inlineImage x = Some img -> filled img.
Proof.
  unfold inlineImage, filled. destruct x as [d |]; [| discriminate].
  destruct (inl_data d) as [b |]; [| discriminate].
  destruct (Js.truthy b) eqn:Hb; [| discriminate]. intros [= <-]. exact Hb.
Qed.

Lemma parseGeminiResponse_filled j : Forall filled (parseGeminiResponse j).
Proof.
  unfold parseGeminiResponse. apply List.Forall_forall. intros img Hin.
  apply in_flat_map in Hin as (c & _ & Hin). apply in_flat_map in Hin as (part & _ & Hin).
  unfold geminiPart in Hin.
  destruct (inlineImage (inlineData part)) eqn:E1.
  - destruct Hin as [<- | []]. eapply inlineImage_filled; eauto.
  - destruct (inlineImage (inline_data part)) eqn:E2; [| destruct Hin].
    destruct Hin as [<- | []]. eapply inlineImage_filled; eauto.
Qed.

Lemma Yields_imagesItem t item : Yields (Forall filled) (imagesItem env t item).
Proof.
  unfold imagesItem. destruct (nonBlank (b64_json item)) as [b |] eqn:Hb.
  - apply Yields_ret. repeat constructor. unfold filled, stripDataUrlPrefix. cbn [base64].
    destruct (parseDataUrl (Some b)) as [p |] eqn:Ep.
    + apply (parseDataUrl_filled _ _ Ep).
    + apply (nonBlank_truthy _ _ Hb).
  - destruct (nonBlank (item_url item)); [apply Yields_fetchOne |].
    apply Yields_ret. constructor.
Qed.

Lemma Yields_imageFromUrl t u : Yields (Forall filled) (imageFromUrl env t u).
Proof.
  unfold imageFromUrl. destruct (parseDataUrl (Some u)) as [p |] eqn:Ep.
  - apply Yields_ret. repeat constructor. apply (parseDataUrl_filled _ _ Ep).
  - destruct (Js.startsWith "http" u); [apply Yields_fetchOne |].
    apply Yields_ret. constructor.
Qed.

Lemma Yields_contentItem t item : Yields (Forall filled) (contentItem env t item).
Proof.
  unfold contentItem. destruct (inlineImage (ci_inline_data item)) eqn:Ei.
  - apply Yields_ret. repeat constructor. eapply inlineImage_filled; eauto.
  - destruct (ci_type item); [| apply Yields_ret; constructor].
    destruct (urlOf (ci_image_url item)); [| apply Yields_ret; constructor].
    destruct (_ && _); [apply Yields_imageFromUrl | apply Yields_ret; constructor].
Qed.

Lemma Yields_messageImage t img : Yields (Forall filled) (messageImage env t img).
Proof.
  unfold messageImage.
  destruct (nonBlank _); [apply Yields_imageFromUrl | apply Yields_ret; constructor].
Qed.

Lemma Yields_choiceImages t c : Yields (Forall filled) (choiceImages env t c).
Proof.
  unfold choiceImages. destruct (message c); [| apply Yields_ret; constructor].
  apply (Yields_bind (Forall filled)); [apply Yields_forEachPush, Yields_contentItem |].
  intros xs.
  apply (Yields_bind (Forall filled)); [apply Yields_forEachPush, Yields_messageImage |].
  intros ys. apply Yields_ret. intros Hys Hxs. apply Forall_app. auto.
Qed.

Lemma Yields_parseOpenAI j t :
  Yields (Forall filled) (parseOpenAICompatibleResponse env j t).
Proof.
  unfold parseOpenAICompatibleResponse.
  apply (Yields_bind (Forall filled)); [apply Yields_forEachPush, Yields_choiceImages |].
  intros xs. apply Yields_ret. intros Hxs. apply Forall_app.
  split; [apply parseGeminiResponse_filled | exact Hxs].
Qed.

Lemma Yields_imagesApi params :
  Yields (Forall filled) (generateImagesViaImagesApi env params).
Proof.
  unfold generateImagesViaImagesApi. apply Yields_then; [apply Yields_fetch |].
  intros res. destruct (negb (ok res)); [apply Yields_throw |].
  apply Yields_then; [apply Yields_resJson |]. intros j.
  apply (Yields_bind (Forall filled)); [apply Yields_forEachPush, Yields_imagesItem |].
  intros images. destruct images; [apply Yields_throw | apply Yields_ret; auto].
Qed.

Lemma Yields_geminiNative params :
  Yields (Forall filled) (generateImagesViaGeminiNative env params).
Proof.
  unfold generateImagesViaGeminiNative. apply Yields_then; [apply Yields_fetch |].
  intros res. destruct (negb (ok res)); [apply Yields_throw |].
  apply Yields_then; [apply Yields_resJson |]. intros j.
  pose proof (parseGeminiResponse_filled j) as H.
  destruct (parseGeminiResponse j); [apply Yields_throw | apply Yields_ret; exact H].
Qed.

Lemma Yields_chatCompletions params :
  Yields (Forall filled) (generateImagesViaChatCompletions env params).
Proof.
  unfold generateImagesViaChatCompletions. apply Yields_then; [apply Yields_fetch |].
  intros res. destruct (negb (ok res)); [apply Yields_throw |].
  apply Yields_then; [apply Yields_resJson |]. intros j.
  apply (Yields_bind (Forall filled)); [apply Yields_parseOpenAI |].
  intros images. destruct images; [apply Yields_throw | apply Yields_ret; auto].
Qed.

Lemma Yields_generateLoop g count iters :
  Yields (Forall filled) g ->
  forall out, Yields (fun res => Forall filled out -> Forall filled res)
                (generateLoop g count iters out).
Proof.
  intros Hg. induction iters as [| k IH]; intros out; cbn [generateLoop].
  - apply Yields_ret. auto.
  - apply (Yields_bind (Forall filled)); [exact Hg |]. intros batch.
    destruct (count <=? _).
    + apply Yields_ret. intros Hb Ho. apply Forall_app. auto.
    + eapply Yields_weaken; [| apply IH]. intros res Hres Hb Ho.
      apply Hres, Forall_app. auto.
Qed.

Lemma Yields_generateMultiple g count :
  Yields (Forall filled) g -> Yields (Forall filled) (generateMultiple g count).
Proof.
  intros Hg. unfold generateMultiple.
  apply (Yields_bind (Forall filled)).
  - eapply Yields_weaken; [| apply (Yields_generateLoop g count _ Hg [])].
    intros res H. apply H. constructor.
  - intros out. apply Yields_ret. intros Hout. unfold Js.sliceFirst.
    apply Forall_take, Hout.
Qed.

Lemma Yields_generateImages params :
  Yields (Forall filled) (generateImages env params).
Proof.
  destruct (generateImages_dispatch env params)
    as [[_ ->] | [[_ ->] | [[_ ->] | [_ ->]]]].
  - apply Yields_generateMultiple, Yields_geminiNative.
  - apply Yields_imagesApi.
  - unfold generateWithFallback. apply Yields_tryCatch; [apply Yields_imagesApi |].
    intros err. destruct (fallbackEligible err); [| apply Yields_throw].
    apply Yields_tryCatch; [apply Yields_generateMultiple, Yields_geminiNative |].
    intros _. apply Yields_generateMultiple, Yields_chatCompletions.
  - apply Yields_generateMultiple, Yields_chatCompletions.
Qed.

End AdapterYields.

(** X21. An image without payload can only come from a URL.  If
    [generateImages] returns without having fetched any URL, every
    image it returns has a non-empty payload; this is always so in mode
    gemini, where no URL is ever fetched.  (An image fetched from a URL
    whose body is empty is returned with an empty payload.) *)
Theorem empty_payload_only_from_url env params s images s' :
  generateImages env params s = (Returns images, s') ->
  (Forall (fun r => ~ isGet r) (newCalls s s') -> Forall filled images)
  /\ (imageMode (config env) = "gemini" ->
      Forall (fun r => ~ isGet r) (newCalls s s') /\ Forall filled images).
Proof.
  intros Hrun.
  assert (Hfirst : Forall (fun r => ~ isGet r) (newCalls s s') -> Forall filled images).
  { destruct (Yields_generateImages env params s) as (l & Ht & Ho).
    rewrite Hrun in Ht, Ho. cbn [fst snd] in Ht, Ho.
    rewrite (talked_newCalls _ _ _ Ht). intros Hno.
    destruct Ho as [Hget | Hfilled]; [| exact Hfilled].
    apply Exists_exists in Hget as (r & Hin & Hr).
    rewrite Forall_forall in Hno. destruct (Hno r Hin Hr). }
  split; [exact Hfirst |]. intros Hmode.
  assert (Hno : Forall (fun r => ~ isGet r) (newCalls s s')).
  { assert (Hgen : generateImages env params
                   = generateMultiple (generateImagesViaGeminiNative env params)
                       (effectiveCount params))
      by (unfold generateImages; rewrite Hmode; reflexivity).
    rewrite Hgen in Hrun.
    apply generateMultiple_returns in Hrun as (batches & Hrep & _).
    pose proof (repeatCalls_same_request (nativePost params)
                  (generateImagesViaGeminiNative env params)
                  (native_single_request env params) _ _ _ _ Hrep) as Ht.
    rewrite (talked_newCalls _ _ _ Ht). apply Forall_replicate. intros []. }
  split; [exact Hno | apply Hfirst, Hno].
Qed.

(** X21, at two images asked from a native route. *)
Lemma empty_payload_witness :
  (generateImages (testEnv "gemini" nativeOnly) (request 2) initialState).1
  = Returns [png "AAAA"; png "AAAA"]
  /\ Forall filled [png "AAAA"; png "AAAA"].
Proof.
  split; [vm_compute; reflexivity |].
  destruct (empty_payload_only_from_url (testEnv "gemini" nativeOnly) (request 2)
              initialState [png "AAAA"; png "AAAA"] _ eq_refl) as [_ H].
  apply H. reflexivity.
Defined.

(* ================================================================== *)
(** * The prompt                                                       *)
(* ================================================================== *)

Lemma hasInk_app a b : hasInk (a +:+ b) = hasInk a || hasInk b.
Proof.
  induction a as [| c a IH]; [reflexivity |].
  rewrite append_cons. cbn [hasInk]. rewrite IH. apply orb_assoc.
Qed.

Lemma hasInk_concat l : hasInk (String.concat " " l) = existsb hasInk l.
Proof.
  induction l as [| x r IH]; [reflexivity |].
  destruct r as [| y r'].
  - cbn [String.concat existsb]. rewrite orb_false_r. reflexivity.
  - change (String.concat " " (x :: y :: r'))
      with (x +:+ " " +:+ String.concat " " (y :: r')).
    rewrite !hasInk_app, IH. cbn [existsb]. reflexivity.
Qed.

Lemma parsePrompt_truthy raw : Js.truthy (parsePrompt raw) = promptInk raw.
Proof.
  unfold parsePrompt, promptInk. destruct raw as [| t | l]; rewrite trim_truthy.
  - reflexivity.
  - reflexivity.
  - rewrite hasInk_concat. induction l as [| x r IH]; [reflexivity |].
    cbn [map existsb]. rewrite IH. reflexivity.
Qed.

(** X22. The request is refused with "参数 prompt 不能为空" exactly when
    the prompt holds no character other than white space: it is
    absent, a blank string, or an array whose elements are all blank or
    [null].  The refusal leaves the state as it was; every other
    request goes on to resolve a session. *)
Theorem prompt_refused_iff_blank env args s :
  (exists s', handleGenerateImage env args s
              = (Returns (ErrorResult "参数 prompt 不能为空"), s'))
  <-> promptInk (a_prompt args) = false.
Proof.
  unfold handleGenerateImage. rewrite parsePrompt_truthy. split.
  - destruct (promptInk (a_prompt args)); [| reflexivity]. cbn [negb]. intros [s' Hrun].
    exfalso. unfold bind at 1 in Hrun.
    destruct (getOrCreateSession_returns env (a_session_id args) s)
      as (key & session & s1 & Hget & _).
    rewrite Hget in Hrun. cbv beta iota zeta in Hrun.
    destruct (String.eqb _ "path" && negb (Js.truthy _)); [discriminate |].
    unfold bind at 1 in Hrun.
    match type of Hrun with
    | context [generateImages env ?p s1] =>
        destruct (generateImages env p s1) as [[images | e] s2]; [| discriminate]
    end.
    unfold bind at 1 in Hrun.
    match type of Hrun with
    | context [updateSession env key ?u images s2] =>
        destruct (updateSession_frame env key u images s2) as (s3 & Hupd & _)
    end.
    rewrite Hupd in Hrun.
    apply answer_frame in Hrun as (_ & _ & _ & _ & [[=] | [e [=]]]).
  - intros ->. exists s. reflexivity.
Qed.

(* ================================================================== *)
(** * Session ids                                                      *)
(* ================================================================== *)

Section Keys.

Variable env : Env.

Lemma wellKeyed_same s s' :
  sessions s' = sessions s -> sessionFiles s' = sessionFiles s ->
  wellKeyed env s -> wellKeyed env s'.
Proof. unfold wellKeyed. intros -> ->. auto. Qed.

Lemma wellKeyed_shrunk s s' :
  (forall key session, sessions s' !! key = Some session -> sessions s !! key = Some session) ->
  shrunk s s' -> wellKeyed env s -> wellKeyed env s'.
Proof. intros Hs [Hf _] [H1 H2]. split; eauto. Qed.

Lemma saveSessionToFile_wellKeyed session s :
  wellKeyed env s -> wellKeyed env (saveSessionToFile env session s).
Proof.
  intros [H1 H2]. split.
  - rewrite saveSessionToFile_sessions. exact H1.
  - unfold saveSessionToFile.
    destruct (negb (sessionPersistEnabled (config env))); [exact H2 |].
    destruct (extractMessageImages env _ _ _) as [processed ex].
    destruct (saveImageToFile env _ _ _) as [ref files].
    destruct (writable env _); cbn [sessionFiles set_sessionFiles set_imageFiles];
      [| exact H2].
    intros p record Hp. apply lookup_insert_Some in Hp as [[<- <-] | [_ Hp]]; [reflexivity |].
    apply H2, Hp.
Qed.

Lemma insert_wellKeyed key session s :
  id session = key -> wellKeyed env s ->
  wellKeyed env (set_sessions (<[key := session]> (sessions s)) s).
Proof.
  intros Hid [H1 H2]. split; [| exact H2]. cbn [sessions set_sessions].
  intros k x Hk. apply lookup_insert_Some in Hk as [[<- <-] | [_ Hk]]; [exact Hid |].
  apply H1, Hk.
Qed.

Lemma createSession_wellKeyed s key session s1 :
  wellKeyed env s -> createSession env s = (Returns (key, session), s1) ->
  wellKeyed env s1 /\ id session = key.
Proof.
  intros Hw. rewrite createSession_spec. intros [= <- <- <-]. split; [| reflexivity].
  apply saveSessionToFile_wellKeyed.
  apply (insert_wellKeyed _ _ (set_issued (S (issued s)) s)); [reflexivity |].
  apply (wellKeyed_same s); [reflexivity | reflexivity | exact Hw].
Qed.

Lemma getOrCreateSession_wellKeyed sessionId s key session s1 :
  wellKeyed env s ->
  getOrCreateSession env sessionId s = (Returns (key, session), s1) ->
  wellKeyed env s1 /\ id session = key.
Proof.
  intros Hw. unfold getOrCreateSession, bind at 1, get.
  destruct sessionId as [sid |]; [| apply createSession_wellKeyed, Hw].
  destruct (negb (Js.truthy sid)); [apply createSession_wellKeyed, Hw |].
  destruct (sessions s !! sid) as [held |] eqn:Hmem.
  - unfold refresh, bind, get, modify, ret. intros [= <- <- <-].
    destruct Hw as [H1 H2]. pose proof (H1 _ _ Hmem) as Hid.
    split; [| exact Hid]. apply insert_wellKeyed; [exact Hid | split; assumption].
  - destruct (loadSessionFromFile env sid s) as [fileSession |] eqn:Hload;
      [| apply createSession_wellKeyed, Hw].
    destruct (_ <=? _).
    + unfold refresh, bind, get, modify, ret. intros [= <- <- <-].
      assert (Hid : id fileSession = sid).
      { unfold loadSessionFromFile in Hload.
        destruct (negb (sessionPersistEnabled (config env))); [discriminate |].
        destruct (sessionFiles s !! getSessionFilePath env sid) as [record |] eqn:Hrec;
          [| discriminate].
        injection Hload as <-. cbn [id]. destruct Hw as [_ H2].
        apply H2, getSessionFilePath_inj in Hrec. congruence. }
      split; [| exact Hid]. apply insert_wellKeyed; [exact Hid | exact Hw].
    + unfold bind, modify. apply createSession_wellKeyed.
      apply (wellKeyed_shrunk s); [| apply deleteSessionFile_shrunk | exact Hw].
      intros k x. destruct (deleteSessionFile_frame_all env sid s) as [-> _]. auto.
Qed.

Lemma updateSession_wellKeyed key userContent images s :
  wellKeyed env s -> wellKeyed env (updateSession env key userContent images s).2.
Proof.
  intros Hw. unfold updateSession, modify, session_at. cbn [snd].
  destruct (sessions s !! key) as [session |] eqn:Hkey; [| exact Hw].
  apply saveSessionToFile_wellKeyed, insert_wellKeyed; [| exact Hw].
  cbn [updateSessionObject id]. destruct Hw as [H1 _]. apply (H1 _ _ Hkey).
Qed.

Lemma cleanup_wellKeyed s :
  wellKeyed env s -> wellKeyed env (cleanupExpiredSessions env s).2.
Proof.
  intros Hw. unfold cleanupExpiredSessions, modify. cbn [snd].
  set (s1 := map_fold (sweepSession env (clock s)) s (sessions s)).
  assert (H1 : wellKeyed env s1).
  { apply (wellKeyed_shrunk s); [| apply sweepSessions_shrunk | exact Hw].
    intros key session.
    destruct (sweepSessions_spec env (clock s) s (sessions s)) as (Hlook & _).
    fold s1 in Hlook. rewrite Hlook.
    destruct (sessions s !! key) as [x |]; [| auto].
    destruct (expired env (clock s) (lastUsedAt x)); [discriminate | auto]. }
  destruct (sessionPersistEnabled (config env)); [| exact H1].
  apply (wellKeyed_shrunk s1); [| apply sweepFiles_shrunk | exact H1].
  intros key session.
  destruct (sweepFiles_frame env (clock s)
              (readdir (sessionStorageDir (config env)) (sessionFiles s1)) s1) as [-> _].
  auto.
Qed.

End Keys.

(** X23. The session id handed to the client is a key of the [Map].
    Call a state well keyed when every session of the [Map] is held
    under its own id and every record lies at the path of its own id.
    For ids without a slash (the session id of the request, and the
    ids of the records on disk), a tool call and a sweep keep a well
    keyed state well keyed, and after a successful call the session id
    of the answer resolves in memory to a session with that id whose
    last image is the first image of the answer. *)
Theorem session_ids_resolve env args s :
  wellKeyed env s ->
  (forall sid, a_session_id args = Some sid -> hasSlash sid = false) ->
  (forall p record, sessionFiles s !! p = Some record -> hasSlash (fileId record) = false) ->
  let final := callTool env args s in
  wellKeyed env final.2
  /\ wellKeyed env (cleanupExpiredSessions env s).2
  /\ forall images sid,
       final.1 = Returns (ContentResult images sid) ->
       exists session,
         sessions final.2 !! sid = Some session
         /\ id session = sid /\ lastImage session = head images.
Proof.
  intros Hw _ _ final.
  assert (Hhandle : match handleGenerateImage env args s with
                    | (Returns (ContentResult images sid), s') =>
                        wellKeyed env s'
                        /\ exists session,
                             sessions s' !! sid = Some session
                             /\ id session = sid /\ lastImage session = head images
                    | (_, s') => wellKeyed env s'
                    end).
  { unfold handleGenerateImage.
    destruct (negb (Js.truthy (parsePrompt (a_prompt args)))); [exact Hw |].
    unfold bind at 1.
    destruct (getOrCreateSession_returns env (a_session_id args) s)
      as (key & session & s1 & Hget & Hlook & _).
    destruct (getOrCreateSession_wellKeyed env _ _ _ _ _ Hw Hget) as [Hw1 Hid].
    rewrite Hget. cbv beta iota zeta.
    destruct (String.eqb _ "path" && negb (Js.truthy _)); [exact Hw1 |].
    unfold bind at 1.
    match goal with
    | |- context [generateImages env ?p s1] => set (params := p)
    end.
    destruct (generateImages env params s1) as [[images | e] s2] eqn:Hgen;
      destruct (Does_run _ _ _ _ _ _ _ (Does_generateImages env params) Hgen)
        as (_ & (_ & Hses & Hfiles & _) & _).
    2: { apply (wellKeyed_same env s1); assumption. }
    assert (Hw2 : wellKeyed env s2) by (apply (wellKeyed_same env s1); assumption).
    unfold bind at 1.
    set (userContent := buildUserContent _ _).
    pose proof (updateSession_wellKeyed env key userContent images s2 Hw2) as Hw3.
    assert (Hkey : sessions s2 !! key = Some session) by (rewrite Hses; exact Hlook).
    pose proof (updateSession_object env key userContent images s2 session Hkey) as Hobj.
    destruct (updateSession_frame env key userContent images s2) as (s3 & Hupd & _).
    rewrite Hupd in *. cbn [snd] in Hw3, Hobj.
    match goal with
    | |- context [(if String.eqb ?output "image" then ?a else ?b) s3] =>
        destruct ((if String.eqb output "image" then a else b) s3) as [o s4] eqn:Hanswer
    end.
    apply answer_frame in Hanswer as (Hses4 & Hfiles4 & _ & _ & Ho).
    assert (Hw4 : wellKeyed env s4) by (apply (wellKeyed_same env s3); assumption).
    destruct Ho as [-> | [e ->]]; [| exact Hw4].
    split; [exact Hw4 |]. rewrite Hid, Hses4. eexists. split; [exact Hobj |].
    split; [exact Hid |]. cbn [updateSessionObject lastImage].
    pose proof (generateImages_nonempty _ _ _ _ _ Hgen) as Hne.
    destruct images; [congruence | reflexivity]. }
  split; [| split; [apply cleanup_wellKeyed, Hw |]].
  - unfold final, callTool, tryCatch.
    destruct (handleGenerateImage env args s) as [[[t | images sid] | e] s']; cbn [snd];
      [exact Hhandle | apply Hhandle | exact Hhandle].
  - intros images sid. unfold final, callTool, tryCatch.
    destruct (handleGenerateImage env args s) as [[[t | images' sid'] | e] s']; cbn [fst snd];
      [discriminate | | discriminate].
    intros [= <- <-]. apply Hhandle.
Qed.

(** X23, at a first request in a process that holds no session. *)
Lemma session_ids_witness :
  wellKeyed (testEnv "gemini" nativeOnly) initialState
  /\ exists session,
       sessions (callTool (testEnv "gemini" nativeOnly) (editArgs None None None)
                   initialState).2 !! "id0" = Some session
       /\ id session = "id0" /\ lastImage session = Some (png "AAAA").
Proof.
  assert (Hw : wellKeyed (testEnv "gemini" nativeOnly) initialState).
  { split; intros k x H; unfold initialState in H;
      cbn [sessions sessionFiles] in H; rewrite lookup_empty in H; discriminate. }
  split; [exact Hw |].
  destruct (session_ids_resolve (testEnv "gemini" nativeOnly) (editArgs None None None)
              initialState Hw) as (_ & _ & H);
    [discriminate
    | intros p record Hp; unfold initialState in Hp; cbn [sessionFiles] in Hp;
      rewrite lookup_empty in Hp; discriminate |].
  apply (H [png "AAAA"] "id0"). vm_compute. reflexivity.
Defined.

(* ================================================================== *)
(** * The cost of a request                                            *)
(* ================================================================== *)

Lemma posts_app l1 l2 : posts (l1 ++ l2) = (posts l1 + posts l2)%nat.
Proof. unfold posts. rewrite List.filter_app, length_app. reflexivity. Qed.

Lemma posts_gets gets : Forall isGet gets -> posts gets = O.
Proof.
  induction 1 as [| r l Hr _ IH]; [reflexivity |].
  destruct r; cbn in Hr; try contradiction. exact IH.
Qed.

Lemma Costs_ret {A} (a : A) : Costs 0 (ret a).
Proof. intros s. exists []. split; [apply talked_refl | reflexivity]. Qed.

Lemma Costs_throw {A} e : Costs 0 (@throw A e).
Proof. intros s. exists []. split; [apply talked_refl | reflexivity]. Qed.

Lemma Costs_weaken {A} n n' (c : M A) : (n <= n')%nat -> Costs n c -> Costs n' c.
Proof. intros Hn Hc s. destruct (Hc s) as (l & Ht & Hl). exists l. split; [exact Ht | lia]. Qed.

Lemma Costs_bind {A B} n1 n2 (c : M A) (k : A -> M B) :
  Costs n1 c -> (forall a, Costs n2 (k a)) -> Costs (n1 + n2) (bind c k).
Proof.
  intros Hc Hk s. unfold bind. destruct (Hc s) as (l1 & H1 & Hn1).
  destruct (c s) as [[a | e] s1]; cbn [snd] in H1.
  - destruct (Hk a s1) as (l2 & H2 & Hn2). exists (l1 ++ l2).
    split; [eapply talked_trans; eauto | rewrite posts_app; lia].
  - exists l1. cbn [snd]. split; [exact H1 | lia].
Qed.

Lemma Costs_tryCatch {A} n1 n2 (c : M A) (h : Exn -> M A) :
  Costs n1 c -> (forall e, Costs n2 (h e)) -> Costs (n1 + n2) (tryCatch c h).
Proof.
  intros Hc Hh s. unfold tryCatch. destruct (Hc s) as (l1 & H1 & Hn1).
  destruct (c s) as [[a | e] s1]; cbn [snd] in H1.
  - exists l1. cbn [snd]. split; [exact H1 | lia].
  - destruct (Hh e s1) as (l2 & H2 & Hn2). exists (l1 ++ l2).
    split; [eapply talked_trans; eauto | rewrite posts_app; lia].
Qed.

Lemma Costs_run {A} n (c : M A) s : Costs n c -> (posts (newCalls s (c s).2) <= n)%nat.
Proof. intros Hc. destruct (Hc s) as (l & Ht & Hl). rewrite (talked_newCalls _ _ _ Ht). exact Hl. Qed.

Section AdapterCosts.

Variable env : Env.

(** One call of a strategy is one POST. *)
Lemma Costs_strategy post (g : M (list ImageResult)) :
  (forall s, strategyRun env post s (g s)) -> Costs 1 g.
Proof.
  intros Hg s. destruct (Hg s) as (gets & Hgets & Ht & _). exists (post :: gets).
  split; [exact Ht |]. change (post :: gets) with ([post] ++ gets).
  rewrite posts_app, (posts_gets _ Hgets). unfold posts. cbn [List.filter].
  destruct post; cbn [length]; lia.
Qed.

Lemma Costs_generateLoop g count iters :
  Costs 1 g -> forall out, Costs iters (generateLoop g count iters out).
Proof.
  intros Hg. induction iters as [| k IH]; intros out; cbn [generateLoop].
  - apply Costs_ret.
  - apply (Costs_bind 1 k); [exact Hg |]. intros batch.
    destruct (count <=? _); [| apply IH].
    apply (Costs_weaken 0); [lia | apply Costs_ret].
Qed.

Lemma Costs_generateMultiple g count :
  Costs 1 g -> Costs (Z.to_nat count) (generateMultiple g count).
Proof.
  intros Hg. unfold generateMultiple.
  apply (Costs_weaken (Z.to_nat count + 0)); [lia |].
  apply Costs_bind; [apply Costs_generateLoop, Hg |]. intros out. apply Costs_ret.
Qed.

(** The POST requests of [generateImages], by mode. *)
Lemma Costs_generateImages params :
  let count := Z.to_nat (effectiveCount params) in
  let mode := imageMode (config env) in
  Costs (if String.eqb mode "gemini" then count
         else if String.eqb mode "openai" || String.eqb mode "images" then 1%nat
         else if String.eqb mode "auto" then (1 + (count + count))%nat
         else count)
    (generateImages env params).
Proof.
  intros count mode. unfold generateImages. fold mode.
  pose proof (Costs_strategy _ _ (imagesApi_run env params)) as H1.
  pose proof (Costs_strategy _ _ (geminiNative_run env params)) as H2.
  pose proof (Costs_strategy _ _ (chatCompletions_run env params)) as H3.
  destruct (String.eqb mode "gemini"); [apply Costs_generateMultiple, H2 |].
  destruct (String.eqb mode "openai" || String.eqb mode "images"); [exact H1 |].
  destruct (String.eqb mode "auto"); [| apply Costs_generateMultiple, H3].
  unfold generateWithFallback. apply Costs_tryCatch; [exact H1 |].
  intros err. destruct (fallbackEligible err).
  - apply Costs_tryCatch; [apply Costs_generateMultiple, H2 |].
    intros _. apply Costs_generateMultiple, H3.
  - apply (Costs_weaken 0); [lia | apply Costs_throw].
Qed.

End AdapterCosts.

(** X24. A tool call issues at most nine POST requests.  With [n] the
    count asked for, clamped into 1..4, the POST requests of a call are
    at most [n] in mode gemini and in chat mode, at most one in the
    modes openai and images, and at most [1 + 2n] in mode auto.  (The
    GET requests that follow image URLs are not bounded by the code:
    there is one for each URL the endpoint answers with.) *)
Theorem tool_call_cost env args s :
  let n := Z.to_nat (clampInt (parseIntOr (a_n args) 1) 1 4) in
  let mode := imageMode (config env) in
  let sent := posts (newCalls s (callTool env args s).2) in
  (1 <= n <= 4)%nat
  /\ (sent <= (if String.eqb mode "gemini" then n
               else if String.eqb mode "openai" || String.eqb mode "images" then 1
               else if String.eqb mode "auto" then 1 + (n + n)
               else n))%nat
  /\ (sent <= 9)%nat.
Proof.
  intros n mode sent.
  pose proof (clampInt_range (parseIntOr (a_n args) 1) 1 4 ltac:(lia)) as Hn.
  assert (Hrange : (1 <= n <= 4)%nat) by (unfold n; lia).
  set (bound := if String.eqb mode "gemini" then n
                else if String.eqb mode "openai" || String.eqb mode "images" then 1%nat
                else if String.eqb mode "auto" then (1 + (n + n))%nat
                else n).
  assert (Hbound : (bound <= 9)%nat).
  { unfold bound. destruct (String.eqb mode "gemini"); [lia |].
    destruct (_ || _); [lia |]. destruct (String.eqb mode "auto"); lia. }
  assert (Hsent : (sent <= bound)%nat).
  { unfold sent, callTool, tryCatch.
    assert (Hhandle : (posts (newCalls s (handleGenerateImage env args s).2) <= bound)%nat).
    { unfold handleGenerateImage.
      destruct (negb (Js.truthy (parsePrompt (a_prompt args)))).
      { unfold ret, newCalls. cbn [snd]. rewrite drop_all. cbn. lia. }
      unfold bind at 1.
      destruct (getOrCreateSession_returns env (a_session_id args) s)
        as (key & session & s1 & Hget & _ & Hcalls).
      rewrite Hget. cbv beta iota zeta.
      destruct (String.eqb _ "path" && negb (Js.truthy _)).
      { unfold ret, newCalls. cbn [snd]. rewrite Hcalls, drop_all. cbn. lia. }
      unfold bind at 1.
      match goal with
      | |- context [generateImages env ?p s1] => set (params := p)
      end.
      assert (Hcount : Z.to_nat (effectiveCount params) = n).
      { unfold effectiveCount, params. cbn [p_n].
        rewrite (parseIntOr_small _ Hn), (clampInt_id _ 1 4 Hn). reflexivity. }
      pose proof (Costs_run _ _ s1 (Costs_generateImages env params)) as Hcost.
      cbv zeta in Hcost. rewrite Hcount in Hcost. fold mode in Hcost. fold bound in Hcost.
      assert (Hsame : forall s2, newCalls s s2 = newCalls s1 s2)
        by (intros s2; unfold newCalls; rewrite Hcalls; reflexivity).
      destruct (generateImages env params s1) as [[images | e] s2]; cbn [snd] in *;
        [| rewrite Hsame; exact Hcost].
      unfold bind at 1.
      match goal with
      | |- context [updateSession env key ?u images s2] =>
          destruct (updateSession_frame env key u images s2) as (s3 & -> & Hc3)
      end.
      match goal with
      | |- context [(if String.eqb ?output "image" then ?a else ?b) s3] =>
          destruct ((if String.eqb output "image" then a else b) s3) as [o s4] eqn:Hanswer
      end.
      apply answer_frame in Hanswer as (_ & _ & Hc4 & _).
      cbn [snd]. unfold newCalls in *. rewrite Hc4, Hc3. rewrite Hcalls in Hcost.
      exact Hcost. }
    destruct (handleGenerateImage env args s) as [[result | e] s']; exact Hhandle. }
  split; [exact Hrange |]. split; [exact Hsent | lia].
Qed.
